(** * The Splunk log driver of moby: batching, retry and shutdown

    A shallow embedding of [daemon/logger/splunk/splunk.go] and the
    properties of its delivery pipeline: the chunked flush with its
    overflow policy ([postMessages]), one HTTP delivery ([tryPostMessages]),
    the worker loop, the producer entry point ([queueMessageAsync]), the
    shutdown handshake ([Close]) and the construction of a logger ([New]).

    Conventions.
    - A Go [int] is a [Z] in the range of a signed 64-bit word; [int_add]
      and [int_sub] write the wrap-around out.
    - A Go [string] or [[]byte] is a [string] (a sequence of bytes).
    - A Go [error] is its message; [option error] is an [error] value
      that may be [nil].
    - A panic and a loop that never ends are results of their own
      ([Panic], [Diverge]): they are never confused with a return.
    - The Go standard library and the remote endpoint are not part of
      the driver; they are the fields of the class [GoLib]. *)

From Stdlib Require Import ZArith String Ascii Lia.
From stdpp Require Import base tactics option list strings gmap.

Local Open Scope Z_scope.

(** ** Go integers *)

Definition int_min : Z := - 2 ^ 63.
Definition int_max : Z := 2 ^ 63 - 1.

(** Two's complement wrap-around of a 64-bit signed integer. *)
Definition wrap64 (z : Z) : Z := (z + 2 ^ 63) mod 2 ^ 64 - 2 ^ 63.

Definition int_add (a b : Z) : Z := wrap64 (a + b).
Definition int_sub (a b : Z) : Z := wrap64 (a - b).

(** [len(s)] as a Go [int]. *)
Definition len {A} (s : list A) : Z := Z.of_nat (length s).

(** The integers of a logger are Go [int]s, and a slice fits in memory. *)
Definition intRange (z : Z) : Prop := int_min <= z <= int_max.
Definition fitsInMemory {A} (s : list A) : Prop := len s < 2 ^ 62.

#[global] Instance fitsInMemory_dec {A} (s : list A) : Decision (fitsInMemory s).
Proof. unfold fitsInMemory. apply _. Defined.

(** ** Errors, panics and divergence *)

Definition error : Type := string.

Inductive result (A : Type) : Type :=
| Done (a : A)
| Panic (why : string)
| Diverge.
Arguments Done {A} a.
Arguments Panic {A} why.
Arguments Diverge {A}.

(** [s[lo:hi]]. Go allows [hi] up to the capacity of [s]; every slice
    expression of the driver has [hi <= len(s)], so the capacity is never
    observed and the bound is taken at the length. *)
Definition slice {A} (s : list A) (lo hi : Z) : result (list A) :=
  if bool_decide (0 <= lo /\ lo <= hi /\ hi <= len s)
  then Done (take (Z.to_nat (hi - lo)) (drop (Z.to_nat lo) s))
  else Panic "slice bounds out of range".

(** ** Data model *)

(** [splunkMessageEvent]: the structured event of the inline and JSON
    formats. [Line] is [nil] in the template of the events, then a string
    or (JSON format) the raw JSON text that [json.Unmarshal] accepted. *)
Inductive eventLine : Type :=
| LineNil
| LineString (s : string)
| LineRawJSON (raw : string).

Record splunkMessageEvent : Type := {
  Line : eventLine;
  EventSource : string;
  Tag : string;
  Attrs : gmap string string;
}.

(** The [Event interface{}] field of a message. *)
Inductive eventPayload : Type :=
| EventNil
| EventStruct (e : splunkMessageEvent)
| EventString (s : string).

Record splunkMessage : Type := {
  Event : eventPayload;
  Time : string;
  Host : string;
  Source : string;
  SourceType : string;
  Index : string;
}.

(** The configuration fields of [splunkLogger]. The HTTP client and its
    transport live in the I/O history below; the channel, the lock and the
    two shutdown variables are the shared state of the pipeline. *)
Record splunkLogger : Type := {
  url : string;
  auth : string;
  nullMessage : splunkMessage;
  gzipCompression : bool;
  gzipCompressionLevel : Z;
  postMessagesFrequency : Z;
  postMessagesBatchSize : Z;
  bufferMaximum : Z;
  indexAck : bool;
}.

Definition driverName : string := "splunk".
Definition maxResponseSize : Z := 1024.
Definition StatusOK : Z := 200.

(** ** HTTP and the daemon log *)

Record Request : Type := {
  Method : string;
  URL : string;
  Header : list (string * string);
  Body : string;
}.

(** A response. Its body is a reader: [RespBody] are the bytes it yields
    and [RespBodyErr], when present, the error it reports after them
    instead of the end of the stream. *)
Record Response : Type := {
  StatusCode : Z;
  Status : string;
  RespBody : string;
  RespBodyErr : option error;
}.

Inductive Level : Type := WarnLevel | ErrorLevel.

(** One structured entry of the daemon log: [WithError], [WithField]s,
    then the level and the message. *)
Record LogEntry : Type := {
  entryLevel : Level;
  entryError : option error;
  entryFields : list (string * string);
  entryMessage : string;
}.

(** What the driver does to the outside world, oldest first. *)
Inductive io_event : Type :=
| IoHttp (req : Request) (res : error + Response)
| IoUuid (res : error + string)
| IoLog (e : LogEntry)
| IoCloseIdleConnections
| IoGo.

Definition history : Type := list io_event.

#[global] Instance Level_eq_dec : EqDecision Level.
Proof. solve_decision. Defined.

(** ** The Go library and the remote endpoint

    Everything the driver calls but does not define. The two oracles
    [uuidNewRandom] and [clientDo] answer from the I/O history so far, so
    that any sequence of answers, also one that depends on what was sent
    earlier, is some instance of the class. A request that times out
    ([batchSendTimeout]) is one of the errors of [clientDo]. *)
Class GoLib : Type := {
  (** [json.Marshal] of a message. *)
  jsonMarshal : splunkMessage -> error + string;
  (** The error of [gzip.NewWriterLevel], [None] when the level is accepted. *)
  gzipNewWriterLevel : Z -> option error;
  (** The gzip stream a writer of the given level has produced for the
      bytes written to it, once it is closed. *)
  gzipEncode : Z -> string -> string;
  (** The error of [http.NewRequest] for a method and a URL. *)
  httpNewRequestErr : string -> string -> option error;
  (** [uuid.NewRandom], already rendered with [String]. *)
  uuidNewRandom : history -> error + string;
  (** [client.Do]. *)
  clientDo : history -> Request -> error + Response;
  (** [fmt.Sprintf("%f", float64(nanos)/float64(time.Second))]. *)
  formatSeconds : Z -> string;
  (** Whether [json.Unmarshal] into a [json.RawMessage] accepts the bytes. *)
  jsonValid : string -> bool;
  (** [strings.TrimSpace]. *)
  TrimSpace : string -> string;
}.

(** ** Computations with I/O *)

Definition IO (A : Type) : Type := history -> A * history.

Definition ioret {A} (a : A) : IO A := fun h => (a, h).
Definition iobind {A B} (c : IO A) (k : A -> IO B) : IO B :=
  fun h => let '(a, h') := c h in k a h'.
Definition emit (e : io_event) : IO unit := fun h => (tt, h ++ [e]).

Notation "'io' x <~ c 'in' k" := (iobind c (fun x => k))
  (at level 10, x name, c at level 100, k at level 200).
Notation "'io_' c 'in' k" := (iobind c (fun _ => k))
  (at level 10, c at level 100, k at level 200).

Section Sender.
Context `{GoLib}.

Definition logWrite (e : LogEntry) : IO unit := emit (IoLog e).

(** [uuid.NewRandom()] and [client.Do(req)]: ask the oracle and record the
    exchange. *)
Definition drawUuid : IO (error + string) :=
  fun h => let r := uuidNewRandom h in (r, h ++ [IoUuid r]).
Definition doRequest (req : Request) : IO (error + Response) :=
  fun h => let r := clientDo h req in (r, h ++ [IoHttp req r]).

(** [io.ReadAll(io.LimitReader(resp.Body, n))]: the limited reader ends
    after [n] bytes without asking the body for more. *)
Definition readAllLimited (resp : Response) (n : Z) : error + string :=
  if bool_decide (n <= Z.of_nat (String.length (RespBody resp)))
  then inr (substring 0 (Z.to_nat n) (RespBody resp))
  else match RespBodyErr resp with
       | Some err => inl err
       | None => inr (RespBody resp)
       end.

(** The [bytes.Buffer] of [tryPostMessages] and, when compression is on,
    the [gzip.Writer] wrapped around it, with the bytes it was given. *)
Record bodyWriter : Type := {
  buffer : string;
  gzipWriter : option (Z * string);
}.

Definition newBodyWriter (l : splunkLogger) : error + bodyWriter :=
  if gzipCompression l then
    match gzipNewWriterLevel (gzipCompressionLevel l) with
    | Some err => inl err
    | None => inr {| buffer := ""; gzipWriter := Some (gzipCompressionLevel l, "") |}
    end
  else inr {| buffer := ""; gzipWriter := None |}.

(** [writer.Write(p)]. Neither a [bytes.Buffer] nor a [gzip.Writer] over
    one reports an error. *)
Definition writerWrite (w : bodyWriter) (p : string) : bodyWriter :=
  match gzipWriter w with
  | Some (lvl, written) => {| buffer := buffer w; gzipWriter := Some (lvl, written +:+ p) |}
  | None => {| buffer := buffer w +:+ p; gzipWriter := None |}
  end.

(** [gzipWriter.Close()]: the stream reaches the buffer. *)
Definition writerClose (w : bodyWriter) : bodyWriter :=
  match gzipWriter w with
  | Some (lvl, written) =>
      {| buffer := buffer w +:+ gzipEncode lvl written; gzipWriter := None |}
  | None => w
  end.

(** The loop [for _, message := range messages] of [tryPostMessages]. *)
Fixpoint writeMessages (w : bodyWriter) (messages : list splunkMessage)
  : error + bodyWriter :=
  match messages with
  | [] => inr w
  | message :: rest =>
      match jsonMarshal message with
      | inl err => inl err
      | inr jsonEvent => writeMessages (writerWrite w jsonEvent) rest
      end
  end.

Definition headerSet (k v : string) (req : Request) : Request :=
  {| Method := Method req; URL := URL req;
     Header := filter (fun kv => kv.1 <> k) (Header req) ++ [(k, v)];
     Body := Body req |}.

Definition sendError (resp : Response) (body : string) : error :=
  driverName +:+ ": failed to send event - " +:+ Status resp +:+ " - " +:+ body.

Definition tryPostMessages (l : splunkLogger) (messages : list splunkMessage)
  : IO (option error) :=
  if bool_decide (len messages = 0) then ioret None else
  match newBodyWriter l with
  | inl err => ioret (Some err)
  | inr writer =>
  match writeMessages writer messages with
  | inl err => ioret (Some err)
  | inr writer =>
  let writer := if gzipCompression l then writerClose writer else writer in
  match httpNewRequestErr "POST" (url l) with
  | Some err => ioret (Some err)
  | None =>
  let req := {| Method := "POST"; URL := url l; Header := []; Body := buffer writer |} in
  let req := headerSet "Authorization" (auth l) req in
  let req := if gzipCompression l then headerSet "Content-Encoding" "gzip" req else req in
  io req <~ (if indexAck l then
            io requestChannel <~ drawUuid in
            match requestChannel with
            | inl err => ioret (inl err)
            | inr ch => ioret (inr (headerSet "X-Splunk-Request-Channel" ch req))
            end
          else ioret (inr req)) in
  match req with
  | inl err => ioret (Some err)
  | inr req =>
  io resp <~ doRequest req in
  match resp with
  | inl err => ioret (Some err)
  | inr resp =>
      if bool_decide (StatusCode resp <> StatusOK) then
        match readAllLimited resp maxResponseSize with
        | inl err => ioret (Some err)
        | inr body => ioret (Some (sendError resp body))
        end
      else ioret None
  end end end end end.

(** ** The flush of the worker: [postMessages] *)

Definition sendWarning (err : error) : LogEntry :=
  {| entryLevel := WarnLevel; entryError := Some err;
     entryFields := [("module", "logger/splunk")];
     entryMessage := "Error while sending logs" |}.

(** The entry written for one message that is given up. *)
Definition failedEntry (message : splunkMessage) : LogEntry :=
  match jsonMarshal message with
  | inl err =>
      {| entryLevel := ErrorLevel; entryError := Some err; entryFields := [];
         entryMessage := "Failed to send a message and failed to encode to JSON" |}
  | inr jsonEvent =>
      {| entryLevel := ErrorLevel; entryError := None;
         entryFields := [("message", jsonEvent)];
         entryMessage := "Failed to send a message" |}
  end.

(** [for j := i; j < upperBound; j++ { ... messages[j] ... }], with the
    number of rounds left as the structural argument. *)
Fixpoint logUnsent (rounds : nat) (messages : list splunkMessage) (j : Z)
  : IO (result unit) :=
  match rounds with
  | O => ioret (Done tt)
  | S rounds =>
      if bool_decide (0 <= j) then
        match messages !! Z.to_nat j with
        | Some message =>
            io_ logWrite (failedEntry message) in
            logUnsent rounds messages (int_add j 1)
        | None => ioret (Panic "index out of range")
        end
      else ioret (Panic "index out of range")
  end.

(** The upper bound of the chunk that starts at [i]:
    [upperBound := i + l.postMessagesBatchSize], cut at [messagesLen]. *)
Definition upperBoundAt (l : splunkLogger) (messages : list splunkMessage) (i : Z) : Z :=
  let upperBound := int_add i (postMessagesBatchSize l) in
  if bool_decide (upperBound > len messages) then len messages else upperBound.

(** The loop [for i := 0; i < messagesLen; i += l.postMessagesBatchSize]
    from the round that starts at [i]. [fuel] bounds the number of rounds;
    [Diverge] is the answer when it runs out. *)
Fixpoint postMessagesFrom (fuel : nat) (l : splunkLogger)
    (messages : list splunkMessage) (lastChance : bool) (i : Z)
  : IO (result (list splunkMessage)) :=
  match fuel with
  | O => ioret Diverge
  | S fuel =>
      let messagesLen := len messages in
      if bool_decide (i < messagesLen) then
        let upperBound := upperBoundAt l messages i in
        match slice messages i upperBound with
        | Done chunk =>
            io err <~ tryPostMessages l chunk in
            match err with
            | Some err =>
                io_ logWrite (sendWarning err) in
                if bool_decide (int_sub messagesLen i >= bufferMaximum l) || lastChance then
                  let upperBound := if lastChance then messagesLen else upperBound in
                  io logged <~ logUnsent (Z.to_nat (upperBound - i)) messages i in
                  match logged with
                  | Done _ => ioret (slice messages upperBound messagesLen)
                  | Panic why => ioret (Panic why)
                  | Diverge => ioret Diverge
                  end
                else ioret (slice messages i messagesLen)
            | None =>
                postMessagesFrom fuel l messages lastChance
                  (int_add i (postMessagesBatchSize l))
            end
        | Panic why => ioret (Panic why)
        | Diverge => ioret Diverge
        end
      else ioret (slice messages 0 0)
  end.

(** With a positive batch size the loop makes at most [len messages]
    rounds, so this much fuel never runs out (see [postMessages_total]);
    with a batch size of zero no amount is enough (see
    [postMessages_zero_batch]). *)
Definition postMessages (l : splunkLogger) (messages : list splunkMessage)
    (lastChance : bool) : IO (result (list splunkMessage)) :=
  postMessagesFrom (S (length messages)) l messages lastChance 0.

(** The entries of the daemon log for the records from [i] up to [upper]. *)
Definition unsentEntries (messages : list splunkMessage) (i upper : Z) : history :=
  (fun m => IoLog (failedEntry m)) <$>
    take (Z.to_nat (upper - i)) (drop (Z.to_nat i) messages).

(** Where a round of the loop of [postMessages] can start: at zero, or at
    least one batch further. *)
Definition roundStart (l : splunkLogger) (i : Z) : Prop :=
  i = 0 \/ (0 < postMessagesBatchSize l /\ postMessagesBatchSize l <= i).

(** The rounds of one call of [postMessages] that started in history
    [h0]: round [i] is reached in history [h] when every chunk before it
    was sent and accepted. *)
Inductive reachesRound (l : splunkLogger) (messages : list splunkMessage)
    (h0 : history) : Z -> history -> Prop :=
| reaches_first : reachesRound l messages h0 0 h0
| reaches_next i h chunk h' :
    reachesRound l messages h0 i h ->
    i < len messages ->
    slice messages i (upperBoundAt l messages i) = Done chunk ->
    tryPostMessages l chunk h = (None, h') ->
    reachesRound l messages h0 (int_add i (postMessagesBatchSize l)) h'.

(** The send of the chunk that starts at [i] fails with [err], leaving
    the history [h1]. *)
Definition failsAt (l : splunkLogger) (messages : list splunkMessage)
    (h0 : history) (i : Z) (err : error) (h1 : history) : Prop :=
  exists h chunk,
    reachesRound l messages h0 i h /\
    i < len messages /\
    slice messages i (upperBoundAt l messages i) = Done chunk /\
    tryPostMessages l chunk h = (Some err, h1).

End Sender.

(** ** What the I/O history says about delivery

    Read off the history alone: the bodies of the requests the remote
    answered with 200, and the error-level entries of the daemon log. *)

Definition okBody (e : io_event) : option string :=
  match e with
  | IoHttp req (inr resp) =>
      if bool_decide (StatusCode resp = StatusOK) then Some (Body req) else None
  | _ => None
  end.

Definition okBodies (h : history) : list string := omap okBody h.

Definition errorEntry (e : io_event) : option LogEntry :=
  match e with
  | IoLog entry =>
      if bool_decide (entryLevel entry = ErrorLevel) then Some entry else None
  | _ => None
  end.

Definition errorEntries (h : history) : list LogEntry := omap errorEntry h.

Section WireFormat.
Context `{GoLib}.

(** The body the wire protocol prescribes for a set of records: the
    concatenation of the JSON objects, one per record, compressed as a
    whole when compression is on. *)
Fixpoint payload (messages : list splunkMessage) : string :=
  match messages with
  | [] => ""
  | message :: rest =>
      match jsonMarshal message with
      | inr jsonEvent => jsonEvent +:+ payload rest
      | inl _ => payload rest
      end
  end.

Definition requestBody (l : splunkLogger) (messages : list splunkMessage) : string :=
  if gzipCompression l
  then gzipEncode (gzipCompressionLevel l) (payload messages)
  else payload messages.

(** A record is delivered when it belongs to a set of records whose
    request the remote answered with 200, and logged when the entry of
    [postMessages] for it is in the daemon log. *)
Definition deliveredIn (l : splunkLogger) (h : history) (message : splunkMessage) : Prop :=
  exists chunk, message ∈ chunk /\ requestBody l chunk ∈ okBodies h.

Definition loggedIn (h : history) (message : splunkMessage) : Prop :=
  failedEntry message ∈ errorEntries h.

(** The records [accepted] are accounted for by the history [h] and the
    records [waiting]: the accepted requests of [h] are the bodies of some
    sets of records, its error entries those of some records, and these
    with the records that wait are the accepted records, each one as many
    times as it was accepted. *)
Definition accountedFor (l : splunkLogger) (h : history)
    (accepted waiting : list splunkMessage) : Prop :=
  exists (sent : list (list splunkMessage)) (dropped : list splunkMessage),
    okBodies h = requestBody l <$> sent /\
    errorEntries h = failedEntry <$> dropped /\
    accepted ≡ₚ concat sent ++ dropped ++ waiting.

End WireFormat.

(** The error [tryPostMessages] returns for a response. *)
Definition responseError `{GoLib} (resp : Response) : option error :=
  if bool_decide (StatusCode resp <> StatusOK) then
    match readAllLimited resp maxResponseSize with
    | inl err => Some err
    | inr body => Some (sendError resp body)
    end
  else None.

(** The events one call of [tryPostMessages] can add to the history:
    nothing or a failed draw of the request channel when no request is
    made, else the request, after the draw of its channel if there is one. *)
Inductive attempt `{GoLib} (l : splunkLogger) (messages : list splunkMessage)
  : option error -> history -> Prop :=
| attempt_abandoned err d :
    d = [] \/ d = [IoUuid (inl err)] ->
    attempt l messages (Some err) d
| attempt_transport req err draw :
    Body req = requestBody l messages ->
    draw = [] \/ (exists ch, draw = [IoUuid (inr ch)]) ->
    attempt l messages (Some err) (draw ++ [IoHttp req (inl err)])
| attempt_answered req resp draw :
    Body req = requestBody l messages ->
    draw = [] \/ (exists ch, draw = [IoUuid (inr ch)]) ->
    attempt l messages (responseError resp) (draw ++ [IoHttp req (inr resp)]).

(** ** Fixtures

    A stand-in for the library and the remote, and a few loggers and
    records, for the concrete runs below. The marshalled form of a record
    is its time between braces; the compressor prefixes its input. *)

Definition record (t : string) : splunkMessage :=
  {| Event := EventString t; Time := t; Host := "host";
     Source := ""; SourceType := ""; Index := "" |}.

Definition answer200 : Response :=
  {| StatusCode := 200; Status := "200 OK"; RespBody := "ok"; RespBodyErr := None |}.

Definition answer503 : Response :=
  {| StatusCode := 503; Status := "503 Service Unavailable";
     RespBody := "busy"; RespBodyErr := None |}.

(** A response whose body breaks off before its end. *)
Definition answer500_broken : Response :=
  {| StatusCode := 500; Status := "500 Internal Server Error";
     RespBody := "part"; RespBodyErr := Some "unexpected EOF" |}.

(** Trimming of the white space of ASCII, which is what
    [strings.TrimSpace] does on a line of ASCII. *)
Fixpoint trimLeft (s : string) : string :=
  match s with
  | String c rest => if Ascii.is_space c then trimLeft rest else s
  | EmptyString => EmptyString
  end.

Definition trimAscii (s : string) : string :=
  String.rev (trimLeft (String.rev (trimLeft s))).

Definition fixtureLib (remote : history -> Request -> error + Response) : GoLib :=
  {| jsonMarshal m := inr ("{" +:+ Time m +:+ "}");
     gzipNewWriterLevel lvl :=
       if bool_decide (-2 <= lvl <= 9) then None
       else Some "gzip: invalid compression level";
     gzipEncode lvl s := "gz" +:+ s;
     httpNewRequestErr _ _ := None;
     uuidNewRandom _ := inr "00000000-0000-4000-8000-000000000000";
     clientDo := remote;
     formatSeconds nanos := "0.000000";
     jsonValid _ := false;
     TrimSpace := trimAscii |}.

Definition accepting : GoLib := fixtureLib (fun _ _ => inr answer200).
Definition refusing : GoLib := fixtureLib (fun _ _ => inr answer503).
Definition breaking : GoLib := fixtureLib (fun _ _ => inr answer500_broken).

(** The inverse of the fixture's compressor. *)
Definition fixtureGunzip (s : string) : option string :=
  match s with
  | String "g" (String "z" rest) => Some rest
  | _ => None
  end.

Definition fixtureLogger (batchSize bufferMax : Z) (gzip : bool) : splunkLogger :=
  {| url := "https://splunk.example:8088/services/collector/event/1.0";
     auth := "Splunk token";
     nullMessage := record "";
     gzipCompression := gzip;
     gzipCompressionLevel := -1;
     postMessagesFrequency := 5000000000;
     postMessagesBatchSize := batchSize;
     bufferMaximum := bufferMax;
     indexAck := false |}.

Definition fourRecords : list splunkMessage :=
  [record "1"; record "2"; record "3"; record "4"].

(** ** The overflow rule as the specification words it

    On a failure at [i] with [lastChance] or at least [bufferMaximum]
    records left, the records from [i] to the end ([lastChance]) or up to
    [bufferMaximum] of them (otherwise) are logged, one entry each, and
    what follows them is returned. *)
Definition specifiedUpper (l : splunkLogger) (messages : list splunkMessage)
    (lastChance : bool) (i : Z) : Z :=
  if lastChance then len messages
  else Z.min (i + bufferMaximum l) (len messages).

Definition overflowAsSpecified (lib : GoLib) (l : splunkLogger)
    (messages : list splunkMessage) (lastChance : bool) (h0 : history) (i : Z) : Prop :=
  forall err h1,
    messages <> [] ->
    failsAt l messages h0 i err h1 ->
    lastChance = true \/ len messages - i >= bufferMaximum l ->
    exists d,
      postMessages l messages lastChance h0 =
        (Done (drop (Z.to_nat (specifiedUpper l messages lastChance i)) messages), h0 ++ d) /\
      errorEntries d =
        failedEntry <$> take (Z.to_nat (specifiedUpper l messages lastChance i - i))
                             (drop (Z.to_nat i) messages).

(** The first attempt of the refusing remote on a batch of two: the
    error it gives and the history it leaves. *)
Definition refusedTwo : option error * history :=
  Eval vm_compute in
    tryPostMessages (H := refusing) (fixtureLogger 2 4 false)
                    [record "1"; record "2"] [].

Definition refusedError : error :=
  "splunk: failed to send event - 503 Service Unavailable - busy".

(** ** One delivery as the specification words it *)

(** The requests in a piece of history, and the piece a computation adds. *)
Definition requestOf (e : io_event) : option Request :=
  match e with IoHttp req _ => Some req | _ => None end.

Definition requestsOf (h : history) : list Request := omap requestOf h.

Definition issued {A} (c : IO A) (h : history) : history :=
  drop (length h) (c h).2.

(** The first [maxResponseSize] bytes of the body of a response, and the
    error of reading that many, if the body breaks off before. *)
Definition truncatedBody (resp : Response) : string :=
  substring 0 (Z.to_nat maxResponseSize) (RespBody resp).

Definition bodyReadError (resp : Response) : option error :=
  if bool_decide (maxResponseSize <= Z.of_nat (String.length (RespBody resp)))
  then None else RespBodyErr resp.

(** "Success exactly on status 200; on any other status an error that
    captures the response body, truncated to 1024 bytes; success without a
    request on no records." *)
Definition sendAsSpecified (lib : GoLib) (l : splunkLogger)
    (messages : list splunkMessage) (h : history) : Prop :=
  (messages = [] -> tryPostMessages l messages h = (None, h)) /\
  (messages <> [] ->
   forall req resp,
     IoHttp req (inr resp) ∈ issued (tryPostMessages l messages) h ->
     ((tryPostMessages l messages h).1 = None <-> StatusCode resp = StatusOK) /\
     (StatusCode resp <> StatusOK ->
      (tryPostMessages l messages h).1 = Some (sendError resp (truncatedBody resp)))).

(** The same logger with compression switched off. *)
Definition withoutGzip (l : splunkLogger) : splunkLogger :=
  {| url := url l; auth := auth l; nullMessage := nullMessage l;
     gzipCompression := false;
     gzipCompressionLevel := gzipCompressionLevel l;
     postMessagesFrequency := postMessagesFrequency l;
     postMessagesBatchSize := postMessagesBatchSize l;
     bufferMaximum := bufferMaximum l;
     indexAck := indexAck l |}.

(** ** The three formatters: [Log] *)

(** The fields of [logger.Message] the driver reads. *)
Record Message : Type := {
  MsgLine : string;
  MsgSource : string;
  MsgTimestamp : Z;   (* [Timestamp.UnixNano()] *)
}.

(** The three wrappers of [splunkLoggerInterface]. *)
Inductive loggerWrapper : Type :=
| splunkLoggerInline (l : splunkLogger) (nullEvent : splunkMessageEvent)
| splunkLoggerJSON (l : splunkLogger) (nullEvent : splunkMessageEvent)
| splunkLoggerRaw (l : splunkLogger) (prefix : string).

Definition baseLogger (w : loggerWrapper) : splunkLogger :=
  match w with
  | splunkLoggerInline l _ | splunkLoggerJSON l _ | splunkLoggerRaw l _ => l
  end.

(** How a call of [Log] ends: with [return nil] before any message is
    built, or in the call [l.queueMessageAsync(message)]. *)
Inductive logOutcome : Type :=
| ReturnNil
| QueueMessageAsync (message : splunkMessage).

Section Formatters.
Context `{GoLib}.

Definition createSplunkMessage (l : splunkLogger) (msg : Message) : splunkMessage :=
  {| Event := Event (nullMessage l);
     Time := formatSeconds (MsgTimestamp msg);
     Host := Host (nullMessage l);
     Source := Source (nullMessage l);
     SourceType := SourceType (nullMessage l);
     Index := Index (nullMessage l) |}.

Definition withEvent (message : splunkMessage) (event : eventPayload) : splunkMessage :=
  {| Event := event; Time := Time message; Host := Host message;
     Source := Source message; SourceType := SourceType message;
     Index := Index message |}.

Definition eventOf (nullEvent : splunkMessageEvent) (line : eventLine) (source : string)
  : splunkMessageEvent :=
  {| Line := line; EventSource := source;
     Tag := Tag nullEvent; Attrs := Attrs nullEvent |}.

Definition Log_Inline (l : splunkLogger) (nullEvent : splunkMessageEvent)
    (msg : Message) : logOutcome :=
  let message := createSplunkMessage l msg in
  let event := eventOf nullEvent (LineString (MsgLine msg)) (MsgSource msg) in
  QueueMessageAsync (withEvent message (EventStruct event)).

Definition Log_JSON (l : splunkLogger) (nullEvent : splunkMessageEvent)
    (msg : Message) : logOutcome :=
  let message := createSplunkMessage l msg in
  let line := if jsonValid (MsgLine msg)
              then LineRawJSON (MsgLine msg) else LineString (MsgLine msg) in
  let event := eventOf nullEvent line (MsgSource msg) in
  QueueMessageAsync (withEvent message (EventStruct event)).

Definition Log_Raw (l : splunkLogger) (prefix : string) (msg : Message) : logOutcome :=
  (* empty or whitespace-only messages are not accepted by HEC *)
  if bool_decide (TrimSpace (MsgLine msg) = "") then ReturnNil
  else
    let message := createSplunkMessage l msg in
    QueueMessageAsync (withEvent message (EventString (prefix +:+ MsgLine msg))).

Definition Log (w : loggerWrapper) (msg : Message) : logOutcome :=
  match w with
  | splunkLoggerInline l nullEvent => Log_Inline l nullEvent msg
  | splunkLoggerJSON l nullEvent => Log_JSON l nullEvent msg
  | splunkLoggerRaw l prefix => Log_Raw l prefix msg
  end.

(** ** The body of the worker loop *)

(** [append(messages, message)]. A slice that would not fit in memory is
    not made: the runtime panics. *)
Definition append (messages : list splunkMessage) (message : splunkMessage)
  : result (list splunkMessage) :=
  if bool_decide (fitsInMemory (messages ++ [message]))
  then Done (messages ++ [message])
  else Panic "growslice: len out of range".

(** [len(messages)%l.postMessagesBatchSize == 0]. The remainder of Go
    truncates towards zero, and a zero divisor panics. *)
Definition batchReached (l : splunkLogger) (messages : list splunkMessage) : result bool :=
  if bool_decide (postMessagesBatchSize l = 0)
  then Panic "integer divide by zero"
  else Done (bool_decide (Z.rem (len messages) (postMessagesBatchSize l) = 0)).

(** The case [message, open := <-l.stream] with [open] true. *)
Definition workerReceive (l : splunkLogger) (messages : list splunkMessage)
    (message : splunkMessage) : IO (result (list splunkMessage)) :=
  match append messages message with
  | Done messages =>
      match batchReached l messages with
      | Done true => postMessages l messages false
      | Done false => ioret (Done messages)
      | Panic why => ioret (Panic why)
      | Diverge => ioret Diverge
      end
  | Panic why => ioret (Panic why)
  | Diverge => ioret Diverge
  end.

(** The case [<-timer.C]. *)
Definition workerTick (l : splunkLogger) (messages : list splunkMessage)
  : IO (result (list splunkMessage)) :=
  postMessages l messages false.

(** The flush of the case [!open]. *)
Definition workerLastChance (l : splunkLogger) (messages : list splunkMessage)
  : IO (result (list splunkMessage)) :=
  postMessages l messages true.

End Formatters.

(** ** The pipeline: producers, the worker and [Close]

    The goroutines of one logger, interleaved one step at a time. The
    shared variables are the channel [l.stream], [l.closedCond] and
    [l.closed]; the state of [l.lock] is who holds it, read off the program
    points of the goroutines. *)

(** Program points of [queueMessageAsync]. *)
Inductive enqPc : Type :=
| EnqStart                       (* before [l.lock.RLock()] *)
| EnqLocked                      (* read lock held, before the test of [closedCond] *)
| EnqRefused                     (* read lock held, at [return fmt.Errorf(...)] *)
| EnqSend                        (* read lock held, at [l.stream <- message] *)
| EnqSent                        (* read lock held, at [return nil] *)
| EnqReturned (r : option error).

(** Program points of [Close]. [began] tells which way the [if]
    was left: through its body ([true]) or past it ([false]). *)
Inductive closePc : Type :=
| CloseStart                     (* before [l.lock.Lock()] *)
| CloseLocked                    (* lock held, before the test of [closedCond] *)
| CloseClosing                   (* lock held, [closedCond] set, before [close(l.stream)] *)
| CloseWait                      (* lock held, at the test [!l.closed] *)
| CloseParked                    (* inside [Wait]: lock released, not yet signalled *)
| CloseWoken                     (* inside [Wait]: signalled, taking the lock again *)
| CloseReturning (began : bool)  (* lock held, at [return nil] *)
| CloseReturned (began : bool).

Inductive thread : Type :=
| InLog (msg : Message)                       (* [Log] entered *)
| LogReturnedNil (msg : Message)              (* [Log] returned before queueing *)
| InQueue (message : splunkMessage) (pc : enqPc)
| InClose (pc : closePc).

(** Program points of [worker]. *)
Inductive workerPc : Type :=
| WorkerStart                                  (* before [time.NewTicker] *)
| WorkerSelect (messages : list splunkMessage) (* at the [select] *)
| WorkerFlushed                                (* last flush done, before [l.lock.Lock()] *)
| WorkerLocked                                 (* lock held *)
| WorkerExited
| WorkerStuck.                                 (* in a flush that never ends *)

Record pipeline : Type := {
  stream : list splunkMessage;   (* the records in the channel, oldest first *)
  streamClosed : bool;
  closedCond : bool;             (* [l.closedCond != nil] *)
  closed : bool;
  worker : workerPc;
  threads : list thread;
  world : history;
  crashed : option string;       (* the panic that ended the process *)
}.

Definition initial : pipeline :=
  {| stream := []; streamClosed := false; closedCond := false; closed := false;
     worker := WorkerStart; threads := []; world := []; crashed := None |}.

Definition setThreads (ts : list thread) (s : pipeline) : pipeline :=
  {| stream := stream s; streamClosed := streamClosed s; closedCond := closedCond s;
     closed := closed s; worker := worker s; threads := ts;
     world := world s; crashed := crashed s |}.

Definition setThread (i : nat) (t : thread) (s : pipeline) : pipeline :=
  setThreads (<[i := t]> (threads s)) s.

Definition setStream (q : list splunkMessage) (s : pipeline) : pipeline :=
  {| stream := q; streamClosed := streamClosed s; closedCond := closedCond s;
     closed := closed s; worker := worker s; threads := threads s;
     world := world s; crashed := crashed s |}.

Definition setStreamClosed (s : pipeline) : pipeline :=
  {| stream := stream s; streamClosed := true; closedCond := closedCond s;
     closed := closed s; worker := worker s; threads := threads s;
     world := world s; crashed := crashed s |}.

Definition setClosedCond (s : pipeline) : pipeline :=
  {| stream := stream s; streamClosed := streamClosed s; closedCond := true;
     closed := closed s; worker := worker s; threads := threads s;
     world := world s; crashed := crashed s |}.

Definition setClosed (s : pipeline) : pipeline :=
  {| stream := stream s; streamClosed := streamClosed s; closedCond := closedCond s;
     closed := true; worker := worker s; threads := threads s;
     world := world s; crashed := crashed s |}.

Definition setWorker (w : workerPc) (h : history) (s : pipeline) : pipeline :=
  {| stream := stream s; streamClosed := streamClosed s; closedCond := closedCond s;
     closed := closed s; worker := w; threads := threads s;
     world := h; crashed := crashed s |}.

Definition crash (why : string) (h : history) (s : pipeline) : pipeline :=
  {| stream := stream s; streamClosed := streamClosed s; closedCond := closedCond s;
     closed := closed s; worker := worker s; threads := threads s;
     world := h; crashed := Some why |}.

(** Who holds [l.lock]. *)
Definition holdsRead (t : thread) : bool :=
  match t with
  | InQueue _ (EnqLocked | EnqRefused | EnqSend | EnqSent) => true
  | _ => false
  end.

Definition holdsWrite (t : thread) : bool :=
  match t with
  | InClose (CloseLocked | CloseClosing | CloseWait | CloseReturning _) => true
  | _ => false
  end.

Definition workerHoldsLock (w : workerPc) : bool :=
  match w with WorkerLocked => true | _ => false end.

Definition readLocked (s : pipeline) : bool := existsb holdsRead (threads s).
Definition writeLocked (s : pipeline) : bool :=
  existsb holdsWrite (threads s) || workerHoldsLock (worker s).

(** [RLock] goes through when no writer holds the lock, [Lock] when no
    one does. *)
Definition canRLock (s : pipeline) : bool := negb (writeLocked s).
Definition canLock (s : pipeline) : bool := negb (writeLocked s) && negb (readLocked s).

Definition parked (t : thread) : bool :=
  match t with InClose CloseParked => true | _ => false end.

Definition closedError : error := driverName +:+ ": driver is closed".

(** What the environment and the scheduler decide: a new call of [Log]
    or [Close], which goroutine moves next, whether the worker takes the
    timer case of its [select], and which waiter a [Signal] wakes. *)
Inductive action : Type :=
| CallLog (msg : Message)
| CallClose
| StepThread (i : nat)
| StepWorker (wake : nat)
| Tick.

Section Pipeline.
Context `{GoLib}.
Variable lw : loggerWrapper.
Variable capacity : nat.   (* the capacity of [l.stream] *)

Definition atSelect (w : workerPc) : bool :=
  match w with WorkerSelect _ => true | _ => false end.

(** A send goes through when the channel has room; on a channel without
    buffer, when the worker waits at its [select]. *)
Definition canSend (s : pipeline) : bool :=
  bool_decide (length (stream s) < capacity)%nat ||
  (bool_decide (capacity = 0%nat) && atSelect (worker s) &&
   match stream s with [] => true | _ => false end).

Definition stepQueue (i : nat) (message : splunkMessage) (pc : enqPc) (s : pipeline)
  : option pipeline :=
  match pc with
  | EnqStart =>
      if canRLock s then Some (setThread i (InQueue message EnqLocked) s) else None
  | EnqLocked =>
      if closedCond s then Some (setThread i (InQueue message EnqRefused) s)
      else Some (setThread i (InQueue message EnqSend) s)
  | EnqRefused =>
      Some (setThread i (InQueue message (EnqReturned (Some closedError))) s)
  | EnqSend =>
      if streamClosed s then Some (crash "send on closed channel" (world s) s)
      else if canSend s
      then Some (setThread i (InQueue message EnqSent) (setStream (stream s ++ [message]) s))
      else None
  | EnqSent => Some (setThread i (InQueue message (EnqReturned None)) s)
  | EnqReturned _ => None
  end.

Definition stepClose (i : nat) (pc : closePc) (s : pipeline) : option pipeline :=
  match pc with
  | CloseStart =>
      if canLock s then Some (setThread i (InClose CloseLocked) s) else None
  | CloseLocked =>
      if closedCond s then Some (setThread i (InClose (CloseReturning false)) s)
      else Some (setThread i (InClose CloseClosing) (setClosedCond s))
  | CloseClosing =>
      if streamClosed s then Some (crash "close of closed channel" (world s) s)
      else Some (setThread i (InClose CloseWait) (setStreamClosed s))
  | CloseWait =>
      if closed s then Some (setThread i (InClose (CloseReturning true)) s)
      else Some (setThread i (InClose CloseParked) s)
  | CloseParked => None
  | CloseWoken =>
      if canLock s then Some (setThread i (InClose CloseWait) s) else None
  | CloseReturning began => Some (setThread i (InClose (CloseReturned began)) s)
  | CloseReturned _ => None
  end.

Definition stepThread (i : nat) (s : pipeline) : option pipeline :=
  match threads s !! i with
  | Some (InLog msg) =>
      match Log lw msg with
      | ReturnNil => Some (setThread i (LogReturnedNil msg) s)
      | QueueMessageAsync message => Some (setThread i (InQueue message EnqStart) s)
      end
  | Some (InQueue message pc) => stepQueue i message pc s
  | Some (InClose pc) => stepClose i pc s
  | Some (LogReturnedNil _) | None => None
  end.

(** [l.closedCond.Signal()]: one parked goroutine wakes, if there is one. *)
Definition signal (wake : nat) (s : pipeline) : option pipeline :=
  match threads s !! wake with
  | Some (InClose CloseParked) => Some (setThread wake (InClose CloseWoken) s)
  | _ => if existsb parked (threads s) then None else Some s
  end.

Definition afterFlush (next : list splunkMessage -> workerPc)
    (r : result (list splunkMessage) * history) (s : pipeline) : pipeline :=
  match r with
  | (Done rest, h) => setWorker (next rest) h s
  | (Panic why, h) => crash why h s
  | (Diverge, h) => setWorker WorkerStuck h s
  end.

Definition stepWorker (wake : nat) (s : pipeline) : option pipeline :=
  let l := baseLogger lw in
  match worker s with
  | WorkerStart =>
      if bool_decide (postMessagesFrequency l <= 0)
      then Some (crash "non-positive interval for NewTicker" (world s) s)
      else Some (setWorker (WorkerSelect []) (world s) s)
  | WorkerSelect messages =>
      match stream s with
      | message :: q =>
          Some (afterFlush WorkerSelect
                  (workerReceive l messages message (world s)) (setStream q s))
      | [] =>
          if streamClosed s
          then Some (afterFlush (fun _ => WorkerFlushed)
                       (workerLastChance l messages (world s)) s)
          else None
      end
  | WorkerFlushed =>
      if canLock s then Some (setWorker WorkerLocked (world s) s) else None
  | WorkerLocked =>
      let h := world s ++ [IoCloseIdleConnections] in
      if closedCond s
      then setWorker WorkerExited h <$> signal wake (setClosed s)
      else Some (crash "invalid memory address or nil pointer dereference" h s)
  | WorkerExited | WorkerStuck => None
  end.

Definition stepTick (s : pipeline) : option pipeline :=
  match worker s with
  | WorkerSelect messages =>
      Some (afterFlush WorkerSelect
              (workerTick (baseLogger lw) messages (world s)) s)
  | _ => None
  end.

(** One step of the pipeline; [None] when the goroutine cannot move, or
    when the process is dead. *)
Definition step (a : action) (s : pipeline) : option pipeline :=
  match crashed s with
  | Some _ => None
  | None =>
      match a with
      | CallLog msg => Some (setThreads (threads s ++ [InLog msg]) s)
      | CallClose => Some (setThreads (threads s ++ [InClose CloseStart]) s)
      | StepThread i => stepThread i s
      | StepWorker wake => stepWorker wake s
      | Tick => stepTick s
      end
  end.

Fixpoint run (acts : list action) (s : pipeline) : option pipeline :=
  match acts with
  | [] => Some s
  | a :: acts =>
      match step a s with
      | Some s' => run acts s'
      | None => None
      end
  end.

Definition reachable (s : pipeline) : Prop :=
  exists acts, run acts initial = Some s.

(** The records that went into the channel: those of the calls that are
    past their send. *)
Definition acceptedBy (t : thread) : option splunkMessage :=
  match t with
  | InQueue message (EnqSent | EnqReturned None) => Some message
  | _ => None
  end.

Definition accepted (s : pipeline) : list splunkMessage := omap acceptedBy (threads s).

(** The records that are in the pipeline, oldest first: in the buffer of
    the worker or in the channel. *)
Definition buffered (w : workerPc) : list splunkMessage :=
  match w with WorkerSelect messages => messages | _ => [] end.

Definition pending (s : pipeline) : list splunkMessage := buffered (worker s) ++ stream s.

End Pipeline.

(** ** The invariant of the pipeline *)

(** The lock excludes: no goroutine reads while another writes. *)
Definition lockOk (ts : list thread) : Prop :=
  existsb holdsWrite ts = true -> existsb holdsRead ts = false.

(** What its program point tells a goroutine about [l.closedCond != nil]
    and [l.closed]. *)
Definition threadOk (cond closed : bool) (t : thread) : Prop :=
  match t with
  | InQueue _ EnqSend | InQueue _ EnqSent => cond = false
  | InQueue _ EnqRefused => cond = true
  | InQueue _ (EnqReturned (Some err)) => err = closedError /\ cond = true
  | InClose (CloseClosing | CloseWait | CloseParked | CloseWoken) => cond = true
  | InClose (CloseReturning true | CloseReturned true) => cond = true /\ closed = true
  | _ => True
  end.

(** The worker is past its last flush. *)
Definition workerDone (w : workerPc) : bool :=
  match w with
  | WorkerFlushed | WorkerLocked | WorkerExited => true
  | _ => false
  end.

Section Invariant.
Context `{GoLib}.
Variable lw : loggerWrapper.

Record invariant (s : pipeline) : Prop := {
  inv_lock : lockOk (threads s);
  inv_threads : Forall (threadOk (closedCond s) (closed s)) (threads s);
  inv_stream : streamClosed s = true -> closedCond s = true;
  inv_worker : workerDone (worker s) = true -> streamClosed s = true /\ stream s = [];
  inv_closed : closed s = true -> worker s = WorkerExited;
  inv_fits : fitsInMemory (buffered (worker s));
  inv_accounted :
    worker s <> WorkerStuck ->
    accountedFor (baseLogger lw) (world s) (accepted s) (pending s);
}.

End Invariant.

(** ** The shutdown and the producers as the specification words them *)

(** "[close()] returns only after the last flush: when it has returned,
    nothing is pending." Said of every call of [Close]. *)
Definition closeAsSpecified (lib : GoLib) (lw : loggerWrapper) (capacity : nat) : Prop :=
  forall acts s i began,
    run lw capacity acts initial = Some s ->
    crashed s = None ->
    threads s !! i = Some (InClose (CloseReturned began)) ->
    worker s = WorkerExited /\ pending s = [].

(** A call of [queueMessageAsync] that found [closedCond] unset when it
    tested it, or has the read lock and will find it so. *)
Definition pastTest (cond : bool) (t : thread) : Prop :=
  match t with
  | InQueue _ EnqLocked => cond = false
  | InQueue _ (EnqSend | EnqSent | EnqReturned None) => True
  | _ => False
  end.

(** ** Fixtures of the pipeline *)

Definition helloLine : Message :=
  {| MsgLine := "hello"; MsgSource := "stdout"; MsgTimestamp := 0 |}.

Definition blankLine : Message :=
  {| MsgLine := "  "; MsgSource := "stdout"; MsgTimestamp := 0 |}.

Definition rawLogger : loggerWrapper :=
  splunkLoggerRaw (fixtureLogger 2 4 false) "tag ".

(** One record is queued and received; [Close] is called, parks, is
    woken by the worker after its last flush, and returns. *)
Definition orderlyShutdown : list action :=
  [CallLog helloLine; StepThread 0; StepThread 0; StepThread 0; StepWorker 0;
   StepThread 0; StepThread 0;
   CallClose; StepThread 1; StepThread 1; StepThread 1; StepThread 1;
   StepWorker 0; StepWorker 0; StepWorker 0; StepWorker 1;
   StepThread 1; StepThread 1; StepThread 1]%nat.

(** One record is queued; a first [Close] begins the shutdown and parks;
    a second [Close] finds [closedCond] set and returns at once, while the
    record is still in the channel. *)
Definition secondCloseReturns : list action :=
  [CallLog helloLine; StepThread 0; StepThread 0; StepThread 0; StepWorker 0;
   StepThread 0; StepThread 0;
   CallClose; CallClose; StepThread 1; StepThread 1; StepThread 1; StepThread 1;
   StepThread 2; StepThread 2; StepThread 2]%nat.

(** A call of [Log] has the read lock when [Close] is called: it goes
    on to its send. Another arrives after the shutdown began. *)
Definition lateProducer : list action :=
  [StepWorker 0; CallClose; StepThread 0; StepThread 0; StepThread 0; StepThread 0;
   CallLog helloLine; StepThread 1; StepThread 1]%nat.

(** A call of [queueMessageAsync] on its way to the error: before its
    test of [closedCond], refused by it, or returned with the error. *)
Definition refusedPath (t : thread) : Prop :=
  match t with
  | InQueue _ (EnqStart | EnqLocked | EnqRefused) => True
  | InQueue _ (EnqReturned (Some err)) => err = closedError
  | _ => False
  end.

(** The record the raw logger makes of [helloLine]. *)
Definition helloRecord : splunkMessage :=
  {| Event := EventString "tag hello"; Time := "0.000000"; Host := "host";
     Source := ""; SourceType := ""; Index := "" |}.

(** ** The worker loop on its own

    The rounds of the [for] loop of [worker] before the channel is
    closed, one for each wake-up: a record received or a tick. *)
Inductive workerEvent : Type :=
| Received (message : splunkMessage)
| Ticked.

Definition isReceived (e : workerEvent) : bool :=
  match e with Received _ => true | Ticked => false end.

(** How many records the worker has received. *)
Definition receivedCount (events : list workerEvent) : Z :=
  len (filter (fun e => isReceived e = true) events).

Section WorkerLoop.
Context `{GoLib}.

Fixpoint workerLoop (l : splunkLogger) (events : list workerEvent)
    (messages : list splunkMessage) : IO (result (list splunkMessage)) :=
  match events with
  | [] => ioret (Done messages)
  | e :: events =>
      io r <~ match e with
              | Received message => workerReceive l messages message
              | Ticked => workerTick l messages
              end in
      match r with
      | Done messages => workerLoop l events messages
      | Panic why => ioret (Panic why)
      | Diverge => ioret Diverge
      end
  end.

(** Whether the round that receives [message] with [messages] in the
    buffer calls [postMessages]. *)
Definition sendTriggered (l : splunkLogger) (messages : list splunkMessage)
    (message : splunkMessage) : bool :=
  match append messages message with
  | Done messages =>
      match batchReached l messages with
      | Done true => true
      | _ => false
      end
  | _ => false
  end.

End WorkerLoop.

(** "For every enqueued count that is an exact multiple of the batch size
    a send is triggered immediately", whatever came before. *)
Definition batchTriggerAsSpecified (lib : GoLib) (l : splunkLogger) : Prop :=
  forall events messages h message,
    workerLoop l events [] [] = (Done messages, h) ->
    (postMessagesBatchSize l | receivedCount events + 1) ->
    sendTriggered l messages message = true.

(** One record received, then a tick that delivers it: the history the
    accepting remote leaves. *)
Definition tickedHistory : history :=
  Eval vm_compute in
    (workerLoop (H := accepting) (fixtureLogger 2 4 false)
                [Received (record "1"); Ticked] [] []).2.

(** ** The construction of a logger: [New] *)

(** [logger.Info]: the driver reads its [Config]; the rest of it goes
    through the functions of [loggerutils] and [logger]. *)
Record Info : Type := {
  Config : gmap string string;
  ContainerID : string;
}.

(** The fields of [url.URL] that [parseURL] reads or writes. *)
Record urlURL : Type := {
  Scheme : string;
  UrlHost : string;
  Path : string;
  RawQuery : string;
  Fragment : string;
}.

Record tlsConfig : Type := {
  InsecureSkipVerify : bool;
  RootCAs : option string;      (* the PEM file that was loaded *)
  ServerName : string;
}.

(** What [New] hands over: the wrapper, and with it the TLS
    configuration of its transport and the capacity of its channel. *)
Record created : Type := {
  wrapper : loggerWrapper;
  transportTLS : tlsConfig;
  streamCapacity : Z;
}.

(** The library functions and the environment that [New] calls. *)
Class ConfigLib : Type := {
  infoHostname : Info -> error + string;          (* [info.Hostname()] *)
  urlParse : string -> error + urlURL;            (* [url.Parse] *)
  urlString : urlURL -> string;                   (* the method [String] of a URL *)
  ParseBool : string -> error + bool;             (* [strconv.ParseBool] *)
  ParseInt32 : string -> error + Z;               (* [strconv.ParseInt(s, 10, 32)] *)
  ReadFile : string -> error + string;            (* [os.ReadFile] *)
  ParseLogTag : Info -> error + string;           (* with [loggerutils.DefaultTemplate] *)
  ExtraAttributes : Info -> error + gmap string string;
  mapRange : gmap string string -> list (string * string);  (* the order of [range] *)
  Getenv : string -> string;                      (* [os.Getenv] *)
  ParseDuration : string -> error + Z;            (* [time.ParseDuration], nanoseconds *)
  sprintDuration : Z -> string;                   (* [%v] of a [time.Duration] *)
  sprintInt : Z -> string;                        (* [%d] *)
}.

Definition splunkURLKey : string := "splunk-url".
Definition splunkTokenKey : string := "splunk-token".
Definition splunkSourceKey : string := "splunk-source".
Definition splunkSourceTypeKey : string := "splunk-sourcetype".
Definition splunkIndexKey : string := "splunk-index".
Definition splunkCAPathKey : string := "splunk-capath".
Definition splunkCANameKey : string := "splunk-caname".
Definition splunkInsecureSkipVerifyKey : string := "splunk-insecureskipverify".
Definition splunkFormatKey : string := "splunk-format".
Definition splunkVerifyConnectionKey : string := "splunk-verify-connection".
Definition splunkGzipCompressionKey : string := "splunk-gzip".
Definition splunkGzipCompressionLevelKey : string := "splunk-gzip-level".
Definition splunkIndexAcknowledgment : string := "splunk-index-acknowledgment".
Definition tagKey : string := "tag".

Definition second : Z := 1000000000.
Definition defaultPostMessagesFrequency : Z := 5 * second.
Definition defaultPostMessagesBatchSize : Z := 1000.
Definition defaultBufferMaximum : Z := 10 * defaultPostMessagesBatchSize.
Definition defaultStreamChannelSize : Z := 4 * defaultPostMessagesBatchSize.

Definition envVarPostMessagesFrequency : string :=
  "SPLUNK_LOGGING_DRIVER_POST_MESSAGES_FREQUENCY".
Definition envVarPostMessagesBatchSize : string :=
  "SPLUNK_LOGGING_DRIVER_POST_MESSAGES_BATCH_SIZE".
Definition envVarBufferMaximum : string := "SPLUNK_LOGGING_DRIVER_BUFFER_MAX".
Definition envVarStreamChannelSize : string := "SPLUNK_LOGGING_DRIVER_CHANNEL_SIZE".

Definition splunkFormatRaw : string := "raw".
Definition splunkFormatJSON : string := "json".
Definition splunkFormatInline : string := "inline".

Definition gzipDefaultCompression : Z := -1.
Definition gzipBestCompression : Z := 9.

(** The value of a map at a key, the empty string when there is none. *)
Definition at_key (m : gmap string string) (k : string) : string :=
  default "" (m !! k).

(** A step that may return an error, inside a function that returns one. *)
Notation "'try' x <~ c 'in' k" :=
  (match c with inl err => inl err | inr x => k end)
  (at level 10, x name, c at level 100, k at level 200).

Section Construction.
Context `{GoLib} `{ConfigLib}.

Definition parseURL (info : Info) : error + urlURL :=
  match Config info !! splunkURLKey with
  | None => inl (driverName +:+ ": " +:+ splunkURLKey +:+ " is expected")
  | Some splunkURLStr =>
      match urlParse splunkURLStr with
      | inl _ =>
          inl (driverName +:+ ": failed to parse " +:+ splunkURLStr +:+
               " as url value in " +:+ splunkURLKey)
      | inr splunkURL =>
          if bool_decide (Scheme splunkURL = "")            (* [!splunkURL.IsAbs()] *)
             || (bool_decide (Scheme splunkURL <> "http") &&
                 bool_decide (Scheme splunkURL <> "https"))
             || (bool_decide (Path splunkURL <> "") && bool_decide (Path splunkURL <> "/"))
             || bool_decide (RawQuery splunkURL <> "")
             || bool_decide (Fragment splunkURL <> "")
          then inl (driverName +:+ ": expected format scheme://dns_name_or_ip:port for "
                    +:+ splunkURLKey)
          else inr {| Scheme := Scheme splunkURL; UrlHost := UrlHost splunkURL;
                      Path := "/services/collector/event/1.0";
                      RawQuery := RawQuery splunkURL; Fragment := Fragment splunkURL |}
      end
  end.

Definition verifyError (resp : Response) (body : string) : error :=
  driverName +:+ ": failed to verify connection - " +:+ Status resp +:+ " - " +:+ body.

Definition verifySplunkConnection (l : splunkLogger) : IO (option error) :=
  match httpNewRequestErr "OPTIONS" (url l) with
  | Some err => ioret (Some err)
  | None =>
      let req := {| Method := "OPTIONS"; URL := url l; Header := []; Body := "" |} in
      io resp <~ doRequest req in
      match resp with
      | inl err => ioret (Some err)
      | inr resp =>
          if bool_decide (StatusCode resp <> StatusOK) then
            match readAllLimited resp maxResponseSize with
            | inl err => ioret (Some err)
            | inr body => ioret (Some (verifyError resp body))
            end
          else ioret None
      end
  end.

Definition errorEntryOf (message : string) : LogEntry :=
  {| entryLevel := ErrorLevel; entryError := None; entryFields := [];
     entryMessage := message |}.

Definition getAdvancedOptionDuration (envName : string) (defaultValue : Z) : IO Z :=
  let valueStr := Getenv envName in
  if bool_decide (valueStr = "") then ioret defaultValue
  else match ParseDuration valueStr with
       | inl err =>
           io_ logWrite (errorEntryOf
                 ("Failed to parse value of " +:+ envName +:+
                  " as duration. Using default " +:+ sprintDuration defaultValue +:+
                  ". " +:+ err)) in
           ioret defaultValue
       | inr parsedValue => ioret parsedValue
       end.

Definition getAdvancedOptionInt (envName : string) (defaultValue : Z) : IO Z :=
  let valueStr := Getenv envName in
  if bool_decide (valueStr = "") then ioret defaultValue
  else match ParseInt32 valueStr with
       | inl err =>
           io_ logWrite (errorEntryOf
                 ("Failed to parse value of " +:+ envName +:+
                  " as integer. Using default " +:+ sprintInt defaultValue +:+
                  ". " +:+ err)) in
           ioret defaultValue
       | inr parsedValue => ioret parsedValue
       end.

(** An option that is a boolean when it is there. *)
Definition boolOption (info : Info) (key : string) (absent : bool) : error + bool :=
  match Config info !! key with
  | Some str => ParseBool str
  | None => inr absent
  end.

(** The options [New] reads before it touches the environment. *)
Record options : Type := {
  optHostname : string;
  optURL : urlURL;
  optToken : string;
  optTLS : tlsConfig;
  optGzip : bool;
  optGzipLevel : Z;
  optIndexAck : bool;
  optTag : string;
  optExtraAttrs : gmap string string;
}.

(** [New], from its start to [extraAttrs]. *)
Definition readOptions (info : Info) : error + options :=
  match infoHostname info with
  | inl _ => inl (driverName +:+ ": cannot access hostname to set source field")
  | inr hostname =>
  (* Parse and validate Splunk URL *)
  try splunkURL <~ parseURL info in
  (* Splunk Token is required parameter *)
  match Config info !! splunkTokenKey with
  | None => inl (driverName +:+ ": " +:+ splunkTokenKey +:+ " is expected")
  | Some splunkToken =>
  try insecureSkipVerify <~ boolOption info splunkInsecureSkipVerifyKey false in
  (* If path to the root certificate is provided - load it *)
  try rootCAs <~ match Config info !! splunkCAPathKey with
                 | Some caPath =>
                     match ReadFile caPath with
                     | inl err => inl err
                     | inr caCert => inr (Some caCert)
                     end
                 | None => inr None
                 end in
  let tls := {| InsecureSkipVerify := insecureSkipVerify; RootCAs := rootCAs;
                ServerName := at_key (Config info) splunkCANameKey |} in
  try gzipCompression <~ boolOption info splunkGzipCompressionKey false in
  try gzipCompressionLevel <~
      match Config info !! splunkGzipCompressionLevelKey with
      | Some gzipCompressionLevelStr =>
          match ParseInt32 gzipCompressionLevelStr with
          | inl err => inl err
          | inr gzipCompressionLevel =>
              if bool_decide (gzipCompressionLevel < gzipDefaultCompression)
                 || bool_decide (gzipCompressionLevel > gzipBestCompression)
              then inl ("not supported level '" +:+ gzipCompressionLevelStr +:+
                        "' for " +:+ splunkGzipCompressionLevelKey +:+
                        " (supported values between -1 and 9)")
              else inr gzipCompressionLevel
          end
      | None => inr gzipDefaultCompression
      end in
  try indexAck <~ boolOption info splunkIndexAcknowledgment false in
  (* Allow user to remove tag from the messages by setting tag to empty string *)
  try tag <~ match Config info !! tagKey with
             | Some "" => inr ""
             | _ => ParseLogTag info
             end in
  try extraAttrs <~ ExtraAttributes info in
  inr {| optHostname := hostname; optURL := splunkURL; optToken := splunkToken;
         optTLS := tls; optGzip := gzipCompression;
         optGzipLevel := gzipCompressionLevel; optIndexAck := indexAck;
         optTag := tag; optExtraAttrs := extraAttrs |}
  end end.

(** The prefix of the raw format: the tag, then the extra attributes in
    the order the [range] over the map gives them. *)
Definition rawPrefix (tag : string) (extraAttrs : gmap string string) : string :=
  (if bool_decide (tag <> "") then tag +:+ " " else "") +:+
  foldr (fun kv rest => kv.1 +:+ "=" +:+ kv.2 +:+ " " +:+ rest) "" (mapRange extraAttrs).

(** [New], from the environment to the end. A channel of negative
    capacity is not made: [make] panics. *)
Definition New (info : Info) : IO (result (error + created)) :=
  match readOptions info with
  | inl err => ioret (Done (inl err))
  | inr o =>
  io postMessagesFrequency <~
     getAdvancedOptionDuration envVarPostMessagesFrequency defaultPostMessagesFrequency in
  io postMessagesBatchSize <~
     getAdvancedOptionInt envVarPostMessagesBatchSize defaultPostMessagesBatchSize in
  io bufferMaximum <~ getAdvancedOptionInt envVarBufferMaximum defaultBufferMaximum in
  io streamChannelSize <~
     getAdvancedOptionInt envVarStreamChannelSize defaultStreamChannelSize in
  let splLogger :=
    {| url := urlString (optURL o);
       auth := "Splunk " +:+ optToken o;
       nullMessage :=
         {| Event := EventNil; Time := ""; Host := optHostname o;
            Source := at_key (Config info) splunkSourceKey;
            SourceType := at_key (Config info) splunkSourceTypeKey;
            Index := at_key (Config info) splunkIndexKey |};
       gzipCompression := optGzip o;
       gzipCompressionLevel := optGzipLevel o;
       postMessagesFrequency := postMessagesFrequency;
       postMessagesBatchSize := postMessagesBatchSize;
       bufferMaximum := bufferMaximum;
       indexAck := optIndexAck o |} in
  if bool_decide (streamChannelSize < 0)
  then ioret (Panic "makechan: size out of range") else
  (* By default we verify connection, but we allow use to skip that *)
  match boolOption info splunkVerifyConnectionKey true with
  | inl err => ioret (Done (inl err))
  | inr verifyConnection =>
  io failed <~ (if verifyConnection then verifySplunkConnection splLogger
                else ioret None) in
  match failed with
  | Some err => ioret (Done (inl err))
  | None =>
  let splunkFormat := default splunkFormatInline (Config info !! splunkFormatKey) in
  let nullEvent := {| Line := LineNil; EventSource := "";
                      Tag := optTag o; Attrs := optExtraAttrs o |} in
  let made loggerWrapper :=
    io_ emit IoGo in     (* [go loggerWrapper.worker()] *)
    ioret (Done (inr {| wrapper := loggerWrapper; transportTLS := optTLS o;
                        streamCapacity := streamChannelSize |})) in
  if bool_decide (splunkFormat = splunkFormatInline)
  then made (splunkLoggerInline splLogger nullEvent)
  else if bool_decide (splunkFormat = splunkFormatJSON)
  then made (splunkLoggerJSON splLogger nullEvent)
  else if bool_decide (splunkFormat = splunkFormatRaw)
  then made (splunkLoggerRaw splLogger (rawPrefix (optTag o) (optExtraAttrs o)))
  else ioret (Done (inl ("unknown format specified " +:+ splunkFormat +:+
                         ", supported formats are inline, json and raw")))
  end end end.

End Construction.

(** ** Malformed configurations, as the specification lists them *)

Section Malformed.
Context `{GoLib} `{ConfigLib}.

Definition missingOption (info : Info) (key : string) : Prop :=
  Config info !! key = None.

Definition malformedURL (info : Info) : Prop :=
  exists str, Config info !! splunkURLKey = Some str /\
              exists err, parseURL info = inl err.

Definition invalidBoolean (info : Info) (key : string) : Prop :=
  exists str err, Config info !! key = Some str /\ ParseBool str = inl err.

Definition invalidLevel (info : Info) : Prop :=
  exists str, Config info !! splunkGzipCompressionLevelKey = Some str /\
    ((exists err, ParseInt32 str = inl err) \/
     (exists n, ParseInt32 str = inr n /\
                (n < gzipDefaultCompression \/ n > gzipBestCompression))).

Definition unsupportedFormat (info : Info) : Prop :=
  exists f, Config info !! splunkFormatKey = Some f /\
            f <> splunkFormatInline /\ f <> splunkFormatJSON /\ f <> splunkFormatRaw.

Definition invalidDuration : Prop :=
  Getenv envVarPostMessagesFrequency <> "" /\
  exists err, ParseDuration (Getenv envVarPostMessagesFrequency) = inl err.

(** The malformed configurations that make [New] fail. *)
Definition malformed (info : Info) : Prop :=
  missingOption info splunkURLKey \/
  missingOption info splunkTokenKey \/
  malformedURL info \/
  invalidBoolean info splunkInsecureSkipVerifyKey \/
  invalidBoolean info splunkGzipCompressionKey \/
  invalidBoolean info splunkIndexAcknowledgment \/
  invalidBoolean info splunkVerifyConnectionKey \/
  invalidLevel info \/
  unsupportedFormat info.

(** The capacity [New] takes for the channel. *)
Definition envInt (envName : string) (defaultValue : Z) : Z :=
  if bool_decide (Getenv envName = "") then defaultValue
  else match ParseInt32 (Getenv envName) with
       | inl _ => defaultValue
       | inr parsedValue => parsedValue
       end.

(** "Every malformed configuration string, an invalid duration string
    among them, makes [New] return an error, and the pipeline never
    starts." *)
Definition constructionAsSpecified (info : Info) (h : history) : Prop :=
  malformed info \/ invalidDuration ->
  (exists err, (New info h).1 = Done (inl err)) /\
  (IoGo ∉ issued (New info) h).

End Malformed.

(** ** Fixtures of the construction *)

(** [strconv.ParseBool]. *)
Definition fixtureParseBool (str : string) : error + bool :=
  if bool_decide (str ∈ ["1"; "t"; "T"; "TRUE"; "true"; "True"]) then inr true
  else if bool_decide (str ∈ ["0"; "f"; "F"; "FALSE"; "false"; "False"]) then inr false
  else inl ("strconv.ParseBool: parsing " +:+ str +:+ ": invalid syntax").

Definition fixtureConfigLib (env : string -> string) : ConfigLib :=
  {| infoHostname _ := inr "host";
     urlParse str :=
       if bool_decide (str = "https://splunk.example:8088")
       then inr {| Scheme := "https"; UrlHost := "splunk.example:8088"; Path := "";
                   RawQuery := ""; Fragment := "" |}
       else inl "parse error";
     urlString u := Scheme u +:+ "://" +:+ UrlHost u +:+ Path u;
     ParseBool := fixtureParseBool;
     ParseInt32 str :=
       if bool_decide (str = "9") then inr 9
       else if bool_decide (str = "12") then inr 12
       else if bool_decide (str = "-1") then inr (-1)
       else inl ("strconv.ParseInt: parsing " +:+ str +:+ ": invalid syntax");
     ReadFile _ := inr "";
     ParseLogTag info := inr (ContainerID info);
     ExtraAttributes _ := inr ∅;
     mapRange := map_to_list;
     Getenv := env;
     ParseDuration str :=
       if bool_decide (str = "5s") then inr (5 * second)
       else inl ("time: invalid duration " +:+ str);
     sprintDuration _ := "5s";
     sprintInt _ := "1000" |}.

Definition emptyEnv (name : string) : string := "".

(** An environment whose batch period is not a duration. *)
Definition badPeriodEnv (name : string) : string :=
  if bool_decide (name = envVarPostMessagesFrequency) then "soon" else "".

Definition goodInfo : Info :=
  {| Config := <[splunkURLKey := "https://splunk.example:8088"]>
               (<[splunkTokenKey := "token"]>
               (<[splunkVerifyConnectionKey := "false"]> ∅));
     ContainerID := "0123456789ab" |}.

(** The same with a format the driver does not know. *)
Definition xmlInfo : Info :=
  {| Config := <[splunkFormatKey := "xml"]> (Config goodInfo);
     ContainerID := "0123456789ab" |}.

(** ** The validation of the options: [ValidateLogOpt] *)

Definition envKey : string := "env".
Definition envRegexKey : string := "env-regex".
Definition labelsKey : string := "labels".
Definition labelsRegexKey : string := "labels-regex".

(** The [switch] of [ValidateLogOpt]: whether a key has a [case] of its
    own, in the order of the cases. *)
Definition supportedLogOpt (key : string) : bool :=
  bool_decide (key = splunkURLKey)
  || bool_decide (key = splunkTokenKey)
  || bool_decide (key = splunkSourceKey)
  || bool_decide (key = splunkSourceTypeKey)
  || bool_decide (key = splunkIndexKey)
  || bool_decide (key = splunkCAPathKey)
  || bool_decide (key = splunkCANameKey)
  || bool_decide (key = splunkInsecureSkipVerifyKey)
  || bool_decide (key = splunkFormatKey)
  || bool_decide (key = splunkVerifyConnectionKey)
  || bool_decide (key = splunkGzipCompressionKey)
  || bool_decide (key = splunkGzipCompressionLevelKey)
  || bool_decide (key = splunkIndexAcknowledgment)
  || bool_decide (key = envKey)
  || bool_decide (key = envRegexKey)
  || bool_decide (key = labelsKey)
  || bool_decide (key = labelsRegexKey)
  || bool_decide (key = tagKey).

Definition unknownLogOpt (key : string) : error :=
  "unknown log opt '" +:+ key +:+ "' for " +:+ driverName +:+ " log driver".

(** The loop [for key := range cfg], over the keys in the order the
    [range] gives them: the first key without a case ends it. *)
Fixpoint validateKeys (keys : list string) : option error :=
  match keys with
  | [] => None
  | key :: keys =>
      if supportedLogOpt key then validateKeys keys
      else Some (unknownLogOpt key)
  end.

Definition ValidateLogOpt `{ConfigLib} (cfg : gmap string string) : option error :=
  validateKeys ((mapRange cfg).*1).

(** The request of [verifySplunkConnection]. *)
Definition probe (l : splunkLogger) : Request :=
  {| Method := "OPTIONS"; URL := url l; Header := []; Body := "" |}.

(** A configuration with an option the driver does not know. *)
Definition colourConfig : gmap string string :=
  <["splunk-colour" := "red"]> (Config goodInfo).

(** A library whose [json.Marshal] refuses the records of time [NaN],
    with a remote that accepts every request. *)
Definition pickyLib : GoLib :=
  {| jsonMarshal m :=
       if bool_decide (Time m = "NaN") then inl "json: unsupported value: NaN"
       else inr ("{" +:+ Time m +:+ "}");
     gzipNewWriterLevel lvl := None;
     gzipEncode lvl s := "gz" +:+ s;
     httpNewRequestErr _ _ := None;
     uuidNewRandom _ := inr "00000000-0000-4000-8000-000000000000";
     clientDo _ _ := inr answer200;
     formatSeconds nanos := "0.000000";
     jsonValid _ := false;
     TrimSpace := trimAscii |}.

(** A configuration without any option. *)
Definition bareInfo : Info := {| Config := ∅; ContainerID := "0123456789ab" |}.

(** ** The batches of a flush *)

(** The [k]-th batch of a buffer: its records from [k * batchSize] up to
    the next multiple of the batch size, or to its end. *)
Definition batch (l : splunkLogger) (messages : list splunkMessage) (k : nat)
  : list splunkMessage :=
  take (Z.to_nat (postMessagesBatchSize l))
       (drop (k * Z.to_nat (postMessagesBatchSize l)) messages).

(** What the history says of the records, in the order of time: the
    body of each request that was answered with 200, and each entry of the
    log at error level. *)
Definition outcome (e : io_event) : option (string + LogEntry) :=
  match okBody e, errorEntry e with
  | Some body, _ => Some (inl body)
  | None, Some entry => Some (inr entry)
  | None, None => None
  end.

Definition outcomes (h : history) : list (string + LogEntry) := omap outcome h.

(** How a flush that sent [n] batches ends: at the end of the buffer; or
    at a batch whose send fails, where the overflow rule of [postMessages]
    tells what is [dropped] and what is the [rest]. *)
Definition flushEnd (l : splunkLogger) (messages : list splunkMessage)
    (lastChance : bool) (n : nat) (dropped rest : list splunkMessage) : Prop :=
  let i := Z.of_nat n * postMessagesBatchSize l in
  (len messages <= i /\ dropped = [] /\ rest = []) \/
  (i < len messages /\
   if bool_decide (len messages - i >= bufferMaximum l) || lastChance then
     let upper := if lastChance then len messages
                  else Z.min (i + postMessagesBatchSize l) (len messages) in
     dropped = take (Z.to_nat (upper - i)) (drop (Z.to_nat i) messages) /\
     rest = drop (Z.to_nat upper) messages
   else dropped = [] /\ rest = drop (Z.to_nat i) messages).

(** The least multiple of the batch size that is not below the buffer
    maximum (taken as one when it is not positive). *)
Definition bufferCeiling (l : splunkLogger) : Z :=
  postMessagesBatchSize l *
  ((Z.max (bufferMaximum l) 1 + postMessagesBatchSize l - 1) / postMessagesBatchSize l).

(** ** The handshake of the shutdown *)

(** How many goroutines are at one of some program points. *)
Fixpoint count (f : thread -> bool) (ts : list thread) : nat :=
  match ts with
  | [] => 0
  | t :: ts => (if f t then 1 else 0) + count f ts
  end.

(** A call of [Close] that found [closedCond] unset: it is in the body
    of the [if], or has left it through this body. *)
Definition began (t : thread) : bool :=
  match t with
  | InClose (CloseClosing | CloseWait | CloseParked | CloseWoken
             | CloseReturning true | CloseReturned true) => true
  | _ => false
  end.

(** A call of [Close] at [close(l.stream)]. *)
Definition closing (t : thread) : bool :=
  match t with InClose CloseClosing => true | _ => false end.

Record handshake (s : pipeline) : Prop := {
  hs_one : (count began (threads s) <= 1)%nat;
  hs_none : closedCond s = false -> count began (threads s) = 0%nat;
  hs_closing : streamClosed s = true -> count closing (threads s) = 0%nat;
  hs_parked : closed s = true -> count parked (threads s) = 0%nat;
  hs_exited : worker s = WorkerExited -> closed s = true;
}.

(** A logger whose batch size is zero, and a run in which its worker
    receives a record. *)
Definition zeroBatchLogger : loggerWrapper :=
  splunkLoggerRaw (fixtureLogger 0 4 false) "tag ".

Definition firstRecord : list action :=
  [CallLog helloLine; StepThread 0; StepThread 0; StepThread 0; StepWorker 0;
   StepThread 0; StepWorker 0]%nat.

(** The worker is in no endless flush and its buffer is below the
    ceiling. *)
Definition bounded (l : splunkLogger) (s : pipeline) : Prop :=
  worker s <> WorkerStuck /\ len (buffered (worker s)) < bufferCeiling l.

(** ** The order of the records *)

(** The record that a step sends into the channel, when it is the send
    of a call of [queueMessageAsync] that goes through. *)
Definition sentBy (capacity : nat) (a : action) (s : pipeline) : option splunkMessage :=
  match a with
  | StepThread i =>
      match threads s !! i with
      | Some (InQueue message EnqSend) =>
          if negb (streamClosed s) && canSend capacity s then Some message else None
      | _ => None
      end
  | _ => None
  end.

(** The records that the steps of a run send into the channel, in the
    order of the sends. *)
Fixpoint channelOrder `{GoLib} (lw : loggerWrapper) (capacity : nat)
    (acts : list action) (s : pipeline) : list splunkMessage :=
  match acts with
  | [] => []
  | a :: acts =>
      match step lw capacity a s with
      | Some s' => option_list (sentBy capacity a s) ++ channelOrder lw capacity acts s'
      | None => []
      end
  end.

(** How records leave the pipeline: a batch in a request that the remote
    accepts, or one record in an entry of the log. *)
Inductive departure : Type :=
| Delivered (chunk : list splunkMessage)
| Dropped (message : splunkMessage).

Definition departed (d : departure) : list splunkMessage :=
  match d with
  | Delivered chunk => chunk
  | Dropped message => [message]
  end.

(** What a departure leaves in the history. *)
Definition trace `{GoLib} (l : splunkLogger) (d : departure) : string + LogEntry :=
  match d with
  | Delivered chunk => inl (requestBody l chunk)
  | Dropped message => inr (failedEntry message)
  end.

(** The records sent so far, in their order, are those that have left,
    in the order in which the history shows them to leave, and then those
    that wait in the buffer of the worker and in the channel. *)
Definition ordered `{GoLib} (l : splunkLogger) (order : list splunkMessage)
    (s : pipeline) : Prop :=
  exists deps : list departure,
    outcomes (world s) = trace l <$> deps /\
    order = (deps ≫= departed) ++ pending s.

(** One goroutine a step later: the same call, further on. A call of
    [Log] goes on with the record its formatter made. *)
Definition follows `{GoLib} (lw : loggerWrapper) (t t' : thread) : Prop :=
  match t, t' with
  | InLog msg, InQueue message _ => Log lw msg = QueueMessageAsync message
  | InLog msg, LogReturnedNil msg' => msg' = msg /\ Log lw msg = ReturnNil
  | InQueue message _, InQueue message' _ => message' = message
  | InClose _, InClose _ => True
  | _, _ => False
  end.

(** Where the message or the record of a goroutine comes from: a call
    of [Log] among the actions. *)
Definition fromLog `{GoLib} (lw : loggerWrapper) (acts : list action) (t : thread) : Prop :=
  match t with
  | InLog msg | LogReturnedNil msg => CallLog msg ∈ acts
  | InQueue message _ =>
      exists msg, CallLog msg ∈ acts /\ Log lw msg = QueueMessageAsync message
  | InClose _ => True
  end.

(** The period [New] takes from the environment. *)
Definition envDuration `{ConfigLib} (envName : string) (defaultValue : Z) : Z :=
  if bool_decide (Getenv envName = "") then defaultValue
  else match ParseDuration (Getenv envName) with
       | inl _ => defaultValue
       | inr parsedValue => parsedValue
       end.

(** An entry of the daemon log. *)
Definition isLog (e : io_event) : Prop := exists entry, e = IoLog entry.

(** An environment that sets the batch size to zero, and a library that
    reads it. *)
Definition zeroBatchEnv (name : string) : string :=
  if bool_decide (name = envVarPostMessagesBatchSize) then "0" else "".

Definition zeroBatchLib : ConfigLib :=
  {| infoHostname := infoHostname (ConfigLib := fixtureConfigLib zeroBatchEnv);
     urlParse := urlParse (ConfigLib := fixtureConfigLib zeroBatchEnv);
     urlString := urlString (ConfigLib := fixtureConfigLib zeroBatchEnv);
     ParseBool := fixtureParseBool;
     ParseInt32 str :=
       if bool_decide (str = "0") then inr 0
       else inl ("strconv.ParseInt: parsing " +:+ str +:+ ": invalid syntax");
     ReadFile := ReadFile (ConfigLib := fixtureConfigLib zeroBatchEnv);
     ParseLogTag := ParseLogTag (ConfigLib := fixtureConfigLib zeroBatchEnv);
     ExtraAttributes := ExtraAttributes (ConfigLib := fixtureConfigLib zeroBatchEnv);
     mapRange := map_to_list;
     Getenv := zeroBatchEnv;
     ParseDuration := ParseDuration (ConfigLib := fixtureConfigLib zeroBatchEnv);
     sprintDuration := sprintDuration (ConfigLib := fixtureConfigLib zeroBatchEnv);
     sprintInt := sprintInt (ConfigLib := fixtureConfigLib zeroBatchEnv) |}.

(** A configuration that leaves the check of the connection on, and
    asks for the raw format. *)
Definition checkedInfo : Info :=
  {| Config := <[splunkURLKey := "https://splunk.example:8088"]>
               (<[splunkTokenKey := "token"]>
               (<[splunkFormatKey := "raw"]> ∅));
     ContainerID := "0123456789ab" |}.

(** A pipeline whose worker is at its [select], with one record in the
    channel. *)
Definition oneRecordWaiting : pipeline :=
  {| stream := [helloRecord]; streamClosed := false; closedCond := false;
     closed := false; worker := WorkerSelect []; threads := [];
     world := []; crashed := None |}.

(** A goroutine that is a call of [Close]. *)
Definition isClose (t : thread) : Prop :=
  match t with InClose _ => True | _ => False end.

(** A run without any call of [Log], with two calls of [Close]. *)
Definition closeOnly : list action :=
  [StepWorker 0; CallClose; CallClose; StepThread 0; StepThread 0; StepThread 0;
   StepThread 0; StepWorker 0; StepWorker 0; StepWorker 0;
   StepThread 0; StepThread 0; StepThread 0;
   StepThread 1; StepThread 1; StepThread 1]%nat.

(** ** The end of the shutdown *)

(** A call that has returned. *)
Definition returned (t : thread) : bool :=
  match t with
  | LogReturnedNil _ | InQueue _ (EnqReturned _) | InClose (CloseReturned _) => true
  | _ => false
  end.

(** What the program point of a call of [Close] tells about the channel
    and the two variables of the shutdown, beyond [threadOk]. *)
Definition closeOk (cond streamClosed closed : bool) (t : thread) : Prop :=
  match t with
  | InClose CloseWoken => closed = true /\ streamClosed = true
  | InClose (CloseWait | CloseParked | CloseReturning true | CloseReturned true) =>
      streamClosed = true
  | InClose (CloseReturning false | CloseReturned false) => cond = true
  | _ => True
  end.

Record closeInv (s : pipeline) : Prop := {
  ci_threads : Forall (closeOk (closedCond s) (streamClosed s) (closed s)) (threads s);
  ci_closing :
    closedCond s = true -> streamClosed s = false ->
    (1 <= count closing (threads s))%nat;
}.

(** A bound on the steps that a goroutine has before it, given
    [l.closed]; a call inside [Wait] counts the steps after its signal. *)
Definition stepsLeft (closed : bool) (t : thread) : nat :=
  match t with
  | InLog _ => 6
  | LogReturnedNil _ => 0
  | InQueue _ EnqStart => 5
  | InQueue _ EnqLocked => 4
  | InQueue _ EnqSend => 3
  | InQueue _ EnqSent => 2
  | InQueue _ EnqRefused => 1
  | InQueue _ (EnqReturned _) => 0
  | InClose CloseStart => 9
  | InClose CloseLocked => 8
  | InClose CloseClosing => 7
  | InClose CloseWait => if closed then 2 else 6
  | InClose CloseParked => 5
  | InClose CloseWoken => 3
  | InClose (CloseReturning _) => 1
  | InClose (CloseReturned _) => 0
  end.

Definition workerStepsLeft (w : workerPc) : nat :=
  match w with
  | WorkerStart => 4
  | WorkerSelect _ => 3
  | WorkerFlushed => 2
  | WorkerLocked => 1
  | WorkerExited | WorkerStuck => 0
  end.

Fixpoint total (f : thread -> nat) (ts : list thread) : nat :=
  match ts with
  | [] => 0
  | t :: ts => f t + total f ts
  end.

(** What is left to do before every call has returned and the worker has
    ended, when no new call is made and the timer does not fire. *)
Definition workLeft (s : pipeline) : nat :=
  2 * total (stepsLeft (closed s)) (threads s) + length (stream s)
  + workerStepsLeft (worker s).

(** A goroutine that moves only when another one lets it: a call that
    has returned, or one inside [Wait]. *)
Definition idle (t : thread) : bool := returned t || parked t.

(** A step of a goroutine that is there: of a call, or of the worker. *)
Definition moves (a : action) : bool :=
  match a with
  | StepThread _ | StepWorker _ => true
  | CallLog _ | CallClose | Tick => false
  end.

(** The shutdown is over: the worker has ended and every call has
    returned. *)
Definition finished (s : pipeline) : Prop :=
  worker s = WorkerExited /\ Forall (fun t => returned t = true) (threads s).

(** What holds of a pipeline that runs with a positive batch size and a
    positive period. *)
Definition healthy `{GoLib} (lw : loggerWrapper) (s : pipeline) : Prop :=
  crashed s = None /\ invariant lw s /\ handshake s /\ closeInv s /\
  bounded (baseLogger lw) s.

(** * Properties *)

(** ** Integers, strings and slices *)

Lemma wrap64_exact z : int_min <= z <= int_max -> wrap64 z = z.
Proof.
  unfold wrap64, int_min, int_max. intros Hz.
  rewrite Z.mod_small; lia.
Qed.

Lemma wrap64_range z : int_min <= wrap64 z <= int_max.
Proof.
  unfold wrap64, int_min, int_max.
  pose proof (Z.mod_pos_bound (z + 2 ^ 63) (2 ^ 64)). lia.
Qed.

Lemma string_app_assoc (a b c : string) : (a +:+ b) +:+ c = a +:+ (b +:+ c).
Proof.
  induction a as [|ch a IH]; [done|].
  unfold String.app in *. simpl. by rewrite IH.
Qed.

Lemma string_app_empty_r (a : string) : a +:+ "" = a.
Proof.
  induction a as [|ch a IH]; [done|].
  unfold String.app in *. simpl. by rewrite IH.
Qed.

Lemma substring_length_le (n : nat) (s : string) :
  (String.length (substring 0 n s) <= n)%nat.
Proof.
  revert s. induction n as [|n IH]; intros [|ch s]; simpl; try lia.
  specialize (IH s). lia.
Qed.

Lemma slice_Done {A} (s : list A) lo hi :
  0 <= lo -> lo <= hi -> hi <= len s ->
  slice s lo hi = Done (take (Z.to_nat (hi - lo)) (drop (Z.to_nat lo) s)).
Proof. intros. unfold slice. rewrite bool_decide_eq_true_2; [done|lia]. Qed.

Lemma slice_to_end {A} (s : list A) lo :
  0 <= lo -> lo <= len s -> slice s lo (len s) = Done (drop (Z.to_nat lo) s).
Proof.
  intros. rewrite slice_Done by lia. f_equal.
  apply take_ge. rewrite length_drop. unfold len. lia.
Qed.

Lemma slice_inv {A} (s : list A) lo hi r :
  slice s lo hi = Done r ->
  0 <= lo /\ lo <= hi /\ hi <= len s /\
  r = take (Z.to_nat (hi - lo)) (drop (Z.to_nat lo) s).
Proof.
  unfold slice. case_bool_decide; [|done]. intros [= <-]. tauto.
Qed.

Lemma slice_not_Diverge {A} (s : list A) lo hi : slice s lo hi <> Diverge.
Proof. unfold slice. by case_bool_decide. Qed.

(** ** One delivery: [tryPostMessages] *)

Section SenderFacts.
Context `{GoLib}.

Lemma okBodies_app h1 h2 : okBodies (h1 ++ h2) = okBodies h1 ++ okBodies h2.
Proof. apply omap_app. Qed.

Lemma errorEntries_app h1 h2 :
  errorEntries (h1 ++ h2) = errorEntries h1 ++ errorEntries h2.
Proof. apply omap_app. Qed.

Lemma writerWrite_gzip w p :
  gzipWriter (writerWrite w p) =
  (fun '(lvl, written) => (lvl, written +:+ p)) <$> gzipWriter w.
Proof. unfold writerWrite. by destruct (gzipWriter w) as [[??]|]. Qed.

(** The marshalled records reach the writer in order: the plain buffer
    when there is no compressor, the compressor otherwise. *)
Lemma writeMessages_plain w messages w' :
  gzipWriter w = None ->
  writeMessages w messages = inr w' ->
  gzipWriter w' = None /\ buffer w' = buffer w +:+ payload messages.
Proof.
  revert w. induction messages as [|m messages IH]; intros w Hw; simpl.
  - intros [= <-]. by rewrite string_app_empty_r.
  - destruct (jsonMarshal m) as [err|js]; [done|]. intros Hrun.
    apply IH in Hrun as [Hg Hb]; [|by unfold writerWrite; rewrite Hw].
    split; [done|]. rewrite Hb. unfold writerWrite. rewrite Hw. simpl.
    by rewrite string_app_assoc.
Qed.

Lemma writeMessages_gzip w lvl written messages w' :
  gzipWriter w = Some (lvl, written) ->
  writeMessages w messages = inr w' ->
  gzipWriter w' = Some (lvl, written +:+ payload messages) /\ buffer w' = buffer w.
Proof.
  revert w written. induction messages as [|m messages IH]; intros w written Hw; simpl.
  - intros [= <-]. by rewrite string_app_empty_r.
  - destruct (jsonMarshal m) as [err|js]; [done|]. intros Hrun.
    eapply IH in Hrun as [Hg Hb]; [|by unfold writerWrite; rewrite Hw].
    rewrite Hg, Hb. unfold writerWrite. rewrite Hw. simpl.
    by rewrite string_app_assoc.
Qed.

Lemma writeMessages_ok_iff w messages :
  (exists w', writeMessages w messages = inr w') <->
  Forall (fun m => exists js, jsonMarshal m = inr js) messages.
Proof.
  revert w. induction messages as [|m messages IH]; intros w; simpl.
  - split; [by constructor|eauto].
  - destruct (jsonMarshal m) as [err|js] eqn:Hm.
    + split; [by intros [? ?]|]. intros Hall. inversion Hall as [|?? [js Hjs]]. congruence.
    + rewrite IH. split; [intros; constructor; eauto|]. by inversion 1.
Qed.

(** The body of the request that [tryPostMessages] builds. *)
Lemma built_body l messages w w' :
  newBodyWriter l = inr w ->
  writeMessages w messages = inr w' ->
  buffer (if gzipCompression l then writerClose w' else w') = requestBody l messages.
Proof.
  unfold newBodyWriter, requestBody. destruct (gzipCompression l).
  - destruct (gzipNewWriterLevel _); [done|]. intros [= <-] Hrun.
    eapply writeMessages_gzip in Hrun as [Hg Hb]; [|done].
    unfold writerClose. rewrite Hg, Hb. done.
  - intros [= <-] Hrun.
    eapply writeMessages_plain in Hrun as [Hg Hb]; [|done].
    by rewrite Hb.
Qed.

Lemma headerSet_Body k v req : Body (headerSet k v req) = Body req.
Proof. done. Qed.

End SenderFacts.

Section SenderShape.
Context `{GoLib}.

Lemma tryPostMessages_nil l h : tryPostMessages l [] h = (None, h).
Proof. done. Qed.

(** Every call on a non-empty set of records is one of the three
    attempts, and the history only grows. *)
Lemma tryPostMessages_attempt l messages h :
  messages <> [] ->
  exists d, (tryPostMessages l messages h).2 = h ++ d /\
            attempt l messages (tryPostMessages l messages h).1 d.
Proof.
  intros Hne. unfold tryPostMessages.
  rewrite bool_decide_eq_false_2; [|unfold len; destruct messages; [done|simpl; lia]].
  destruct (newBodyWriter l) as [err|w] eqn:Hw.
  { exists []. rewrite app_nil_r. split; [done|]. constructor. by left. }
  destruct (writeMessages w messages) as [err|w'] eqn:Hwr.
  { exists []. rewrite app_nil_r. split; [done|]. constructor. by left. }
  destruct (httpNewRequestErr "POST" (url l)) as [err|].
  { exists []. rewrite app_nil_r. split; [done|]. constructor. by left. }
  pose proof (built_body l messages w w' Hw Hwr) as Hbody.
  set (wr := if gzipCompression l then writerClose w' else w') in *.
  set (req0 := headerSet "Authorization" (auth l) _).
  set (req1 := if gzipCompression l then _ else req0).
  assert (Hb1 : Body req1 = requestBody l messages).
  { subst req1 req0. by destruct (gzipCompression l). }
  unfold iobind, ioret, drawUuid, doRequest. destruct (indexAck l).
  - destruct (uuidNewRandom h) as [err|ch] eqn:Hu.
    { exists [IoUuid (inl err)]. split; [done|]. constructor. by right. }
    simpl. destruct (clientDo _ _) as [err|resp] eqn:Hdo; simpl.
    + exists ([IoUuid (inr ch)] ++ [IoHttp (headerSet "X-Splunk-Request-Channel" ch req1) (inl err)]).
      split; [by rewrite <- app_assoc|]. apply attempt_transport; [done|eauto].
    + exists ([IoUuid (inr ch)] ++ [IoHttp (headerSet "X-Splunk-Request-Channel" ch req1) (inr resp)]).
      split.
      * rewrite <- app_assoc. simpl.
        by destruct (bool_decide _); [destruct (readAllLimited _ _)|].
      * replace (_.1) with (responseError resp).
        { apply attempt_answered; [done|eauto]. }
        unfold responseError.
        by destruct (bool_decide _); [destruct (readAllLimited _ _)|].
  - simpl. destruct (clientDo _ _) as [err|resp] eqn:Hdo; simpl.
    + exists ([] ++ [IoHttp req1 (inl err)]). split; [done|].
      apply attempt_transport; [done|eauto].
    + exists ([] ++ [IoHttp req1 (inr resp)]). split.
      * by destruct (bool_decide _); [destruct (readAllLimited _ _)|].
      * replace (_.1) with (responseError resp).
        { apply attempt_answered; [done|eauto]. }
        unfold responseError.
        by destruct (bool_decide _); [destruct (readAllLimited _ _)|].
Qed.

End SenderShape.

Section AttemptFacts.
Context `{GoLib}.

Lemma responseError_None resp : responseError resp = None <-> StatusCode resp = StatusOK.
Proof.
  unfold responseError. case_bool_decide as Hs.
  - destruct (readAllLimited _ _); split; (done || by intros ?).
  - split; [intros _|done]. by destruct (decide (StatusCode resp = StatusOK)).
Qed.

Lemma attempt_no_error_entries l messages r d :
  attempt l messages r d -> errorEntries d = [].
Proof.
  unfold errorEntries.
  destruct 1 as [err d [->| ->]|req err draw _ [->|[ch ->]]|req resp draw _ [->|[ch ->]]];
    done.
Qed.

Lemma attempt_success l messages d :
  attempt l messages None d -> okBodies d = [requestBody l messages].
Proof.
  inversion 1 as [| |req resp draw Hbody Hdraw Hr Hd].
  apply responseError_None in Hr.
  unfold okBodies. rewrite omap_app.
  replace (omap okBody [IoHttp req (inr resp)]) with [requestBody l messages].
  2:{ simpl. by rewrite bool_decide_eq_true_2, Hbody. }
  by destruct Hdraw as [->|[ch ->]].
Qed.

Lemma attempt_failure l messages err d :
  attempt l messages (Some err) d -> okBodies d = [].
Proof.
  inversion 1 as [? ? [->| ->]|req err' draw _ Hdraw|req resp draw _ Hdraw Hr Hd]; try done.
  - unfold okBodies. rewrite omap_app. by destruct Hdraw as [->|[ch ->]].
  - assert (StatusCode resp <> StatusOK) as Hs.
    { intros Hs. apply responseError_None in Hs. congruence. }
    unfold okBodies. rewrite omap_app.
    replace (omap okBody [IoHttp req (inr resp)]) with (@nil string).
    2:{ simpl. by rewrite bool_decide_eq_false_2. }
    by destruct Hdraw as [->|[ch ->]].
Qed.

(** What a call of [tryPostMessages] leaves in the history, whatever the
    set of records. *)
Lemma tryPostMessages_account l messages h r h' :
  tryPostMessages l messages h = (r, h') ->
  exists d, h' = h ++ d /\ errorEntries d = [] /\
    match r with
    | None => (messages = [] /\ d = []) \/
              (messages <> [] /\ okBodies d = [requestBody l messages])
    | Some _ => messages <> [] /\ okBodies d = []
    end.
Proof.
  intros Hrun. destruct messages as [|m messages].
  - rewrite tryPostMessages_nil in Hrun. injection Hrun as <- <-.
    exists []. rewrite app_nil_r. auto.
  - destruct (tryPostMessages_attempt l (m :: messages) h) as (d & Hh & Hat); [done|].
    rewrite Hrun in Hh, Hat. simpl in Hh, Hat. exists d.
    split; [done|]. split; [by eapply attempt_no_error_entries|].
    destruct r as [err|].
    + split; [done|]. by eapply attempt_failure.
    + right. split; [done|]. by eapply attempt_success.
Qed.

End AttemptFacts.

(** ** The flush: [postMessages] *)

Section FlushRounds.
Context `{GoLib}.
Variable l : splunkLogger.
Variable messages : list splunkMessage.
Hypothesis batchSize_int : intRange (postMessagesBatchSize l).
Hypothesis messages_fit : fitsInMemory messages.

Local Abbreviation bs := (postMessagesBatchSize l).

Lemma len_nonneg {A} (s : list A) : 0 <= len s.
Proof. unfold len. lia. Qed.

Lemma int_add_small a b :
  int_min <= a + b <= int_max -> int_add a b = a + b.
Proof. apply wrap64_exact. Qed.

Lemma logUnsent_run n j h :
  0 <= j -> j + Z.of_nat n <= len messages ->
  logUnsent n messages j h =
  (Done tt, h ++ ((fun m => IoLog (failedEntry m)) <$> take n (drop (Z.to_nat j) messages))).
Proof.
  revert j h. induction n as [|n IH]; intros j h Hj Hn.
  - simpl. by rewrite app_nil_r.
  - simpl. rewrite bool_decide_eq_true_2 by done.
    destruct (messages !! Z.to_nat j) as [m|] eqn:Hm.
    2:{ apply lookup_ge_None in Hm. unfold len in Hn. lia. }
    unfold iobind, logWrite, emit.
    assert (int_add j 1 = j + 1) as ->.
    { apply int_add_small. unfold fitsInMemory, int_min, int_max in *. lia. }
    rewrite IH by lia. f_equal.
    rewrite (drop_S _ _ _ Hm). simpl. rewrite <- app_assoc. simpl.
    repeat f_equal. lia.
Qed.

Lemma round_exit fuel lastChance i h :
  len messages <= i ->
  postMessagesFrom (S fuel) l messages lastChance i h = (Done [], h).
Proof.
  intros Hi. simpl. rewrite bool_decide_eq_false_2 by lia. unfold ioret.
  rewrite slice_Done; [done|lia|lia|apply len_nonneg].
Qed.

Lemma round_sent fuel lastChance i h chunk h' :
  i < len messages ->
  slice messages i (upperBoundAt l messages i) = Done chunk ->
  tryPostMessages l chunk h = (None, h') ->
  postMessagesFrom (S fuel) l messages lastChance i h =
  postMessagesFrom fuel l messages lastChance (int_add i bs) h'.
Proof.
  intros Hi Hchunk Hsend. simpl. rewrite bool_decide_eq_true_2 by done.
  rewrite Hchunk. unfold iobind at 1. by rewrite Hsend.
Qed.

Lemma round_failed fuel lastChance i h chunk err h1 :
  i < len messages ->
  slice messages i (upperBoundAt l messages i) = Done chunk ->
  tryPostMessages l chunk h = (Some err, h1) ->
  postMessagesFrom (S fuel) l messages lastChance i h =
  if bool_decide (len messages - i >= bufferMaximum l) || lastChance then
    let upper := if lastChance then len messages else upperBoundAt l messages i in
    (Done (drop (Z.to_nat upper) messages),
     h1 ++ [IoLog (sendWarning err)] ++ unsentEntries messages i upper)
  else (Done (drop (Z.to_nat i) messages), h1 ++ [IoLog (sendWarning err)]).
Proof.
  intros Hi Hchunk Hsend. simpl. rewrite bool_decide_eq_true_2 by done.
  rewrite Hchunk. unfold iobind at 1. rewrite Hsend.
  apply slice_inv in Hchunk as (Hi0 & Hiu & Hul & _).
  assert (int_sub (len messages) i = len messages - i) as ->.
  { apply wrap64_exact. unfold fitsInMemory, int_min, int_max in *. lia. }
  unfold iobind, logWrite, emit, ioret.
  destruct (bool_decide (len messages - i >= bufferMaximum l) || lastChance).
  - set (upper := if lastChance then len messages else upperBoundAt l messages i).
    assert (i <= upper <= len messages) as Hup.
    { subst upper. destruct lastChance; lia. }
    rewrite logUnsent_run by lia.
    rewrite slice_to_end by lia. by rewrite <- app_assoc.
  - by rewrite slice_to_end by lia.
Qed.

Lemma round_panic fuel lastChance i h why :
  i < len messages ->
  slice messages i (upperBoundAt l messages i) = Panic why ->
  postMessagesFrom (S fuel) l messages lastChance i h = (Panic why, h).
Proof.
  intros Hi Hchunk. simpl. rewrite bool_decide_eq_true_2 by done.
  by rewrite Hchunk.
Qed.

Lemma roundStart_add i :
  roundStart l i -> i < len messages -> int_add i bs = i + bs.
Proof.
  intros [->|[Hb Hi]] Hlen; apply int_add_small.
  - unfold intRange in *. lia.
  - unfold fitsInMemory, int_min, int_max in *. lia.
Qed.

Lemma upperBoundAt_min i :
  roundStart l i -> i < len messages ->
  upperBoundAt l messages i = Z.min (i + bs) (len messages).
Proof.
  intros Hs Hi. unfold upperBoundAt. rewrite roundStart_add by done.
  case_bool_decide; lia.
Qed.

(** A chunk exists exactly when the batch size is not negative, and it
    is not empty exactly when the batch size is positive. *)
Lemma chunk_exists i chunk :
  roundStart l i -> i < len messages ->
  slice messages i (upperBoundAt l messages i) = Done chunk ->
  0 <= i /\ 0 <= bs /\
  chunk = take (Z.to_nat (Z.min bs (len messages - i))) (drop (Z.to_nat i) messages).
Proof.
  intros Hs Hi Hchunk. apply slice_inv in Hchunk as (Hi0 & Hiu & Hul & ->).
  rewrite upperBoundAt_min in * by done.
  split; [done|]. split; [lia|]. do 2 f_equal. lia.
Qed.

Lemma chunk_nonempty i chunk :
  roundStart l i -> i < len messages ->
  slice messages i (upperBoundAt l messages i) = Done chunk ->
  chunk <> [] -> 0 < bs.
Proof.
  intros Hs Hi Hchunk Hne.
  destruct (chunk_exists i chunk Hs Hi Hchunk) as (Hi0 & Hb & ->).
  destruct (decide (bs = 0)) as [Hz|]; [|lia].
  rewrite Hz in Hne. by rewrite Z.min_l in Hne by lia.
Qed.

Lemma roundStart_next i chunk :
  roundStart l i -> i < len messages ->
  slice messages i (upperBoundAt l messages i) = Done chunk ->
  roundStart l (int_add i bs).
Proof.
  intros Hs Hi Hchunk. rewrite roundStart_add by done.
  destruct (chunk_exists i chunk Hs Hi Hchunk) as (Hi0 & Hb & _).
  unfold roundStart in *. lia.
Qed.

Lemma take_chunk i :
  0 <= i -> 0 <= bs -> i < len messages ->
  take (Z.to_nat (i + bs)) messages =
  take (Z.to_nat i) messages ++
  take (Z.to_nat (Z.min bs (len messages - i))) (drop (Z.to_nat i) messages).
Proof.
  intros Hi Hb Hlen. rewrite take_take_drop.
  destruct (decide (bs <= len messages - i)).
  - f_equal. lia.
  - rewrite !take_ge; [done| |]; unfold len in *; lia.
Qed.

(** What is known when round [i] is reached: the rounds before it were
    whole batches, each one a request the remote accepted, and nothing
    was written to the log at error level. *)
Lemma reachesRound_facts h0 i h :
  reachesRound l messages h0 i h ->
  roundStart l i /\ 0 <= i /\
  exists (k : nat) (sent : list (list splunkMessage)) (d : history),
    i = Z.of_nat k * bs /\
    (forall fuel lastChance,
        postMessagesFrom (k + fuel) l messages lastChance 0 h0 =
        postMessagesFrom fuel l messages lastChance i h) /\
    h = h0 ++ d /\ errorEntries d = [] /\
    okBodies d = requestBody l <$> sent /\
    take (Z.to_nat i) messages = concat sent /\
    Forall (fun c => c <> [] /\ len c <= bs) sent.
Proof.
  induction 1 as [|i h chunk h' Hreach IH Hi Hchunk Hsend].
  - split; [by left|]. split; [done|]. exists 0%nat, [], [].
    rewrite app_nil_r. repeat split; done.
  - destruct IH as (Hs & Hi0 & k & sent & d & Hk & Hfuel & Hh & Herr & Hok & Htake & Hall).
    split; [by eapply roundStart_next|].
    destruct (chunk_exists i chunk Hs Hi Hchunk) as (_ & Hb & Hc).
    rewrite roundStart_add by done. split; [lia|].
    assert (Hfuel' : forall fuel lastChance,
      postMessagesFrom (S k + fuel) l messages lastChance 0 h0 =
      postMessagesFrom fuel l messages lastChance (i + bs) h').
    { intros fuel lastChance. replace (S k + fuel)%nat with (k + S fuel)%nat by lia.
      rewrite Hfuel. rewrite <- (roundStart_add i) by done.
      by eapply round_sent. }
    apply tryPostMessages_account in Hsend as (d1 & Hh' & Herr1 & Hcase).
    destruct Hcase as [[Hnil ->]|[Hne Hok1]].
    + (* an empty chunk: the batch size is zero and nothing moved *)
      assert (bs = 0) as Hz.
      { destruct (decide (bs = 0)) as [|Hnz]; [done|]. exfalso.
        rewrite Hnil in Hc. symmetry in Hc. apply (f_equal length) in Hc.
        rewrite length_take, length_drop in Hc. simpl in Hc. unfold len in *. lia. }
      exists (S k), sent, d. rewrite app_nil_r in Hh'.
      rewrite Hz, Z.add_0_r in *. repeat split; try done; [lia|congruence].
    + exists (S k), (sent ++ [chunk]), (d ++ d1).
      split; [lia|]. split; [done|].
      split; [by rewrite Hh', Hh, app_assoc|].
      split; [by rewrite errorEntries_app, Herr, Herr1|].
      split; [by rewrite okBodies_app, Hok, Hok1, fmap_app|].
      split.
      * rewrite concat_app, <- Htake. simpl. rewrite app_nil_r, Hc.
        by apply take_chunk.
      * apply Forall_app. split; [done|]. constructor; [|done]. split; [done|].
        rewrite Hc. unfold len. rewrite length_take. lia.
Qed.

Lemma drop_chunk i :
  0 <= i -> 0 <= bs -> i < len messages ->
  drop (Z.to_nat i) messages =
  take (Z.to_nat (Z.min bs (len messages - i))) (drop (Z.to_nat i) messages) ++
  drop (Z.to_nat (i + bs)) messages.
Proof.
  intros Hi Hb Hlen.
  rewrite <- (take_drop (Z.to_nat (Z.min bs (len messages - i)))
                        (drop (Z.to_nat i) messages)) at 1.
  f_equal. rewrite drop_drop.
  destruct (decide (bs <= len messages - i)).
  - f_equal. lia.
  - rewrite !drop_ge; [done| |]; unfold len in *; lia.
Qed.

Lemma failedEntry_level m : entryLevel (failedEntry m) = ErrorLevel.
Proof. unfold failedEntry. by destruct (jsonMarshal m). Qed.

Lemma errorEntries_unsent i upper :
  errorEntries (unsentEntries messages i upper) =
  failedEntry <$> take (Z.to_nat (upper - i)) (drop (Z.to_nat i) messages).
Proof.
  unfold unsentEntries, errorEntries.
  induction (take _ _) as [|m ms IH]; [done|].
  rewrite !fmap_cons. simpl. rewrite failedEntry_level. simpl. by f_equal.
Qed.

Lemma okBodies_unsent i upper : okBodies (unsentEntries messages i upper) = [].
Proof.
  unfold unsentEntries, okBodies. by induction (take _ _) as [|m ms IH].
Qed.

(** With a positive batch size a chunk always exists. *)
Lemma chunk_Done i :
  0 < bs -> roundStart l i -> 0 <= i -> i < len messages ->
  exists chunk, slice messages i (upperBoundAt l messages i) = Done chunk.
Proof.
  intros Hb Hs Hi0 Hi. rewrite upperBoundAt_min by done.
  rewrite slice_Done by lia. eauto.
Qed.

(** With a positive batch size the loop returns, given one unit of fuel
    for each batch that is left and one for the exit. *)
Lemma postMessagesFrom_total fuel lastChance i h :
  0 < bs -> roundStart l i -> 0 <= i ->
  len messages - i <= Z.of_nat fuel * bs ->
  exists rest h', postMessagesFrom (S fuel) l messages lastChance i h = (Done rest, h').
Proof.
  intros Hb. revert i h. induction fuel as [|fuel IH]; intros i h Hs Hi0 Hfuel.
  - rewrite round_exit by lia. eauto.
  - destruct (decide (len messages <= i)) as [|Hi]; [rewrite round_exit by lia; eauto|].
    destruct (chunk_Done i) as [chunk Hchunk]; [done..|lia|].
    destruct (tryPostMessages l chunk h) as [[err|] h1] eqn:Hsend.
    + erewrite round_failed by (done || lia).
      destruct (_ || _); eauto.
    + erewrite round_sent by (done || lia).
      apply IH.
      * eapply roundStart_next; [done| |done]. lia.
      * rewrite roundStart_add by (done || lia). lia.
      * rewrite roundStart_add by (done || lia). lia.
Qed.

(** Every record from round [i] on ends in exactly one of three places:
    a request the remote accepted, an error entry of the log, or the
    buffer that is returned. *)
Lemma postMessagesFrom_account fuel lastChance i h rest h' :
  roundStart l i -> 0 <= i ->
  postMessagesFrom fuel l messages lastChance i h = (Done rest, h') ->
  exists (sent : list (list splunkMessage)) (dropped : list splunkMessage) (d : history),
    drop (Z.to_nat i) messages = concat sent ++ dropped ++ rest /\
    h' = h ++ d /\
    okBodies d = requestBody l <$> sent /\
    errorEntries d = failedEntry <$> dropped /\
    Forall (fun c => c <> [] /\ len c <= bs) sent.
Proof.
  revert i h. induction fuel as [|fuel IH]; intros i h Hs Hi0 Hrun; [done|].
  destruct (decide (len messages <= i)) as [Hge|Hi].
  { rewrite round_exit in Hrun by done. injection Hrun as <- <-.
    exists [], [], []. rewrite !app_nil_r.
    split; [|done]. apply drop_ge. unfold len in *. lia. }
  assert (i < len messages) as Hlt by lia.
  destruct (slice messages i (upperBoundAt l messages i)) as [chunk|why|] eqn:Hchunk.
  2:{ by rewrite (round_panic _ _ _ _ why) in Hrun. }
  2:{ by apply slice_not_Diverge in Hchunk. }
  destruct (chunk_exists i chunk Hs Hlt Hchunk) as (_ & Hb & Hc).
  destruct (tryPostMessages l chunk h) as [[err|] h1] eqn:Hsend.
  - (* the send fails: the loop ends here *)
    rewrite (round_failed _ _ _ _ chunk err h1) in Hrun by done.
    apply tryPostMessages_account in Hsend as (d1 & -> & Herr1 & _ & Hok1).
    destruct (_ || _).
    + set (upper := if lastChance then len messages else upperBoundAt l messages i) in *.
      assert (i <= upper <= len messages) as Hup.
      { subst upper. rewrite upperBoundAt_min by done. destruct lastChance; lia. }
      simpl in Hrun. injection Hrun as <- <-.
      exists [], (take (Z.to_nat (upper - i)) (drop (Z.to_nat i) messages)),
             (d1 ++ [IoLog (sendWarning err)] ++ unsentEntries messages i upper).
      split.
      { simpl. rewrite <- (take_drop (Z.to_nat (upper - i)) (drop _ messages)) at 1.
        f_equal. rewrite drop_drop. f_equal. lia. }
      split; [by rewrite <- !app_assoc|].
      split; [by rewrite !okBodies_app, Hok1, okBodies_unsent|].
      split; [|done].
      by rewrite !errorEntries_app, Herr1, errorEntries_unsent.
    + injection Hrun as <- <-.
      exists [], [], (d1 ++ [IoLog (sendWarning err)]).
      split; [done|]. split; [by rewrite <- app_assoc|].
      split; [by rewrite okBodies_app, Hok1|].
      split; [|done]. by rewrite errorEntries_app, Herr1.
  - (* the send succeeds: the loop goes on with the next round *)
    rewrite (round_sent _ _ _ _ chunk h1) in Hrun by done.
    rewrite roundStart_add in Hrun by done.
    apply IH in Hrun as (sent & dropped & d & Hdrop & -> & Hok & Herr & Hall).
    2:{ rewrite <- (roundStart_add i) by done. by eapply roundStart_next. }
    2:{ lia. }
    apply tryPostMessages_account in Hsend as (d1 & -> & Herr1 & Hcase).
    destruct Hcase as [[Hnil ->]|[Hne Hok1]].
    + exists sent, dropped, d. rewrite app_nil_r. repeat split; try done.
      rewrite (drop_chunk i), <- Hc, Hnil by done. done.
    + exists (chunk :: sent), dropped, (d1 ++ d).
      split.
      { rewrite (drop_chunk i), <- Hc, Hdrop by done. simpl. by rewrite <- app_assoc. }
      split; [by rewrite app_assoc|].
      split; [by rewrite okBodies_app, Hok1, Hok|].
      split; [by rewrite errorEntries_app, Herr1, Herr|].
      constructor; [|done]. split; [done|].
      rewrite Hc. unfold len. rewrite length_take. lia.
Qed.

(** A send can only fail on a chunk that holds a record, so the batch
    size is positive at a failure. *)
Lemma failsAt_positive h0 i err h1 :
  failsAt l messages h0 i err h1 -> 0 < bs /\ 0 <= i /\ roundStart l i.
Proof.
  intros (h & chunk & Hreach & Hi & Hchunk & Hsend).
  destruct (reachesRound_facts h0 i h Hreach) as (Hs & Hi0 & _).
  apply tryPostMessages_account in Hsend as (d & _ & _ & Hne & _).
  split; [by eapply chunk_nonempty|done].
Qed.

(** The whole flush, from the round where a send fails. *)
Lemma postMessages_at_failure lastChance h0 i err h1 :
  failsAt l messages h0 i err h1 ->
  postMessages l messages lastChance h0 =
  if bool_decide (len messages - i >= bufferMaximum l) || lastChance then
    let upper := if lastChance then len messages else upperBoundAt l messages i in
    (Done (drop (Z.to_nat upper) messages),
     h1 ++ [IoLog (sendWarning err)] ++ unsentEntries messages i upper)
  else (Done (drop (Z.to_nat i) messages), h1 ++ [IoLog (sendWarning err)]).
Proof.
  intros Hfail. destruct (failsAt_positive _ _ _ _ Hfail) as (Hb & Hi0 & _).
  destruct Hfail as (h & chunk & Hreach & Hi & Hchunk & Hsend).
  destruct (reachesRound_facts h0 i h Hreach)
    as (_ & _ & k & _ & _ & Hk & Hfuel & _).
  assert (k < length messages)%nat as Hklen.
  { unfold len in Hi. nia. }
  unfold postMessages.
  replace (S (length messages)) with (k + S (length messages - k))%nat by lia.
  rewrite Hfuel. by eapply round_failed.
Qed.

Lemma postMessages_total lastChance h :
  0 < bs ->
  exists rest h', postMessages l messages lastChance h = (Done rest, h').
Proof.
  intros Hb. apply postMessagesFrom_total; [done|by left|done|].
  unfold len. nia.
Qed.

(** With a batch size of zero the loop sends the empty chunk at offset
    zero for ever: no amount of fuel gives an answer. *)
Lemma postMessages_zero_batch fuel lastChance h :
  bs = 0 -> messages <> [] ->
  postMessagesFrom fuel l messages lastChance 0 h = (Diverge, h).
Proof.
  intros Hz Hne. induction fuel as [|fuel IH]; [done|].
  assert (0 < len messages) as Hlen.
  { unfold len. destruct messages; [done|simpl; lia]. }
  assert (upperBoundAt l messages 0 = 0) as Hup.
  { rewrite upperBoundAt_min by (done || by left). lia. }
  erewrite round_sent; [|done|by rewrite Hup, slice_Done by lia|done].
  by rewrite Hz.
Qed.

(** With a negative batch size the first chunk does not exist. *)
Lemma postMessages_negative_batch lastChance h :
  bs < 0 -> messages <> [] ->
  postMessages l messages lastChance h = (Panic "slice bounds out of range", h).
Proof.
  intros Hneg Hne.
  assert (0 < len messages) as Hlen.
  { unfold len. destruct messages; [done|simpl; lia]. }
  apply round_panic; [done|].
  rewrite upperBoundAt_min by (done || by left).
  unfold slice. rewrite bool_decide_eq_false_2; [done|lia].
Qed.

End FlushRounds.

(** ** The overflow and retry policy of the flush *)

(** The history between the start of a flush and a failed send holds no
    error entry, and its accepted requests are the records before the
    failure, batch by batch. *)
Lemma failsAt_history `{GoLib} l messages h0 i err h1 :
  intRange (postMessagesBatchSize l) -> fitsInMemory messages ->
  failsAt l messages h0 i err h1 ->
  exists sent d,
    h1 = h0 ++ d /\ errorEntries d = [] /\
    okBodies d = requestBody l <$> sent /\
    take (Z.to_nat i) messages = concat sent.
Proof.
  intros Hint Hfit (h & chunk & Hreach & Hi & Hchunk & Hsend).
  destruct (reachesRound_facts l messages Hint Hfit h0 i h Hreach)
    as (_ & _ & k & sent & d & _ & _ & -> & Herr & Hok & Htake & _).
  apply tryPostMessages_account in Hsend as (d1 & -> & Herr1 & _ & Hok1).
  exists sent, (d ++ d1). split; [by rewrite app_assoc|].
  split; [by rewrite errorEntries_app, Herr, Herr1|].
  split; [|done]. by rewrite okBodies_app, Hok, Hok1, app_nil_r.
Qed.

(** C1, as amended. When the send of the chunk that starts at [i] fails
    and either [lastChance] is set or at least [bufferMaximum] records
    are left from [i] on, the flush gives up the records from [i] to the
    end when [lastChance] is set, and otherwise only those of the failed
    chunk, from [i] up to [i + batchSize] (or the end, if that is nearer).
    Each of them gets one error entry in the daemon log, in order, and no
    other error entry is written; what follows the range is returned, which
    is the empty buffer when [lastChance] is set. *)
Theorem postMessages_overflow `{GoLib} (l : splunkLogger)
    (messages : list splunkMessage) (lastChance : bool)
    (h0 : history) (i : Z) (err : error) (h1 : history) :
  intRange (postMessagesBatchSize l) ->
  fitsInMemory messages ->
  messages <> [] ->
  failsAt l messages h0 i err h1 ->
  lastChance = true \/ len messages - i >= bufferMaximum l ->
  let upper := if lastChance then len messages
               else Z.min (i + postMessagesBatchSize l) (len messages) in
  let dropped := take (Z.to_nat (upper - i)) (drop (Z.to_nat i) messages) in
  exists d,
    postMessages l messages lastChance h0 = (Done (drop (Z.to_nat upper) messages), h0 ++ d) /\
    errorEntries d = failedEntry <$> dropped /\
    length dropped = Z.to_nat (upper - i) /\
    i < upper <= len messages /\
    (lastChance = true -> drop (Z.to_nat upper) messages = []).
Proof.
  intros Hint Hfit _ Hfail Hcond upper dropped.
  destruct (failsAt_positive l messages Hint Hfit _ _ _ _ Hfail) as (Hb & Hi0 & Hs).
  destruct (failsAt_history l messages h0 i err h1 Hint Hfit Hfail)
    as (sent & d & -> & Herr & _ & _).
  pose proof Hfail as (_ & _ & _ & Hi & _ & _).
  rewrite (postMessages_at_failure l messages Hint Hfit lastChance h0 i err _ Hfail).
  assert ((bool_decide (len messages - i >= bufferMaximum l) || lastChance) = true) as ->.
  { destruct Hcond as [->|Hge]; [by rewrite orb_true_r|].
    by rewrite bool_decide_eq_true_2. }
  rewrite (upperBoundAt_min l messages Hint Hfit i Hs Hi). fold upper. simpl.
  assert (i < upper <= len messages) as Hup.
  { subst upper. destruct lastChance; lia. }
  exists (d ++ [IoLog (sendWarning err)] ++ unsentEntries messages i upper).
  split; [by rewrite <- !app_assoc|].
  split; [by rewrite !errorEntries_app, Herr, errorEntries_unsent|].
  split.
  { subst dropped. rewrite length_take, length_drop. unfold len in *. lia. }
  split; [done|].
  intros ->. subst upper. apply drop_ge. unfold len. lia.
Qed.

Lemma refusing_fails_first (bufferMax : Z) (messages : list splunkMessage) :
  failsAt (H := refusing) (fixtureLogger 2 bufferMax false)
          ([record "1"; record "2"] ++ messages) [] 0 refusedError refusedTwo.2.
Proof.
  exists [], [record "1"; record "2"].
  split; [constructor|]. split; [unfold len; simpl; lia|].
  split; [|done].
  unfold upperBoundAt. simpl postMessagesBatchSize.
  change (int_add 0 2) with 2.
  rewrite bool_decide_eq_false_2 by (unfold len; simpl; lia).
  rewrite slice_Done; [done|lia|lia|unfold len; simpl; lia].
Qed.

Lemma fourRecords_fit : fitsInMemory fourRecords.
Proof. by vm_compute. Qed.

Lemma fixture_batch_int (bufferMax : Z) (gzip : bool) :
  intRange (postMessagesBatchSize (fixtureLogger 2 bufferMax gzip)).
Proof. by vm_compute. Qed.

(** Four records, batches of two, a buffer maximum of four, a remote that
    refuses: the first batch is logged and the second is kept. *)
Lemma postMessages_overflow_witness :
  exists d,
    postMessages (H := refusing) (fixtureLogger 2 4 false) fourRecords false [] =
      (Done [record "3"; record "4"], [] ++ d) /\
    errorEntries d = failedEntry (H := refusing) <$> [record "1"; record "2"] /\
    length [record "1"; record "2"] = 2%nat /\
    0 < 2 <= 4 /\
    (false = true -> [record "3"; record "4"] = []).
Proof.
  apply (postMessages_overflow (H := refusing) (fixtureLogger 2 4 false)
           fourRecords false [] 0 refusedError refusedTwo.2).
  - apply fixture_batch_int.
  - apply fourRecords_fit.
  - done.
  - apply (refusing_fails_first 4 [record "3"; record "4"]).
  - right. vm_compute. discriminate.
Defined.

(** C1 as the specification words it fails on the same run: it asks for
    all four records ([bufferMaximum] of them) to be logged and for the
    empty buffer, where the code logs two and keeps two. *)
Lemma postMessages_overflow_not_as_specified :
  ~ overflowAsSpecified refusing (fixtureLogger 2 4 false) fourRecords false [] 0.
Proof.
  intros Hspec.
  destruct (Hspec refusedError refusedTwo.2) as (d & Hpost & _).
  - done.
  - apply (refusing_fails_first 4 [record "3"; record "4"]).
  - right. vm_compute. discriminate.
  - vm_compute in Hpost. discriminate.
Qed.

(** C2. Outside the last chance, when the send of the chunk that starts
    at [i] fails and fewer than [bufferMaximum] records are left from [i]
    on, the flush stops there and returns the records from [i] on, as they
    were and in their order. No error entry is written, so no record is
    logged as given up, and the records before [i] are exactly those of
    the requests the remote accepted. *)
Theorem postMessages_retry `{GoLib} (l : splunkLogger)
    (messages : list splunkMessage)
    (h0 : history) (i : Z) (err : error) (h1 : history) :
  intRange (postMessagesBatchSize l) ->
  fitsInMemory messages ->
  failsAt l messages h0 i err h1 ->
  len messages - i < bufferMaximum l ->
  exists sent d,
    postMessages l messages false h0 = (Done (drop (Z.to_nat i) messages), h0 ++ d) /\
    errorEntries d = [] /\
    okBodies d = requestBody l <$> sent /\
    messages = concat sent ++ drop (Z.to_nat i) messages.
Proof.
  intros Hint Hfit Hfail Hroom.
  destruct (failsAt_history l messages h0 i err h1 Hint Hfit Hfail)
    as (sent & d & -> & Herr & Hok & Htake).
  rewrite (postMessages_at_failure l messages Hint Hfit false h0 i err _ Hfail).
  rewrite bool_decide_eq_false_2 by lia. simpl.
  exists sent, (d ++ [IoLog (sendWarning err)]).
  split; [by rewrite <- app_assoc|].
  split; [by rewrite errorEntries_app, Herr|].
  split; [by rewrite okBodies_app, Hok, app_nil_r|].
  by rewrite <- Htake, take_drop.
Qed.

(** Four records, batches of two, a buffer maximum of five, a remote that
    refuses: all four records come back. *)
Lemma postMessages_retry_witness :
  exists sent d,
    postMessages (H := refusing) (fixtureLogger 2 5 false) fourRecords false [] =
      (Done fourRecords, [] ++ d) /\
    errorEntries d = [] /\
    okBodies d = requestBody (H := refusing) (fixtureLogger 2 5 false) <$> sent /\
    fourRecords = concat sent ++ fourRecords.
Proof.
  apply (postMessages_retry (H := refusing) (fixtureLogger 2 5 false)
           fourRecords [] 0 refusedError refusedTwo.2).
  - apply fixture_batch_int.
  - apply fourRecords_fit.
  - apply (refusing_fails_first 5 [record "3"; record "4"]).
  - by vm_compute.
Defined.

(** C10. Whatever the remote answers, a flush that returns hands back a
    suffix of its input: the input is the records of the accepted
    requests, batch by batch, then the records given up, then the records
    returned, in the order they came in. The accepted requests and the
    error entries of the log are exactly those two groups, so every record
    is in one place and one only. With a positive batch size the flush
    always returns. *)
Theorem postMessages_accounting `{GoLib} (l : splunkLogger)
    (messages : list splunkMessage) (lastChance : bool) (h : history) :
  intRange (postMessagesBatchSize l) ->
  fitsInMemory messages ->
  (0 < postMessagesBatchSize l ->
   exists rest h', postMessages l messages lastChance h = (Done rest, h')) /\
  (forall rest h',
     postMessages l messages lastChance h = (Done rest, h') ->
     rest `suffix_of` messages /\
     exists (sent : list (list splunkMessage)) (dropped : list splunkMessage) (d : history),
       messages = concat sent ++ dropped ++ rest /\
       h' = h ++ d /\
       okBodies d = requestBody l <$> sent /\
       errorEntries d = failedEntry <$> dropped /\
       Forall (fun c => c <> [] /\ len c <= postMessagesBatchSize l) sent).
Proof.
  intros Hint Hfit. split.
  - by apply postMessages_total.
  - intros rest h' Hrun.
    apply (postMessagesFrom_account l messages Hint Hfit) in Hrun
      as (sent & dropped & d & Hdrop & Hrest); [|by left|done].
    simpl in Hdrop. split; [|by exists sent, dropped, d].
    exists (concat sent ++ dropped). by rewrite <- app_assoc.
Qed.

Lemma postMessages_accounting_witness :
  (0 < 2 ->
   exists rest h',
     postMessages (H := refusing) (fixtureLogger 2 4 false) fourRecords false [] =
       (Done rest, h')) /\
  (forall rest h',
     postMessages (H := refusing) (fixtureLogger 2 4 false) fourRecords false [] =
       (Done rest, h') ->
     rest `suffix_of` fourRecords /\
     exists sent dropped d,
       fourRecords = concat sent ++ dropped ++ rest /\
       h' = [] ++ d /\
       okBodies d = requestBody (H := refusing) (fixtureLogger 2 4 false) <$> sent /\
       errorEntries d = failedEntry (H := refusing) <$> dropped /\
       Forall (fun c => c <> [] /\ len c <= 2) sent).
Proof.
  apply (postMessages_accounting (H := refusing) (fixtureLogger 2 4 false)
           fourRecords false []).
  - apply fixture_batch_int.
  - apply fourRecords_fit.
Defined.

(** ** The outcome of one delivery *)

Section Delivery.
Context `{GoLib}.

Lemma substring_all (n : nat) (s : string) :
  (String.length s <= n)%nat -> substring 0 n s = s.
Proof.
  revert n. induction s as [|ch s IH]; intros [|n] Hn; simpl in *; try done; try lia.
  f_equal. apply IH. lia.
Qed.

Lemma readAllLimited_cases resp :
  readAllLimited resp maxResponseSize =
  match bodyReadError resp with
  | Some err => inl err
  | None => inr (truncatedBody resp)
  end.
Proof.
  unfold readAllLimited, bodyReadError, truncatedBody. case_bool_decide as Hlen; [done|].
  destruct (RespBodyErr resp); [done|].
  rewrite substring_all; [done|]. unfold maxResponseSize in *. lia.
Qed.

Lemma truncatedBody_length resp :
  Z.of_nat (String.length (truncatedBody resp)) <= maxResponseSize.
Proof.
  unfold truncatedBody.
  pose proof (substring_length_le (Z.to_nat maxResponseSize) (RespBody resp)).
  unfold maxResponseSize in *. lia.
Qed.

Lemma issued_app {A} (c : IO A) h d : (c h).2 = h ++ d -> issued c h = d.
Proof. intros Hd. unfold issued. by rewrite Hd, drop_app_length. Qed.

(** The answered requests of an attempt: at most one, the last event. *)
Lemma attempt_answer l messages r d req resp :
  attempt l messages r d ->
  IoHttp req (inr resp) ∈ d ->
  r = responseError resp /\ Body req = requestBody l messages.
Proof.
  destruct 1 as [err d [->| ->]|req' err draw Hb [->|[ch ->]]|req' resp' draw Hb [->|[ch ->]]];
    rewrite ?elem_of_app, ?elem_of_cons, ?elem_of_nil; intros Hin;
    decompose [or] Hin; simplify_eq; done.
Qed.

Lemma attempt_request l messages r d req res :
  attempt l messages r d ->
  IoHttp req res ∈ d -> Body req = requestBody l messages.
Proof.
  destruct 1 as [err d [->| ->]|req' err draw Hb [->|[ch ->]]|req' resp' draw Hb [->|[ch ->]]];
    rewrite ?elem_of_app, ?elem_of_cons, ?elem_of_nil; intros Hin;
    decompose [or] Hin; simplify_eq; done.
Qed.

Lemma attempt_success_answer l messages d :
  attempt l messages None d ->
  exists req resp, IoHttp req (inr resp) ∈ d /\ StatusCode resp = StatusOK.
Proof.
  inversion 1 as [| |req resp draw Hbody Hdraw Hr Hd].
  exists req, resp. split; [|by apply responseError_None].
  apply elem_of_app. right. by apply list_elem_of_singleton.
Qed.

End Delivery.

(** C7, as amended. On no records the send succeeds and makes no request.
    On a non-empty set of records it succeeds exactly when a response
    arrives whose status is 200. On a response with any other status it
    returns an error: when the first 1024 bytes of the body can be read,
    the error carries the status and those bytes, at most 1024 of them;
    when the body breaks off before, the error is that of the read. *)
Theorem tryPostMessages_status `{GoLib} (l : splunkLogger)
    (messages : list splunkMessage) (h : history) :
  (messages = [] -> tryPostMessages l messages h = (None, h)) /\
  (messages <> [] ->
   ((tryPostMessages l messages h).1 = None <->
    exists req resp,
      IoHttp req (inr resp) ∈ issued (tryPostMessages l messages) h /\
      StatusCode resp = StatusOK) /\
   (forall req resp,
      IoHttp req (inr resp) ∈ issued (tryPostMessages l messages) h ->
      StatusCode resp <> StatusOK ->
      (tryPostMessages l messages h).1 =
        Some (match bodyReadError resp with
              | Some err => err
              | None => sendError resp (truncatedBody resp)
              end) /\
      Z.of_nat (String.length (truncatedBody resp)) <= maxResponseSize)).
Proof.
  split; [by intros ->|]. intros Hne.
  destruct (tryPostMessages_attempt l messages h Hne) as (d & Hd & Hat).
  rewrite (issued_app _ _ _ Hd). split; [split|].
  - intros Hr. rewrite Hr in Hat. by eapply attempt_success_answer.
  - intros (req & resp & Hin & Hs).
    destruct (attempt_answer _ _ _ _ _ _ Hat Hin) as [-> _].
    by apply responseError_None.
  - intros req resp Hin Hs.
    destruct (attempt_answer _ _ _ _ _ _ Hat Hin) as [-> _].
    split; [|apply truncatedBody_length].
    unfold responseError. rewrite bool_decide_eq_true_2 by done.
    rewrite readAllLimited_cases. by destruct (bodyReadError resp).
Qed.

Lemma tryPostMessages_status_witness :
  ([record "1"] = [] ->
   tryPostMessages (H := refusing) (fixtureLogger 2 4 false) [record "1"] [] = (None, [])) /\
  ([record "1"] <> [] ->
   ((tryPostMessages (H := refusing) (fixtureLogger 2 4 false) [record "1"] []).1 = None <->
    exists req resp,
      IoHttp req (inr resp) ∈
        issued (tryPostMessages (H := refusing) (fixtureLogger 2 4 false) [record "1"]) [] /\
      StatusCode resp = StatusOK) /\
   (forall req resp,
      IoHttp req (inr resp) ∈
        issued (tryPostMessages (H := refusing) (fixtureLogger 2 4 false) [record "1"]) [] ->
      StatusCode resp <> StatusOK ->
      (tryPostMessages (H := refusing) (fixtureLogger 2 4 false) [record "1"] []).1 =
        Some (match bodyReadError resp with
              | Some err => err
              | None => sendError resp (truncatedBody resp)
              end) /\
      Z.of_nat (String.length (truncatedBody resp)) <= maxResponseSize)).
Proof.
  apply (tryPostMessages_status (H := refusing) (fixtureLogger 2 4 false) [record "1"] []).
Defined.

(** C7 as the specification words it fails when the body of a response
    with another status breaks off within its first 1024 bytes: the error
    returned is the error of the read, which says nothing of the body. *)
Lemma tryPostMessages_status_not_as_specified :
  ~ sendAsSpecified breaking (fixtureLogger 2 4 false) [record "1"] [].
Proof.
  intros [_ Hspec].
  destruct (Hspec ltac:(done)
              {| Method := "POST";
                 URL := "https://splunk.example:8088/services/collector/event/1.0";
                 Header := [("Authorization", "Splunk token")];
                 Body := "{1}" |}
              answer500_broken) as [_ Hbody].
  - vm_compute. by left.
  - specialize (Hbody ltac:(by vm_compute)). vm_compute in Hbody. discriminate.
Qed.

(** ** Compression *)

Section Compression.
Context `{GoLib}.

(** A compressor that refuses its level ends the send before any request. *)
Lemma tryPostMessages_bad_level l messages h err :
  gzipCompression l = true ->
  gzipNewWriterLevel (gzipCompressionLevel l) = Some err ->
  issued (tryPostMessages l messages) h = [].
Proof.
  intros Hgz Hlvl. apply issued_app. rewrite app_nil_r.
  unfold tryPostMessages, newBodyWriter. rewrite Hgz, Hlvl.
  by case_bool_decide.
Qed.

Lemma tryPostMessages_request_body l messages h req :
  req ∈ requestsOf (issued (tryPostMessages l messages) h) ->
  Body req = requestBody l messages.
Proof.
  intros Hin. destruct messages as [|m messages].
  { rewrite (issued_app (tryPostMessages l []) h []) in Hin
      by (by rewrite tryPostMessages_nil, app_nil_r).
    by apply elem_of_nil in Hin. }
  destruct (tryPostMessages_attempt l (m :: messages) h) as (d & Hd & Hat); [done|].
  rewrite (issued_app _ _ _ Hd) in Hin.
  apply list_elem_of_omap in Hin as (e & Hin & He).
  destruct e as [req' res| | | |]; simplify_eq/=.
  by eapply attempt_request.
Qed.

End Compression.

(** C8. Whenever the sender, with compression on, makes a request for a
    set of records, decompressing the body of that request gives the body
    of the request it makes for the same records with compression off,
    byte for byte, and that body is the concatenation of the JSON forms of
    the records. The compressor and its inverse are those of the library:
    what is assumed of them is that decompression undoes compression. *)
Theorem compressed_body_roundtrip `{GoLib} (gunzip : string -> option string)
    (l : splunkLogger) (messages : list splunkMessage)
    (h1 h2 : history) (req1 req2 : Request) :
  (forall lvl s, gzipNewWriterLevel lvl = None -> gunzip (gzipEncode lvl s) = Some s) ->
  gzipCompression l = true ->
  req1 ∈ requestsOf (issued (tryPostMessages l messages) h1) ->
  req2 ∈ requestsOf (issued (tryPostMessages (withoutGzip l) messages) h2) ->
  gunzip (Body req1) = Some (Body req2) /\ Body req2 = payload messages.
Proof.
  intros Hinv Hgz Hin1 Hin2.
  destruct (gzipNewWriterLevel (gzipCompressionLevel l)) as [err|] eqn:Hlvl.
  { rewrite (tryPostMessages_bad_level l messages h1 err Hgz Hlvl) in Hin1.
    by apply elem_of_nil in Hin1. }
  apply tryPostMessages_request_body in Hin1, Hin2.
  rewrite Hin1, Hin2. unfold requestBody. rewrite Hgz. simpl. split; [|done].
  by apply Hinv.
Qed.

Lemma fixtureGunzip_inverse (lvl : Z) (s : string) :
  gzipNewWriterLevel (GoLib := accepting) lvl = None ->
  fixtureGunzip (gzipEncode (GoLib := accepting) lvl s) = Some s.
Proof. done. Qed.

Lemma compressed_body_roundtrip_witness :
  fixtureGunzip "gz{1}{2}" = Some "{1}{2}" /\
  "{1}{2}" = payload (H := accepting) [record "1"; record "2"].
Proof.
  apply (compressed_body_roundtrip (H := accepting) fixtureGunzip
           (fixtureLogger 2 4 true) [record "1"; record "2"] [] []
           {| Method := "POST";
              URL := "https://splunk.example:8088/services/collector/event/1.0";
              Header := [("Authorization", "Splunk token"); ("Content-Encoding", "gzip")];
              Body := "gz{1}{2}" |}
           {| Method := "POST";
              URL := "https://splunk.example:8088/services/collector/event/1.0";
              Header := [("Authorization", "Splunk token")];
              Body := "{1}{2}" |}).
  - apply fixtureGunzip_inverse.
  - done.
  - vm_compute. by left.
  - vm_compute. by left.
Defined.

(** ** What a flush settles *)

Section FlushSettles.
Context `{GoLib}.
Variable l : splunkLogger.
Hypothesis batchSize_int : intRange (postMessagesBatchSize l).

(** The last flush keeps nothing. *)
Lemma postMessagesFrom_lastChance messages fuel i h rest h' :
  fitsInMemory messages ->
  roundStart l i -> 0 <= i ->
  postMessagesFrom fuel l messages true i h = (Done rest, h') ->
  rest = [].
Proof.
  intros Hfit. revert i h. induction fuel as [|fuel IH]; intros i h Hs Hi0 Hrun; [done|].
  destruct (decide (len messages <= i)) as [Hge|Hi].
  { rewrite round_exit in Hrun by done. by injection Hrun as <- _. }
  assert (i < len messages) as Hlt by lia.
  destruct (slice messages i (upperBoundAt l messages i)) as [chunk|why|] eqn:Hchunk.
  2:{ by rewrite (round_panic _ _ _ _ _ _ why) in Hrun. }
  2:{ by apply slice_not_Diverge in Hchunk. }
  destruct (tryPostMessages l chunk h) as [[err|] h1] eqn:Hsend.
  - rewrite (round_failed l messages Hfit _ _ _ _ chunk err h1) in Hrun by done.
    rewrite orb_true_r in Hrun. simpl in Hrun. injection Hrun as <- _.
    apply drop_ge. unfold len. lia.
  - rewrite (round_sent l messages _ _ _ _ chunk h1) in Hrun by done.
    eapply IH; [| |done].
    + by eapply (roundStart_next l messages).
    + rewrite (roundStart_add l messages) by done.
      destruct (chunk_exists l messages batchSize_int Hfit i chunk) as (_ & ? & _); [done..|lia].
Qed.

Lemma postMessages_lastChance messages h rest h' :
  fitsInMemory messages ->
  postMessages l messages true h = (Done rest, h') -> rest = [].
Proof.
  intros Hfit. apply postMessagesFrom_lastChance; [done|by left|done].
Qed.

Lemma elem_of_concat {A} (x : A) (ls : list (list A)) :
  x ∈ concat ls -> exists c, x ∈ c /\ c ∈ ls.
Proof.
  induction ls as [|c ls IH]; simpl; [by intros ?%elem_of_nil|].
  rewrite elem_of_app. intros [Hx|Hx].
  - exists c. split; [done|by left].
  - destruct (IH Hx) as (c' & ? & ?). exists c'. split; [done|by right].
Qed.

(** A flush moves records from the waiting ones to the accepted requests
    and the error entries, and keeps the rest. *)
Lemma accountedFor_flush messages lastChance h rest h' acc q :
  fitsInMemory messages ->
  postMessages l messages lastChance h = (Done rest, h') ->
  accountedFor l h acc (messages ++ q) ->
  rest `suffix_of` messages /\ accountedFor l h' acc (rest ++ q).
Proof.
  intros Hfit Hrun (sent & dropped & Hok & Herr & Hperm).
  apply (postMessagesFrom_account l messages batchSize_int Hfit) in Hrun
    as (sent' & dropped' & d & Hdrop & -> & Hok' & Herr' & _); [|by left|done].
  change (drop (Z.to_nat 0) messages) with messages in Hdrop.
  split.
  { exists (concat sent' ++ dropped'). by rewrite <- app_assoc. }
  exists (sent ++ sent'), (dropped ++ dropped').
  split; [by rewrite okBodies_app, Hok, Hok', fmap_app|].
  split; [by rewrite errorEntries_app, Herr, Herr', fmap_app|].
  rewrite Hperm, Hdrop, concat_app. solve_Permutation.
Qed.

Lemma accountedFor_quiet h d acc waiting :
  okBodies d = [] -> errorEntries d = [] ->
  accountedFor l h acc waiting -> accountedFor l (h ++ d) acc waiting.
Proof.
  intros Hok' Herr' (sent & dropped & Hok & Herr & Hperm).
  exists sent, dropped.
  by rewrite okBodies_app, errorEntries_app, Hok, Herr, Hok', Herr', !app_nil_r.
Qed.

Lemma accountedFor_Permutation h acc acc' waiting waiting' :
  acc ≡ₚ acc' -> waiting ≡ₚ waiting' ->
  accountedFor l h acc waiting -> accountedFor l h acc' waiting'.
Proof.
  intros Hacc Hw (sent & dropped & Hok & Herr & Hperm).
  exists sent, dropped. by rewrite <- Hacc, <- Hw.
Qed.

Lemma accountedFor_push h acc waiting m :
  accountedFor l h acc waiting -> accountedFor l h (m :: acc) (waiting ++ [m]).
Proof.
  intros (sent & dropped & Hok & Herr & Hperm).
  exists sent, dropped. split; [done|]. split; [done|].
  rewrite Hperm. solve_Permutation.
Qed.

(** When nothing waits, every accepted record was delivered or logged. *)
Lemma accountedFor_settled h acc m :
  accountedFor l h acc [] -> m ∈ acc ->
  deliveredIn l h m \/ loggedIn h m.
Proof.
  intros (sent & dropped & Hok & Herr & Hperm). rewrite Hperm, app_nil_r.
  rewrite elem_of_app. intros [Hm|Hm].
  - left. apply elem_of_concat in Hm as (chunk & Hm & Hchunk).
    exists chunk. split; [done|]. rewrite Hok. by apply list_elem_of_fmap_2.
  - right. unfold loggedIn. rewrite Herr. by apply list_elem_of_fmap_2.
Qed.

End FlushSettles.

(** ** The pipeline keeps its invariant *)

Section ThreadLists.

Lemma existsb_lookup (f : thread -> bool) ts i t :
  ts !! i = Some t -> f t = true -> existsb f ts = true.
Proof.
  revert i. induction ts as [|t0 ts IH]; intros [|i]; simpl; try done.
  - intros [= ->] ->. done.
  - intros Hi Hf. rewrite (IH i Hi Hf). apply orb_true_r.
Qed.

Lemma existsb_insert (f : thread -> bool) ts i t' :
  existsb f (<[i := t']> ts) = true -> f t' = true \/ existsb f ts = true.
Proof.
  revert i. induction ts as [|t0 ts IH]; intros [|i]; simpl; try (by auto).
  - rewrite !orb_true_iff. intros [?|?]; auto.
  - rewrite !orb_true_iff. intros [?|Hr]; [auto|].
    destruct (IH i Hr); auto.
Qed.

Lemma existsb_snoc (f : thread -> bool) ts t :
  existsb f (ts ++ [t]) = existsb f ts || f t.
Proof. rewrite existsb_app. simpl. by rewrite orb_false_r. Qed.

Lemma holds_disjoint t : holdsWrite t = true -> holdsRead t = true -> False.
Proof. by destruct t as [| |? []|[]]. Qed.

(** A goroutine may take the lock for reading when no one writes, for
    writing when no one reads, and may keep what it holds. *)
Lemma lockOk_insert ts i t t' :
  lockOk ts -> ts !! i = Some t ->
  (holdsRead t' = true -> holdsRead t = true \/ existsb holdsWrite ts = false) ->
  (holdsWrite t' = true -> holdsWrite t = true \/ existsb holdsRead ts = false) ->
  lockOk (<[i := t']> ts).
Proof.
  intros Hok Hi Hread Hwrite Hw.
  destruct (existsb holdsRead (<[i := t']> ts)) eqn:Hr; [exfalso|done].
  apply existsb_insert in Hw as [Hw|Hw], Hr as [Hr|Hr].
  - by eapply holds_disjoint.
  - destruct (Hwrite Hw) as [Ht|Hnone]; [|congruence].
    pose proof (existsb_lookup _ _ _ _ Hi Ht) as Hw'. specialize (Hok Hw'). congruence.
  - destruct (Hread Hr) as [Ht|Hnone]; [|congruence].
    pose proof (existsb_lookup _ _ _ _ Hi Ht) as Hr'. specialize (Hok Hw). congruence.
  - specialize (Hok Hw). congruence.
Qed.

Lemma lockOk_snoc ts t :
  lockOk ts -> holdsRead t = false -> holdsWrite t = false -> lockOk (ts ++ [t]).
Proof.
  unfold lockOk. rewrite !existsb_snoc. intros Hok -> ->.
  by rewrite !orb_false_r.
Qed.

Lemma accepted_insert_new (ts : list thread) (i : nat) t t' m :
  ts !! i = Some t -> acceptedBy t = None -> acceptedBy t' = Some m ->
  omap acceptedBy (<[i := t']> ts) ≡ₚ m :: omap acceptedBy ts.
Proof.
  revert i. induction ts as [|t0 ts IH]; intros [|i] Hi Hnone Hsome; simpl in *; try done.
  - injection Hi as ->. by rewrite Hnone, Hsome.
  - specialize (IH i Hi Hnone Hsome). unfold insert, omap in *.
    destruct (acceptedBy t0); [|done].
    rewrite IH. apply Permutation_swap.
Qed.

Lemma accepted_insert_same (ts : list thread) (i : nat) t t' :
  ts !! i = Some t -> acceptedBy t' = acceptedBy t ->
  omap acceptedBy (<[i := t']> ts) = omap acceptedBy ts.
Proof.
  revert i. induction ts as [|t0 ts IH]; intros [|i] Hi Hacc; simpl in *; try done.
  - injection Hi as ->. by rewrite Hacc.
  - specialize (IH i Hi Hacc). unfold insert, omap in *.
    destruct (acceptedBy t0); congruence.
Qed.

Lemma threadOk_closed cond t : threadOk cond false t -> threadOk cond true t.
Proof. by destruct t as [| |? [| | | | |[]]|[| | | | | |[]|[]]]; simpl; try tauto. Qed.

End ThreadLists.

Section Preservation.
Context `{GoLib}.
Variable lw : loggerWrapper.
Variable capacity : nat.
Hypothesis batchSize_int : intRange (postMessagesBatchSize (baseLogger lw)).

Local Abbreviation l := (baseLogger lw).

(** A step of one goroutine that leaves the shared variables alone and
    does not pass the send. *)
Lemma invariant_setThread s i t t' :
  invariant lw s ->
  threads s !! i = Some t ->
  (holdsRead t' = true -> holdsRead t = true \/ writeLocked s = false) ->
  (holdsWrite t' = true -> holdsWrite t = true \/ readLocked s = false) ->
  threadOk (closedCond s) (closed s) t' ->
  acceptedBy t' = acceptedBy t ->
  invariant lw (setThread i t' s).
Proof.
  intros [Hlock Hthreads Hstream Hworker Hclosed Hfits Hacc] Hi Hread Hwrite Hok Hsame.
  split; simpl; try done.
  - eapply lockOk_insert; [done..| |done].
    intros Hr. destruct (Hread Hr) as [?|Hw]; [by left|right].
    unfold writeLocked in Hw. by apply orb_false_iff in Hw as [? _].
  - by apply Forall_insert.
  - intros Hstuck. unfold accepted. simpl.
    rewrite (accepted_insert_same _ _ _ _ Hi Hsame). by apply Hacc.
Qed.

Lemma invariant_spawn s t :
  invariant lw s ->
  holdsRead t = false -> holdsWrite t = false ->
  threadOk (closedCond s) (closed s) t -> acceptedBy t = None ->
  invariant lw (setThreads (threads s ++ [t]) s).
Proof.
  intros [Hlock Hthreads Hstream Hworker Hclosed Hfits Hacc] Hr Hw Hok Hnone.
  split; simpl; try done.
  - by apply lockOk_snoc.
  - apply Forall_app. split; [done|]. by constructor.
  - intros Hstuck. unfold accepted. simpl. rewrite omap_app. simpl. rewrite Hnone.
    rewrite app_nil_r. by apply Hacc.
Qed.

(** While a goroutine holds the lock for writing, none is between the
    test of [closedCond] and the end of its send. *)
Lemma no_sender_under_write s i t :
  invariant lw s -> threads s !! i = Some t -> holdsWrite t = true ->
  Forall (threadOk true (closed s)) (threads s).
Proof.
  intros Hinv Hi Hw.
  pose proof (inv_lock _ _ Hinv (existsb_lookup _ _ _ _ Hi Hw)) as Hnone.
  pose proof (inv_threads _ _ Hinv) as Hall.
  apply Forall_lookup. intros j tj Hj.
  pose proof (Forall_lookup_1 _ _ _ _ Hall Hj) as Hok.
  destruct tj as [| |m [| | | | |[e|]]|[| | | | | |[]|[]]]; simpl in *; try tauto.
  - exfalso. pose proof (existsb_lookup holdsRead _ _ _ Hj eq_refl). congruence.
  - exfalso. pose proof (existsb_lookup holdsRead _ _ _ Hj eq_refl). congruence.
Qed.

Lemma canLock_true s :
  canLock s = true -> writeLocked s = false /\ readLocked s = false.
Proof.
  unfold canLock. rewrite andb_true_iff, !negb_true_iff. tauto.
Qed.

Lemma invariant_stepQueue s i message pc s' :
  invariant lw s ->
  threads s !! i = Some (InQueue message pc) ->
  stepQueue capacity i message pc s = Some s' ->
  crashed s' = None ->
  invariant lw s'.
Proof.
  intros Hinv Hi Hstep Halive.
  pose proof (Forall_lookup_1 _ _ _ _ (inv_threads _ _ Hinv) Hi) as Hok.
  destruct pc as [| | | | |r]; simpl in Hstep, Hok.
  - destruct (canRLock s) eqn:Hcan; [|done]. injection Hstep as <-.
    eapply invariant_setThread; try done.
    intros _. right. unfold canRLock in Hcan. by apply negb_true_iff in Hcan.
  - destruct (closedCond s) eqn:Hcond; injection Hstep as <-;
      (eapply invariant_setThread; [done..| |done|done|done]); by left.
  - injection Hstep as <-. by eapply invariant_setThread.
  - (* the send: the record is accepted and waits in the channel *)
    destruct (streamClosed s) eqn:Hsc.
    { by injection Hstep as <-. }
    destruct (canSend capacity s); [|done]. injection Hstep as <-.
    destruct Hinv as [Hlock Hthreads Hstream Hworker Hclosed Hfits Hacc].
    split; simpl; try done.
    + eapply lockOk_insert; [done..|by left|done].
    + by apply Forall_insert.
    + intros Hdone. destruct (Hworker Hdone). congruence.
    + intros Hstuck. unfold accepted, pending. simpl.
      rewrite app_assoc.
      eapply accountedFor_Permutation;
        [symmetry; by eapply accepted_insert_new|done|].
      apply accountedFor_push. by apply Hacc.
  - injection Hstep as <-. by eapply invariant_setThread.
  - done.
Qed.

Lemma invariant_stepClose s i pc s' :
  invariant lw s ->
  threads s !! i = Some (InClose pc) ->
  stepClose i pc s = Some s' ->
  crashed s' = None ->
  invariant lw s'.
Proof.
  intros Hinv Hi Hstep Halive.
  pose proof (Forall_lookup_1 _ _ _ _ (inv_threads _ _ Hinv) Hi) as Hok.
  destruct pc as [| | | | | |began|began]; simpl in Hstep, Hok.
  - destruct (canLock s) eqn:Hcan; [|done]. injection Hstep as <-.
    apply canLock_true in Hcan as [Hw Hr].
    eapply invariant_setThread; try done. intros _. by right.
  - destruct (closedCond s) eqn:Hcond; injection Hstep as <-.
    { eapply invariant_setThread; try done. intros _. by left. }
    eapply invariant_setThread; try done; [|by left].
    pose proof (no_sender_under_write s i _ Hinv Hi eq_refl) as Hall.
    destruct Hinv as [Hlock Hthreads Hstream Hworker Hclosed Hfits Hacc].
    by split.
  - destruct (streamClosed s) eqn:Hsc.
    { by injection Hstep as <-. }
    injection Hstep as <-.
    eapply invariant_setThread; try done; [|by left].
    destruct Hinv as [Hlock Hthreads Hstream Hworker Hclosed Hfits Hacc].
    split; simpl; try done.
    intros Hdone. destruct (Hworker Hdone). congruence.
  - destruct (closed s) eqn:Hcl; injection Hstep as <-.
    + eapply invariant_setThread; try done. intros _. by left.
    + by eapply invariant_setThread.
  - done.
  - destruct (canLock s) eqn:Hcan; [|done]. injection Hstep as <-.
    apply canLock_true in Hcan as [Hw Hr].
    eapply invariant_setThread; try done. intros _. by right.
  - injection Hstep as <-. by eapply invariant_setThread.
  - done.
Qed.

Lemma invariant_stepThread s i s' :
  invariant lw s ->
  stepThread lw capacity i s = Some s' ->
  crashed s' = None ->
  invariant lw s'.
Proof.
  intros Hinv Hstep Halive. unfold stepThread in Hstep.
  destruct (threads s !! i) as [[msg|msg|message pc|pc]|] eqn:Hi; try done.
  - destruct (Log lw msg); injection Hstep as <-; by eapply invariant_setThread.
  - by eapply invariant_stepQueue.
  - by eapply invariant_stepClose.
Qed.

(** The worker moves to the program point [w] with the history [h],
    while [l.closed] is still false. *)
Lemma invariant_worker_at s w h :
  lockOk (threads s) ->
  Forall (threadOk (closedCond s) (closed s)) (threads s) ->
  (streamClosed s = true -> closedCond s = true) ->
  closed s = false ->
  (workerDone w = true -> streamClosed s = true /\ stream s = []) ->
  fitsInMemory (buffered w) ->
  (w <> WorkerStuck -> accountedFor l h (accepted s) (buffered w ++ stream s)) ->
  invariant lw (setWorker w h s).
Proof.
  intros Hlock Hthreads Hstream Hclosed Hdone Hfits Hacc.
  split; simpl; try done. congruence.
Qed.

Lemma worker_not_closed s :
  invariant lw s -> worker s <> WorkerExited -> closed s = false.
Proof.
  intros Hinv Hw. destruct (closed s) eqn:Hc; [|done].
  by apply (inv_closed _ _ Hinv) in Hc.
Qed.

(** The state after a flush of [messages] that leads back to the
    [select]. [s] is the state in which the flush starts: its worker
    holds [messages], which cover what the pipeline holds. *)
Lemma invariant_flush_select s messages lastChance :
  lockOk (threads s) ->
  Forall (threadOk (closedCond s) (closed s)) (threads s) ->
  (streamClosed s = true -> closedCond s = true) ->
  closed s = false ->
  fitsInMemory messages ->
  accountedFor l (world s) (accepted s) (messages ++ stream s) ->
  crashed (afterFlush WorkerSelect (postMessages l messages lastChance (world s)) s) = None ->
  invariant lw (afterFlush WorkerSelect (postMessages l messages lastChance (world s)) s).
Proof.
  intros Hlock Hthreads Hstream Hclosed Hfits Hacc Halive.
  destruct (postMessages l messages lastChance (world s)) as [[rest|why|] h'] eqn:Hrun;
    simpl in *; [|done|].
  - destruct (accountedFor_flush l batchSize_int messages lastChance _ rest h' _ _
                Hfits Hrun Hacc) as ([pre Hsuffix] & Hacc').
    apply invariant_worker_at; try done.
    simpl. unfold fitsInMemory, len in *. rewrite Hsuffix, length_app in Hfits. lia.
  - by apply invariant_worker_at.
Qed.

Lemma invariant_stepTick s s' :
  invariant lw s ->
  stepTick lw s = Some s' ->
  crashed s' = None ->
  invariant lw s'.
Proof.
  intros Hinv Hstep Halive. unfold stepTick in Hstep.
  destruct (worker s) as [|messages| | | |] eqn:Hw; try done.
  injection Hstep as <-. unfold workerTick in *.
  pose proof (worker_not_closed s Hinv) as Hclosed. rewrite Hw in Hclosed.
  pose proof (inv_fits _ _ Hinv) as Hfits. rewrite Hw in Hfits.
  destruct Hinv as [Hlock Hthreads Hstream Hworker _ _ Hacc].
  apply invariant_flush_select; try done; [by apply Hclosed|].
  unfold pending in Hacc. rewrite Hw in Hacc. by apply Hacc.
Qed.

Lemma invariant_receive s messages message q s' :
  invariant lw s ->
  worker s = WorkerSelect messages ->
  stream s = message :: q ->
  s' = afterFlush WorkerSelect
         (workerReceive l messages message (world s)) (setStream q s) ->
  crashed s' = None ->
  invariant lw s'.
Proof.
  intros Hinv Hw Hq -> Halive.
  pose proof (worker_not_closed s Hinv) as Hclosed. rewrite Hw in Hclosed.
  destruct Hinv as [Hlock Hthreads Hstream Hworker _ _ Hacc].
  assert (Hcover : accountedFor l (world s) (accepted s)
                     ((messages ++ [message]) ++ q)).
  { unfold pending in Hacc. rewrite Hw, Hq in Hacc. simpl in Hacc.
    rewrite <- app_assoc. by apply Hacc. }
  unfold workerReceive, append in *.
  case_bool_decide as Hfits; [|done].
  destruct (batchReached l (messages ++ [message])) as [[]|why|] eqn:Hbatch; try done.
  - apply (invariant_flush_select (setStream q s)); try done. by apply Hclosed.
  - apply (invariant_worker_at (setStream q s)); try done. by apply Hclosed.
  - unfold batchReached in Hbatch. by case_bool_decide.
Qed.

Lemma invariant_lastChance s messages s' :
  invariant lw s ->
  worker s = WorkerSelect messages ->
  stream s = [] -> streamClosed s = true ->
  s' = afterFlush (fun _ => WorkerFlushed)
         (workerLastChance l messages (world s)) s ->
  crashed s' = None ->
  invariant lw s'.
Proof.
  intros Hinv Hw Hq Hsc -> Halive.
  pose proof (worker_not_closed s Hinv) as Hclosed. rewrite Hw in Hclosed.
  pose proof (inv_fits _ _ Hinv) as Hfits. rewrite Hw in Hfits.
  destruct Hinv as [Hlock Hthreads Hstream Hworker _ _ Hacc].
  unfold workerLastChance in *.
  destruct (postMessages l messages true (world s)) as [[rest|why|] h'] eqn:Hrun;
    simpl in *; [|done|].
  - pose proof (postMessages_lastChance l batchSize_int messages _ rest h' Hfits Hrun) as ->.
    unfold pending in Hacc. rewrite Hw, Hq in Hacc. simpl in Hacc.
    destruct (accountedFor_flush l batchSize_int messages true _ [] h' _ []
                Hfits Hrun ltac:(by apply Hacc)) as (_ & Hacc').
    apply invariant_worker_at;
      [done|done|done|by apply Hclosed|by intros _|by vm_compute|].
    intros _. by rewrite Hq.
  - apply invariant_worker_at; try done. by apply Hclosed.
Qed.

Lemma invariant_stepWorker s wake s' :
  invariant lw s ->
  stepWorker lw wake s = Some s' ->
  crashed s' = None ->
  invariant lw s'.
Proof.
  intros Hinv Hstep Halive. unfold stepWorker in Hstep.
  destruct (worker s) as [|messages| | | |] eqn:Hw; try done.
  - (* the ticker *)
    case_bool_decide; injection Hstep as <-; [done|].
    pose proof (worker_not_closed s Hinv) as Hclosed. rewrite Hw in Hclosed.
    destruct Hinv as [Hlock Hthreads Hstream Hworker _ _ Hacc].
    apply invariant_worker_at; [done|done|done|by apply Hclosed|done|by vm_compute|].
    intros _. unfold pending in Hacc. rewrite Hw in Hacc. by apply Hacc.
  - (* the select *)
    destruct (stream s) as [|message q] eqn:Hq.
    + destruct (streamClosed s) eqn:Hsc; [|done]. injection Hstep as Hs'.
      by eapply invariant_lastChance.
    + injection Hstep as Hs'. by eapply invariant_receive.
  - (* taking the lock *)
    destruct (canLock s); [|done]. injection Hstep as <-.
    pose proof (worker_not_closed s Hinv) as Hclosed. rewrite Hw in Hclosed.
    destruct Hinv as [Hlock Hthreads Hstream Hworker _ _ Hacc].
    rewrite Hw in Hworker.
    apply invariant_worker_at; [done|done|done|by apply Hclosed|done|by vm_compute|].
    intros _. unfold pending in Hacc. rewrite Hw in Hacc. by apply Hacc.
  - (* the end: [l.closed = true], the signal, the unlock *)
    destruct (closedCond s) eqn:Hcond; [|by injection Hstep as <-].
    destruct (signal wake (setClosed s)) as [s2|] eqn:Hsig; [|done].
    injection Hstep as <-.
    assert (invariant lw (setWorker WorkerExited (world s) (setClosed s))) as Hinv2.
    { destruct Hinv as [Hlock Hthreads Hstream Hworker _ Hfits Hacc].
      rewrite Hw in Hworker, Hfits.
      split; simpl; try done.
      - eapply Forall_impl; [done|]. intros t Ht.
        destruct (closed s); [done|by apply threadOk_closed].
      - intros _. unfold pending in *. rewrite Hw in Hacc. by apply Hacc. }
    (* the signal changes one goroutine, the worker's own fields commute *)
    unfold signal in Hsig. simpl in Hsig.
    assert (Hgrow : forall s0, invariant lw s0 -> worker s0 = WorkerExited ->
              invariant lw (setWorker WorkerExited (world s0 ++ [IoCloseIdleConnections]) s0)).
    { intros s0 [Hlock Hthreads Hstream Hworker Hclosed Hfits Hacc] Hw0.
      rewrite Hw0 in Hworker, Hfits.
      split; simpl; try done.
      intros _. apply accountedFor_quiet; [done|done|].
      unfold pending in *. rewrite Hw0 in Hacc. by apply Hacc. }
    destruct (threads s !! wake) as [[| | |[]]|] eqn:Hi;
      try (destruct (existsb parked (threads s)); [done|];
           injection Hsig as <-; by apply (Hgrow _ Hinv2)).
    injection Hsig as <-.
    apply (Hgrow (setThread wake (InClose CloseWoken)
                    (setWorker WorkerExited (world s) (setClosed s)))); [|done].
    by eapply invariant_setThread.
Qed.

Lemma invariant_step a s s' :
  invariant lw s ->
  step lw capacity a s = Some s' ->
  crashed s' = None ->
  invariant lw s'.
Proof.
  intros Hinv Hstep Halive. unfold step in Hstep.
  destruct (crashed s); [done|].
  destruct a as [msg| |i|wake|].
  - injection Hstep as <-. by apply invariant_spawn.
  - injection Hstep as <-. by apply invariant_spawn.
  - by eapply invariant_stepThread.
  - by eapply invariant_stepWorker.
  - by eapply invariant_stepTick.
Qed.

Lemma invariant_initial : invariant lw initial.
Proof.
  split; simpl; try done.
  intros _. by exists [], [].
Qed.

End Preservation.

(** ** Runs of the pipeline *)

Section Runs.
Context `{GoLib}.
Variable lw : loggerWrapper.
Variable capacity : nat.
Hypothesis batchSize_int : intRange (postMessagesBatchSize (baseLogger lw)).

Local Abbreviation l := (baseLogger lw).

Lemma step_alive a s s' : step lw capacity a s = Some s' -> crashed s = None.
Proof. unfold step. by destruct (crashed s). Qed.

Lemma run_alive acts s s' :
  run lw capacity acts s = Some s' -> crashed s' = None -> crashed s = None.
Proof.
  destruct acts as [|a acts]; simpl; [by intros [= ->]|].
  destruct (step lw capacity a s) eqn:Hstep; [|done]. intros _ _.
  by eapply step_alive.
Qed.

Lemma run_app acts1 acts2 s :
  run lw capacity (acts1 ++ acts2) s =
  run lw capacity acts1 s ≫= run lw capacity acts2.
Proof.
  revert s. induction acts1 as [|a acts1 IH]; intros s; simpl; [done|].
  by destruct (step lw capacity a s).
Qed.

Lemma run_invariant acts s s' :
  invariant lw s ->
  run lw capacity acts s = Some s' ->
  crashed s' = None ->
  invariant lw s'.
Proof.
  revert s. induction acts as [|a acts IH]; intros s Hinv; simpl.
  - by intros [= ->].
  - destruct (step lw capacity a s) as [s1|] eqn:Hstep; [|done].
    intros Hrun Halive. eapply IH; [|done..].
    eapply invariant_step; [done..|]. by eapply run_alive.
Qed.

Lemma reachable_invariant acts s :
  run lw capacity acts initial = Some s -> crashed s = None -> invariant lw s.
Proof. apply run_invariant, invariant_initial. Qed.

Lemma stepThread_worker i s s' :
  stepThread lw capacity i s = Some s' -> worker s' = worker s.
Proof.
  unfold stepThread, stepQueue, stepClose. intros Hstep.
  repeat case_match; simplify_eq; done.
Qed.

(** The worker gets past its last flush in one way only: through the
    case [!open] of its [select], when the channel is closed and empty and
    the flush with [lastChance] returns. *)
Lemma step_worker_done a s s' :
  step lw capacity a s = Some s' ->
  workerDone (worker s) = false -> workerDone (worker s') = true ->
  exists wake messages rest h,
    a = StepWorker wake /\
    worker s = WorkerSelect messages /\
    stream s = [] /\ streamClosed s = true /\
    postMessages l messages true (world s) = (Done rest, h) /\
    s' = setWorker WorkerFlushed h s.
Proof.
  unfold step. destruct (crashed s); [done|].
  destruct a as [msg| |i|wake|]; intros Hstep Hnot Hdone.
  - injection Hstep as <-. simpl in Hdone. congruence.
  - injection Hstep as <-. simpl in Hdone. congruence.
  - apply stepThread_worker in Hstep. congruence.
  - unfold stepWorker in Hstep.
    destruct (worker s) as [|messages| | | |] eqn:Hw; try done.
    + case_bool_decide; injection Hstep as <-; simpl in Hdone;
        by rewrite ?Hw in Hdone.
    + destruct (stream s) as [|message q] eqn:Hq.
      * destruct (streamClosed s) eqn:Hsc; [|done]. injection Hstep as <-.
        unfold workerLastChance in *.
        destruct (postMessages l messages true (world s)) as [[rest|why|] h] eqn:Hrun;
          simpl in Hdone; [|by rewrite Hw in Hdone|done].
        by exists wake, messages, rest, h.
      * injection Hstep as <-. unfold afterFlush in Hdone.
        destruct (workerReceive _ _ _ _) as [[rest|why|] h]; simpl in Hdone;
          by rewrite ?Hw in Hdone.
  - unfold stepTick in Hstep.
    destruct (worker s) as [|messages| | | |] eqn:Hw; try done.
    injection Hstep as <-. unfold afterFlush in Hdone.
    destruct (workerTick _ _ _) as [[rest|why|] h]; simpl in Hdone;
      by rewrite ?Hw in Hdone.
Qed.

Lemma run_worker_done acts s s' :
  run lw capacity acts s = Some s' ->
  workerDone (worker s) = false -> workerDone (worker s') = true ->
  exists before wake after flushing messages rest h,
    acts = before ++ StepWorker wake :: after /\
    run lw capacity before s = Some flushing /\
    worker flushing = WorkerSelect messages /\
    stream flushing = [] /\ streamClosed flushing = true /\
    postMessages l messages true (world flushing) = (Done rest, h) /\
    run lw capacity after (setWorker WorkerFlushed h flushing) = Some s'.
Proof.
  revert s. induction acts as [|a acts IH]; intros s; simpl.
  - intros [= ->]. congruence.
  - destruct (step lw capacity a s) as [s1|] eqn:Hstep; [|done].
    intros Hrun Hnot Hdone.
    destruct (workerDone (worker s1)) eqn:Hdone1.
    + destruct (step_worker_done a s s1 Hstep Hnot Hdone1)
        as (wake & messages & rest & h & -> & Hw & Hq & Hsc & Hflush & ->).
      by exists [], wake, acts, s, messages, rest, h.
    + destruct (IH s1 Hrun Hdone1 Hdone)
        as (before & wake & after & flushing & messages & rest & h &
            -> & Hbefore & Hrest).
      exists (a :: before), wake, after, flushing, messages, rest, h.
      split; [done|]. split; [|done]. simpl. by rewrite Hstep.
Qed.

End Runs.

(** ** Shutdown *)

(** C3, as amended. The call of [Close] that begins the shutdown (the
    one that finds [closedCond] unset) returns only after the worker has
    made its last flush, with [lastChance], of the records it held when the
    closed channel was empty, and has ended. In a live process, once that
    call has returned nothing is pending: the records that went into the
    channel are, occurrence for occurrence, those of the requests the
    remote accepted and those with an error entry in the daemon log, so
    each of them was delivered or was logged and dropped. A call of [Close] that finds the
    shutdown begun returns without waiting: nothing is said of it. *)
Theorem close_waits_for_last_flush `{GoLib} (lw : loggerWrapper) (capacity : nat)
    (acts : list action) (s : pipeline) (i : nat) :
  intRange (postMessagesBatchSize (baseLogger lw)) ->
  run lw capacity acts initial = Some s ->
  crashed s = None ->
  threads s !! i = Some (InClose (CloseReturned true)) ->
  (exists before wake after flushing messages rest h,
     acts = before ++ StepWorker wake :: after /\
     run lw capacity before initial = Some flushing /\
     worker flushing = WorkerSelect messages /\
     stream flushing = [] /\ streamClosed flushing = true /\
     postMessages (baseLogger lw) messages true (world flushing) = (Done rest, h) /\
     rest = [] /\
     run lw capacity after (setWorker WorkerFlushed h flushing) = Some s) /\
  worker s = WorkerExited /\
  pending s = [] /\
  accountedFor (baseLogger lw) (world s) (accepted s) [] /\
  forall m, m ∈ accepted s ->
    deliveredIn (baseLogger lw) (world s) m \/ loggedIn (world s) m.
Proof.
  intros Hint Hrun Halive Hi.
  pose proof (reachable_invariant lw capacity Hint acts s Hrun Halive) as Hinv.
  pose proof (Forall_lookup_1 _ _ _ _ (inv_threads _ _ Hinv) Hi) as [_ Hclosed].
  pose proof (inv_closed _ _ Hinv Hclosed) as Hw.
  destruct (inv_worker _ _ Hinv) as [_ Hq]; [by rewrite Hw|].
  assert (pending s = []) as Hpending.
  { unfold pending. by rewrite Hw, Hq. }
  assert (accountedFor (baseLogger lw) (world s) (accepted s) []) as Hacc.
  { rewrite <- Hpending. apply (inv_accounted _ _ Hinv). by rewrite Hw. }
  split; [|split; [done|split; [done|split; [done|]]]].
  - destruct (run_worker_done lw capacity acts initial s Hrun)
      as (before & wake & after & flushing & messages & rest & h &
          Hacts & Hbefore & Hwf & Hqf & Hsc & Hflush & Hafter); [done|by rewrite Hw|].
    exists before, wake, after, flushing, messages, rest, h.
    repeat (split; [done|]). split; [|done].
    assert (crashed flushing = None) as Halive'.
    { apply (run_alive lw capacity [StepWorker wake] flushing
               (setWorker WorkerFlushed h flushing)); [|simpl].
      - simpl. unfold step.
        destruct (crashed flushing) eqn:Hc.
        + (* a dead process makes no step, yet the run goes on *)
          rewrite Hacts, run_app, Hbefore in Hrun. simpl in Hrun.
          unfold step in Hrun. by rewrite Hc in Hrun.
        + unfold stepWorker. rewrite Hwf, Hqf, Hsc.
          unfold workerLastChance. by rewrite Hflush.
      - rewrite Hacts, run_app, Hbefore in Hrun. simpl in Hrun.
        unfold step in Hrun. by destruct (crashed flushing). }
    pose proof (reachable_invariant lw capacity Hint before flushing Hbefore Halive') as Hinvf.
    pose proof (inv_fits _ _ Hinvf) as Hfits. rewrite Hwf in Hfits.
    by eapply (postMessages_lastChance (baseLogger lw)).
  - intros m. by apply accountedFor_settled.
Qed.

Lemma close_waits_for_last_flush_witness :
  exists s,
    run (H := refusing) rawLogger 10 orderlyShutdown initial = Some s /\
    worker s = WorkerExited /\ pending s = [] /\
    accountedFor (H := refusing) (baseLogger rawLogger) (world s) (accepted s) [] /\
    forall m, m ∈ accepted s ->
      deliveredIn (H := refusing) (baseLogger rawLogger) (world s) m \/
      loggedIn (H := refusing) (world s) m.
Proof.
  destruct (run (H := refusing) rawLogger 10 orderlyShutdown initial) as [s|] eqn:Hrun;
    [|by vm_compute in Hrun].
  exists s. split; [done|].
  apply (close_waits_for_last_flush (H := refusing) rawLogger 10 orderlyShutdown s 1).
  - by vm_compute.
  - done.
  - vm_compute in Hrun. by injection Hrun as <-.
  - vm_compute in Hrun. by injection Hrun as <-.
Defined.

(** C3 as the specification words it, of every call of [Close], fails: a
    second call made while the first one waits returns at once, with a
    record still in the channel and the worker still at its [select]. *)
Lemma close_not_as_specified : ~ closeAsSpecified refusing rawLogger 10.
Proof.
  intros Hspec.
  destruct (run (H := refusing) rawLogger 10 secondCloseReturns initial) as [s|] eqn:Hrun;
    [|by vm_compute in Hrun].
  destruct (Hspec secondCloseReturns s 2%nat false Hrun) as [Hw _].
  - vm_compute in Hrun. by injection Hrun as <-.
  - vm_compute in Hrun. by injection Hrun as <-.
  - vm_compute in Hrun. injection Hrun as <-. done.
Qed.

(** ** Producers and the shutdown *)

Section Producers.
Context `{GoLib}.
Variable lw : loggerWrapper.
Variable capacity : nat.

Lemma signal_frame wake s s' (i : nat) message pc :
  signal wake s = Some s' ->
  threads s !! i = Some (InQueue message pc) ->
  threads s' !! i = Some (InQueue message pc) /\ closedCond s' = closedCond s.
Proof.
  unfold signal. intros Hsig Hi.
  destruct (threads s !! wake) as [[| | |[]]|] eqn:Hwake;
    try (destruct (existsb parked (threads s)); [done|]; by injection Hsig as <-).
  injection Hsig as <-. simpl. split; [|done].
  rewrite list_lookup_insert_ne; [done|]. intros ->. congruence.
Qed.

Lemma afterFlush_frame next r s :
  threads (afterFlush next r s) = threads s /\
  closedCond (afterFlush next r s) = closedCond s.
Proof. by destruct r as [[rest|why|] h]. Qed.

(** What a step of the pipeline does to a call of [queueMessageAsync]:
    it is the step of that call, or it leaves the call where it is; and
    [closedCond] changes only in a step of a [Close] that holds the lock. *)
Lemma step_frame a s s' (i : nat) message pc :
  step lw capacity a s = Some s' ->
  threads s !! i = Some (InQueue message pc) ->
  (a = StepThread i /\ stepQueue capacity i message pc s = Some s') \/
  (threads s' !! i = Some (InQueue message pc) /\
   (closedCond s' = closedCond s \/
    exists j, threads s !! j = Some (InClose CloseLocked))).
Proof.
  unfold step. destruct (crashed s); [done|].
  intros Hstep Hi. destruct a as [msg| |j|wake|].
  - injection Hstep as <-. right. simpl. split; [|by left].
    by apply lookup_app_l_Some.
  - injection Hstep as <-. right. simpl. split; [|by left].
    by apply lookup_app_l_Some.
  - destruct (decide (j = i)) as [->|Hne].
    { left. split; [done|]. unfold stepThread in Hstep. by rewrite Hi in Hstep. }
    right. unfold stepThread in Hstep.
    destruct (threads s !! j) as [[msg|msg|message' pc'|pc']|] eqn:Hj; try done.
    + destruct (Log lw msg); injection Hstep as <-; simpl;
        (split; [by rewrite list_lookup_insert_ne|by left]).
    + unfold stepQueue in Hstep.
      repeat case_match; simplify_eq; simpl;
        (split; [by rewrite ?list_lookup_insert_ne|by left]).
    + unfold stepClose in Hstep.
      destruct pc'; repeat case_match; simplify_eq; simpl;
        (split; [by rewrite ?list_lookup_insert_ne|]); try (by left).
      right. eauto.
  - right. unfold stepWorker in Hstep.
    destruct (worker s) as [|messages| | | |]; try done.
    + case_bool_decide; injection Hstep as <-; simpl; auto.
    + destruct (stream s) as [|m q].
      * destruct (streamClosed s); [|done]. injection Hstep as <-.
        destruct (afterFlush_frame (fun _ => WorkerFlushed)
                    (workerLastChance (baseLogger lw) messages (world s)) s) as [-> ->].
        auto.
      * injection Hstep as <-.
        destruct (afterFlush_frame WorkerSelect
                    (workerReceive (baseLogger lw) messages m (world s))
                    (setStream q s)) as [-> ->]. simpl. auto.
    + destruct (canLock s); [|done]. injection Hstep as <-. simpl. auto.
    + destruct (closedCond s) eqn:Hcond; [|injection Hstep as <-; simpl; auto].
      destruct (signal wake (setClosed s)) as [s2|] eqn:Hsig; [|done].
      injection Hstep as <-.
      destruct (signal_frame wake (setClosed s) s2 i message pc Hsig Hi) as [Ht Hc].
      simpl. rewrite Ht, Hc. simpl. auto.
  - right. unfold stepTick in Hstep. destruct (worker s); try done.
    injection Hstep as <-.
    destruct (afterFlush_frame WorkerSelect
                (workerTick (baseLogger lw) messages (world s)) s) as [-> ->].
    auto.
Qed.

Lemma closedCond_stays a s s' :
  step lw capacity a s = Some s' -> closedCond s = true -> closedCond s' = true.
Proof.
  unfold step. destruct (crashed s); [done|]. intros Hstep Hcond.
  destruct a as [msg| |j|wake|].
  - by injection Hstep as <-.
  - by injection Hstep as <-.
  - unfold stepThread, stepQueue, stepClose in Hstep.
    repeat case_match; simplify_eq; done.
  - unfold stepWorker, signal in Hstep.
    destruct (worker s) as [|messages| | | |]; try done.
    + case_bool_decide; by injection Hstep as <-.
    + destruct (stream s) as [|m q].
      * destruct (streamClosed s); [|done]. injection Hstep as <-.
        by destruct (afterFlush_frame (fun _ => WorkerFlushed)
                       (workerLastChance (baseLogger lw) messages (world s)) s) as [_ ->].
      * injection Hstep as <-.
        by destruct (afterFlush_frame WorkerSelect
                       (workerReceive (baseLogger lw) messages m (world s))
                       (setStream q s)) as [_ ->].
    + destruct (canLock s); [|done]. by injection Hstep as <-.
    + rewrite Hcond in Hstep. simpl in Hstep.
      repeat case_match; simplify_eq/=; done.
  - unfold stepTick in Hstep. destruct (worker s); try done.
    injection Hstep as <-.
    by destruct (afterFlush_frame WorkerSelect
                   (workerTick (baseLogger lw) messages (world s)) s) as [_ ->].
Qed.

(** Once the shutdown has begun, a call that has not passed its test can
    only go on to the error. *)
Lemma step_refusedPath a s s' (i : nat) message pc :
  step lw capacity a s = Some s' ->
  closedCond s = true ->
  threads s !! i = Some (InQueue message pc) ->
  refusedPath (InQueue message pc) ->
  exists pc', threads s' !! i = Some (InQueue message pc') /\
              refusedPath (InQueue message pc').
Proof.
  intros Hstep Hcond Hi Hpath.
  destruct (step_frame a s s' i message pc Hstep Hi) as [[-> Hown]|[Hi' _]]; [|eauto].
  assert (i < length (threads s))%nat as Hlt by by eapply lookup_lt_Some.
  destruct pc as [| | | | |[err|]]; simpl in Hown, Hpath; try done.
  - destruct (canRLock s); [|done]. injection Hown as <-.
    exists EnqLocked. simpl. by rewrite list_lookup_insert_eq.
  - rewrite Hcond in Hown. injection Hown as <-.
    exists EnqRefused. simpl. by rewrite list_lookup_insert_eq.
  - injection Hown as <-.
    exists (EnqReturned (Some closedError)). simpl. by rewrite list_lookup_insert_eq.
Qed.

Lemma run_refusedPath acts s s' (i : nat) message pc :
  run lw capacity acts s = Some s' ->
  closedCond s = true ->
  threads s !! i = Some (InQueue message pc) ->
  refusedPath (InQueue message pc) ->
  exists pc', threads s' !! i = Some (InQueue message pc') /\
              refusedPath (InQueue message pc').
Proof.
  revert s pc. induction acts as [|a acts IH]; intros s pc; simpl.
  - intros [= <-]. eauto.
  - destruct (step lw capacity a s) as [s1|] eqn:Hstep; [|done].
    intros Hrun Hcond Hi Hpath.
    destruct (step_refusedPath a s s1 i message pc Hstep Hcond Hi Hpath) as (pc1 & Hi1 & Hp1).
    eapply IH; [done| |done..]. by eapply closedCond_stays.
Qed.

Hypothesis batchSize_int : intRange (postMessagesBatchSize (baseLogger lw)).

(** A call that holds the read lock and has found, or will find,
    [closedCond] unset goes on to its send and returns [nil]: [Close]
    cannot set [closedCond] while the read lock is held. *)
Lemma step_pastTest a s s' (i : nat) message pc :
  invariant lw s ->
  step lw capacity a s = Some s' ->
  threads s !! i = Some (InQueue message pc) ->
  pastTest (closedCond s) (InQueue message pc) ->
  exists pc', threads s' !! i = Some (InQueue message pc') /\
              pastTest (closedCond s') (InQueue message pc').
Proof.
  intros Hinv Hstep Hi Hpast.
  destruct (step_frame a s s' i message pc Hstep Hi) as [[-> Hown]|[Hi' Hcond]].
  - assert (i < length (threads s))%nat as Hlt by by eapply lookup_lt_Some.
    destruct pc as [| | | | |[err|]]; simpl in Hown, Hpast; try done.
    + rewrite Hpast in Hown. injection Hown as <-.
      exists EnqSend. simpl. by rewrite list_lookup_insert_eq.
    + destruct (streamClosed s).
      { injection Hown as <-. by exists EnqSend. }
      destruct (canSend capacity s); [|done]. injection Hown as <-.
      exists EnqSent. simpl. by rewrite list_lookup_insert_eq.
    + injection Hown as <-.
      exists (EnqReturned None). simpl. by rewrite list_lookup_insert_eq.
  - exists pc. split; [done|].
    destruct Hcond as [->|[j Hj]]; [done|].
    destruct pc as [| | | | |[err|]]; simpl in *; try done.
    (* a [Close] holds the lock for writing while this call reads *)
    pose proof (inv_lock _ _ Hinv (existsb_lookup holdsWrite _ _ _ Hj eq_refl)) as Hnone.
    pose proof (existsb_lookup holdsRead _ _ _ Hi eq_refl). congruence.
Qed.

Lemma run_pastTest acts s s' (i : nat) message pc :
  invariant lw s ->
  run lw capacity acts s = Some s' ->
  threads s !! i = Some (InQueue message pc) ->
  pastTest (closedCond s) (InQueue message pc) ->
  exists pc', threads s' !! i = Some (InQueue message pc') /\
              pastTest (closedCond s') (InQueue message pc').
Proof.
  revert s pc. induction acts as [|a acts IH]; intros s pc Hinv; simpl.
  - intros [= <-]. eauto.
  - destruct (step lw capacity a s) as [s1|] eqn:Hstep; [|done].
    intros Hrun Hi Hpast.
    destruct (step_pastTest a s s1 i message pc Hinv Hstep Hi Hpast) as (pc1 & Hi1 & Hp1).
    destruct acts as [|a2 acts].
    + injection Hrun as <-. eauto.
    + eapply IH; [|done..].
      eapply invariant_step; [done..|].
      simpl in Hrun. destruct (step lw capacity a2 s1) eqn:Hstep2; [|done].
      by eapply step_alive.
Qed.

End Producers.

(** C5. A call of [queueMessageAsync] is made when it takes the read
    lock. If the shutdown has begun by then ([closedCond] is set, which it
    stays), the call fails with "splunk: driver is closed": its next two
    steps are its own, wait for nothing, leave the channel alone and end
    in that error; and a call that has not yet tested [closedCond] when
    the shutdown begins can return nothing else. If the shutdown has not
    begun when the call holds the read lock, the call never returns that
    error: whatever happens next, it can only return [nil]. *)
Theorem enqueue_and_shutdown `{GoLib} (lw : loggerWrapper) (capacity : nat)
    (acts : list action) (s : pipeline) (i : nat) (message : splunkMessage) :
  intRange (postMessagesBatchSize (baseLogger lw)) ->
  run lw capacity acts initial = Some s ->
  crashed s = None ->
  threads s !! i = Some (InQueue message EnqLocked) ->
  closedError = "splunk: driver is closed" /\
  (closedCond s = true ->
   (exists s1 s2,
      step lw capacity (StepThread i) s = Some s1 /\
      step lw capacity (StepThread i) s1 = Some s2 /\
      threads s2 !! i = Some (InQueue message (EnqReturned (Some closedError))) /\
      stream s2 = stream s /\ accepted s2 = accepted s) /\
   (forall later s' r,
      run lw capacity later s = Some s' ->
      threads s' !! i = Some (InQueue message (EnqReturned r)) ->
      r = Some closedError) /\
   (forall later s', run lw capacity later s = Some s' -> closedCond s' = true)) /\
  (closedCond s = false ->
   forall later s' r,
     run lw capacity later s = Some s' ->
     threads s' !! i = Some (InQueue message (EnqReturned r)) ->
     r = None).
Proof.
  intros Hint Hrun Halive Hi.
  assert (i < length (threads s))%nat as Hlt by by eapply lookup_lt_Some.
  split; [done|]. split.
  - intros Hcond. split; [|split].
    + exists (setThread i (InQueue message EnqRefused) s),
             (setThread i (InQueue message (EnqReturned (Some closedError)))
                (setThread i (InQueue message EnqRefused) s)).
      split.
      { unfold step, stepThread. rewrite Halive, Hi. simpl. by rewrite Hcond. }
      split.
      { unfold step, stepThread. simpl. rewrite Halive.
        by rewrite list_lookup_insert_eq. }
      split.
      { simpl. rewrite list_lookup_insert_eq; [done|]. by rewrite length_insert. }
      split; [done|].
      unfold accepted. simpl. rewrite list_insert_insert_eq.
      by eapply accepted_insert_same.
    + intros later s' r Hlater Hr.
      destruct (run_refusedPath lw capacity later s s' i message EnqLocked Hlater Hcond Hi)
        as (pc' & Hi' & Hpath); [done|].
      rewrite Hi' in Hr. injection Hr as ->. simpl in Hpath.
      destruct r as [err|]; [by subst|done].
    + intros later. clear Hrun Halive Hi Hlt. revert s Hcond.
      induction later as [|a later IH]; intros s Hcond s'; simpl.
      * by intros [= <-].
      * destruct (step lw capacity a s) as [s1|] eqn:Hstep; [|done].
        apply IH. by eapply closedCond_stays.
  - intros Hcond later s' r Hlater Hr.
    pose proof (reachable_invariant lw capacity Hint acts s Hrun Halive) as Hinv.
    destruct (run_pastTest lw capacity Hint later s s' i message EnqLocked Hinv Hlater Hi)
      as (pc' & Hi' & Hpast); [done|].
    rewrite Hi' in Hr. injection Hr as ->. simpl in Hpast.
    by destruct r.
Qed.

(** A call that takes the read lock after [Close] has begun the shutdown
    returns the error in two steps of its own. *)
Lemma enqueue_and_shutdown_witness :
  exists s s1 s2,
    run (H := refusing) rawLogger 10 lateProducer initial = Some s /\
    closedCond s = true /\
    step (H := refusing) rawLogger 10 (StepThread 1) s = Some s1 /\
    step (H := refusing) rawLogger 10 (StepThread 1) s1 = Some s2 /\
    threads s2 !! 1%nat = Some (InQueue helloRecord (EnqReturned (Some closedError))) /\
    stream s2 = stream s /\ accepted s2 = accepted s.
Proof.
  destruct (run (H := refusing) rawLogger 10 lateProducer initial) as [s|] eqn:Hrun;
    [|by vm_compute in Hrun].
  assert (closedCond s = true) as Hcond.
  { vm_compute in Hrun. by injection Hrun as <-. }
  destruct (enqueue_and_shutdown (H := refusing) rawLogger 10 lateProducer s 1 helloRecord)
    as (_ & Hafter & _).
  - by vm_compute.
  - done.
  - vm_compute in Hrun. by injection Hrun as <-.
  - vm_compute in Hrun. by injection Hrun as <-.
  - destruct (Hafter Hcond) as ((s1 & s2 & Hresult) & _).
    exists s, s1, s2. tauto.
Defined.

(** ** The raw formatter *)

Section RawFormat.
Context `{GoLib}.
Variable lw : loggerWrapper.
Variable capacity : nat.

(** A goroutine that is not parked moves by its own steps only. *)
Lemma step_other a s s' (i : nat) t :
  step lw capacity a s = Some s' ->
  threads s !! i = Some t -> parked t = false ->
  a = StepThread i \/ threads s' !! i = Some t.
Proof.
  unfold step. destruct (crashed s); [done|].
  intros Hstep Hi Hpark. destruct a as [msg| |j|wake|].
  - injection Hstep as <-. right. by apply lookup_app_l_Some.
  - injection Hstep as <-. right. by apply lookup_app_l_Some.
  - destruct (decide (j = i)) as [->|Hne]; [by left|right].
    unfold stepThread, stepQueue, stepClose in Hstep.
    repeat case_match; simplify_eq; simpl; by rewrite ?list_lookup_insert_ne.
  - right. unfold stepWorker in Hstep.
    destruct (worker s) as [|messages| | | |]; try done.
    + case_bool_decide; by injection Hstep as <-.
    + destruct (stream s) as [|m q].
      * destruct (streamClosed s); [|done]. injection Hstep as <-.
        by destruct (afterFlush_frame (fun _ => WorkerFlushed)
                       (workerLastChance (baseLogger lw) messages (world s)) s) as [-> _].
      * injection Hstep as <-.
        by destruct (afterFlush_frame WorkerSelect
                       (workerReceive (baseLogger lw) messages m (world s))
                       (setStream q s)) as [-> _].
    + destruct (canLock s); [|done]. by injection Hstep as <-.
    + destruct (closedCond s); [|by injection Hstep as <-].
      unfold signal in Hstep. simpl in Hstep.
      destruct (threads s !! wake) as [[| | |[]]|] eqn:Hwake; simpl in Hstep;
        try (destruct (existsb parked (threads s)); [done|]; by injection Hstep as <-).
      injection Hstep as <-. simpl.
      rewrite list_lookup_insert_ne; [done|]. intros ->.
      rewrite Hi in Hwake. by injection Hwake as ->.
  - right. unfold stepTick in Hstep. destruct (worker s); try done.
    injection Hstep as <-.
    by destruct (afterFlush_frame WorkerSelect
                   (workerTick (baseLogger lw) messages (world s)) s) as [-> _].
Qed.

(** A call of [Log] that returned before queueing stays returned. *)
Lemma run_returned_nil acts s s' (i : nat) msg :
  run lw capacity acts s = Some s' ->
  threads s !! i = Some (LogReturnedNil msg) ->
  threads s' !! i = Some (LogReturnedNil msg).
Proof.
  revert s. induction acts as [|a acts IH]; intros s; simpl.
  - by intros [= <-].
  - destruct (step lw capacity a s) as [s1|] eqn:Hstep; [|done].
    intros Hrun Hi. apply (IH s1 Hrun).
    destruct (step_other a s s1 i _ Hstep Hi eq_refl) as [->|]; [|done].
    unfold step, stepThread in Hstep. rewrite Hi in Hstep.
    by destruct (crashed s).
Qed.

End RawFormat.

(** C6. The raw logger, on a line that [strings.TrimSpace] reduces to the
    empty string, returns [nil] from [Log] before any record is made: the
    step of that call leaves the channel, the records that went into it
    and the I/O history as they are, and the call does nothing afterwards.
    On every other line [Log] builds the record, with the prefix and the
    line as its event, and goes on with it into [queueMessageAsync]. *)
Theorem raw_log_blank `{GoLib} (l : splunkLogger) (prefix : string) (msg : Message) :
  (TrimSpace (MsgLine msg) = "" ->
   Log (splunkLoggerRaw l prefix) msg = ReturnNil /\
   forall capacity s (i : nat),
     crashed s = None -> threads s !! i = Some (InLog msg) ->
     exists s',
       step (splunkLoggerRaw l prefix) capacity (StepThread i) s = Some s' /\
       threads s' !! i = Some (LogReturnedNil msg) /\
       stream s' = stream s /\ accepted s' = accepted s /\ world s' = world s /\
       forall later s'',
         run (splunkLoggerRaw l prefix) capacity later s' = Some s'' ->
         threads s'' !! i = Some (LogReturnedNil msg)) /\
  (TrimSpace (MsgLine msg) <> "" ->
   Log (splunkLoggerRaw l prefix) msg =
     QueueMessageAsync
       {| Event := EventString (prefix +:+ MsgLine msg);
          Time := formatSeconds (MsgTimestamp msg);
          Host := Host (nullMessage l);
          Source := Source (nullMessage l);
          SourceType := SourceType (nullMessage l);
          Index := Index (nullMessage l) |} /\
   forall capacity s (i : nat),
     crashed s = None -> threads s !! i = Some (InLog msg) ->
     exists message,
       Log (splunkLoggerRaw l prefix) msg = QueueMessageAsync message /\
       step (splunkLoggerRaw l prefix) capacity (StepThread i) s =
         Some (setThread i (InQueue message EnqStart) s)).
Proof.
  split.
  - intros Hblank.
    assert (Log (splunkLoggerRaw l prefix) msg = ReturnNil) as Hlog.
    { simpl. unfold Log_Raw. by rewrite bool_decide_eq_true_2. }
    split; [done|]. intros capacity s i Halive Hi.
    assert (i < length (threads s))%nat as Hlt by by eapply lookup_lt_Some.
    exists (setThread i (LogReturnedNil msg) s).
    split. { unfold step, stepThread. by rewrite Halive, Hi, Hlog. }
    split. { simpl. by rewrite list_lookup_insert_eq. }
    split; [done|]. split. { unfold accepted. simpl. by eapply accepted_insert_same. }
    split; [done|]. intros later s'' Hlater.
    eapply run_returned_nil; [done|]. simpl. by rewrite list_lookup_insert_eq.
  - intros Hline.
    assert (Log (splunkLoggerRaw l prefix) msg =
            QueueMessageAsync
              (withEvent (createSplunkMessage l msg)
                         (EventString (prefix +:+ MsgLine msg)))) as Hlog.
    { simpl. unfold Log_Raw. by rewrite bool_decide_eq_false_2. }
    split; [done|]. intros capacity s i Halive Hi.
    eexists. split; [done|].
    unfold step, stepThread. by rewrite Halive, Hi, Hlog.
Qed.

Lemma raw_log_blank_witness :
  Log (H := refusing) rawLogger blankLine = ReturnNil /\
  Log (H := refusing) rawLogger helloLine = QueueMessageAsync helloRecord.
Proof.
  destruct (raw_log_blank (H := refusing) (fixtureLogger 2 4 false) "tag " blankLine)
    as [Hblank _].
  destruct (raw_log_blank (H := refusing) (fixtureLogger 2 4 false) "tag " helloLine)
    as [_ Hline].
  split.
  - apply Hblank. by vm_compute.
  - apply Hline. by vm_compute.
Defined.

(** ** The batch trigger of the worker *)

Section BatchTrigger.
Context `{GoLib}.
Variable l : splunkLogger.
Hypothesis batchSize_int : intRange (postMessagesBatchSize l).

Local Abbreviation bs := (postMessagesBatchSize l).

Lemma sendTriggered_divides messages message :
  fitsInMemory (messages ++ [message]) ->
  sendTriggered l messages message = true <-> (bs | len (messages ++ [message])).
Proof.
  intros Hfit. unfold sendTriggered, append, batchReached.
  rewrite bool_decide_eq_true_2 by done.
  assert (0 < len (messages ++ [message])) as Hpos.
  { unfold len. rewrite length_app. simpl. lia. }
  case_bool_decide as Hz.
  - split; [done|]. rewrite Hz. intros ?%Z.divide_0_l. lia.
  - rewrite <- Z.rem_divide by done. by case_bool_decide.
Qed.

Lemma workerReceive_cases messages message :
  fitsInMemory (messages ++ [message]) ->
  (sendTriggered l messages message = true ->
   workerReceive l messages message = postMessages l (messages ++ [message]) false) /\
  (sendTriggered l messages message = false -> bs <> 0 ->
   workerReceive l messages message = ioret (Done (messages ++ [message]))).
Proof.
  intros Hfit. unfold sendTriggered, workerReceive, append, batchReached.
  rewrite bool_decide_eq_true_2 by done.
  repeat case_bool_decide; split; intros; done.
Qed.

(** A flush outside the last chance gives whole batches up or keeps them:
    a buffer of whole batches stays one. *)
Lemma postMessagesFrom_aligned messages fuel i h rest h' :
  fitsInMemory messages ->
  0 < bs -> (bs | len messages) -> (bs | i) -> 0 <= i ->
  postMessagesFrom fuel l messages false i h = (Done rest, h') ->
  (bs | len rest).
Proof.
  intros Hfit Hb Hlen. revert i h.
  induction fuel as [|fuel IH]; intros i h Hi Hi0 Hrun; [done|].
  assert (roundStart l i) as Hs.
  { destruct Hi as [k ->]. unfold roundStart.
    destruct (decide (k = 0)) as [->|]; [by left|right]. nia. }
  destruct (decide (len messages <= i)) as [Hge|Hlt].
  { rewrite round_exit in Hrun by done. injection Hrun as <- _.
    apply Z.divide_0_r. }
  assert (i + bs <= len messages) as Hroom.
  { destruct Hi as [k ->], Hlen as [n Hn]. rewrite Hn in *.
    assert (k < n) by nia. nia. }
  assert (upperBoundAt l messages i = i + bs) as Hup.
  { rewrite upperBoundAt_min by (done || lia). lia. }
  destruct (slice messages i (upperBoundAt l messages i)) as [chunk|why|] eqn:Hchunk.
  2:{ rewrite (round_panic _ _ _ _ _ _ why) in Hrun; [done|lia|done]. }
  2:{ by apply slice_not_Diverge in Hchunk. }
  destruct (tryPostMessages l chunk h) as [[err|] h1] eqn:Hsend.
  - rewrite (round_failed l messages Hfit _ _ _ _ chunk err h1) in Hrun by (done || lia).
    rewrite orb_false_r, Hup in Hrun.
    case_bool_decide; simpl in Hrun; injection Hrun as <- _;
      unfold len in *; rewrite length_drop.
    + replace (Z.of_nat (length messages - Z.to_nat (i + bs)))
        with (Z.of_nat (length messages) - i - bs) by lia.
      apply Z.divide_sub_r; [by apply Z.divide_sub_r|apply Z.divide_refl].
    + replace (Z.of_nat (length messages - Z.to_nat i))
        with (Z.of_nat (length messages) - i) by lia.
      by apply Z.divide_sub_r.
  - rewrite (round_sent l messages _ _ _ _ chunk h1) in Hrun by (done || lia).
    rewrite (roundStart_add l messages) in Hrun by (done || lia).
    eapply IH; [| |done]; [|lia].
    apply Z.divide_add_r; [done|apply Z.divide_refl].
Qed.

(** Between ticks the length of the buffer and the number of records
    received differ by whole batches. *)
Lemma workerLoop_aligned events messages h messages' h' :
  0 < bs ->
  Forall (fun e => isReceived e = true) events ->
  workerLoop l events messages h = (Done messages', h') ->
  (bs | len messages' - (len messages + receivedCount events)).
Proof.
  intros Hb Hall. revert messages h.
  induction Hall as [|e events He Hall IH]; intros messages h; simpl.
  - intros [= <- _]. unfold receivedCount. simpl.
    exists 0. unfold len. simpl. lia.
  - destruct e as [message|]; [|done]. unfold iobind.
    destruct (workerReceive l messages message h) as [[received|why|] h1] eqn:Hrecv;
      [|done..].
    intros Hrun. apply IH in Hrun.
    assert (receivedCount (Received message :: events) = receivedCount events + 1) as ->.
    { unfold receivedCount, len. rewrite filter_cons_True by done. simpl. lia. }
    assert (bs | len received - (len messages + 1)) as Hstep.
    { unfold workerReceive, append in Hrecv. case_bool_decide as Hfit; [|done].
      assert (len (messages ++ [message]) = len messages + 1) as Hlen.
      { unfold len. rewrite length_app. simpl. lia. }
      destruct (batchReached l (messages ++ [message])) as [[]|why|] eqn:Hbatch;
        try done.
      - unfold batchReached in Hbatch. case_bool_decide as Hz; [done|].
        injection Hbatch as Hrem. apply bool_decide_eq_true_1 in Hrem.
        apply Z.rem_divide in Hrem; [|done].
        apply (postMessagesFrom_aligned _ _ 0 h received h1 Hfit Hb Hrem) in Hrecv;
          [|apply Z.divide_0_r|done].
        rewrite <- Hlen. by apply Z.divide_sub_r.
      - injection Hrecv as <- _. rewrite Hlen.
        replace (len messages + 1 - (len messages + 1)) with 0 by lia.
        apply Z.divide_0_r. }
    replace (len messages' - (len messages + (receivedCount events + 1)))
      with ((len messages' - (len received + receivedCount events)) +
            (len received - (len messages + 1))) by lia.
    by apply Z.divide_add_r.
Qed.

End BatchTrigger.

(** C4, as amended. After the worker has appended a record to its buffer,
    it calls [postMessages], outside the last chance, exactly when the
    length of the buffer is a multiple of the batch size; otherwise it
    goes back to its [select] with the longer buffer. The timer plays no
    part in that test. In terms of the number of records received: as long
    as no tick has come in between, the send is triggered exactly at the
    records whose count is a multiple of the batch size. After a tick the
    two counts may part, and nothing is said. *)
Theorem batch_trigger `{GoLib} (l : splunkLogger)
    (events : list workerEvent) (h0 : history)
    (messages : list splunkMessage) (h : history) (message : splunkMessage) :
  intRange (postMessagesBatchSize l) ->
  fitsInMemory (messages ++ [message]) ->
  (sendTriggered l messages message = true <->
   (postMessagesBatchSize l | len (messages ++ [message]))) /\
  (sendTriggered l messages message = true ->
   workerReceive l messages message = postMessages l (messages ++ [message]) false) /\
  (sendTriggered l messages message = false -> postMessagesBatchSize l <> 0 ->
   workerReceive l messages message = ioret (Done (messages ++ [message]))) /\
  (0 < postMessagesBatchSize l ->
   Forall (fun e => isReceived e = true) events ->
   workerLoop l events [] h0 = (Done messages, h) ->
   (sendTriggered l messages message = true <->
    (postMessagesBatchSize l | receivedCount events + 1))).
Proof.
  intros Hint Hfit.
  pose proof (sendTriggered_divides l messages message Hfit) as Hiff.
  destruct (workerReceive_cases l messages message Hfit) as [Hyes Hno].
  split; [done|]. split; [done|]. split; [done|].
  intros Hb Hall Hloop. rewrite Hiff.
  pose proof (workerLoop_aligned l Hint events [] h0 messages h Hb Hall Hloop) as Hal.
  assert (len (messages ++ [message]) = len messages + 1) as ->.
  { unfold len. rewrite length_app. simpl. lia. }
  change (len (@nil splunkMessage)) with 0 in Hal.
  split; intros Hdiv.
  - replace (receivedCount events + 1)
      with ((len messages + 1) - (len messages - (0 + receivedCount events))) by lia.
    by apply Z.divide_sub_r.
  - replace (len messages + 1)
      with ((receivedCount events + 1) + (len messages - (0 + receivedCount events))) by lia.
    by apply Z.divide_add_r.
Qed.

(** Batches of two: with one record in the buffer the second one triggers
    the send. *)
Lemma batch_trigger_witness :
  sendTriggered (fixtureLogger 2 4 false) [record "1"] (record "2") = true /\
  (2 | receivedCount [Received (record "1")] + 1).
Proof.
  destruct (batch_trigger (H := accepting) (fixtureLogger 2 4 false)
              [Received (record "1")] [] [record "1"] [] (record "2"))
    as (Hlen & _ & _ & Hcount).
  - by vm_compute.
  - by vm_compute.
  - split.
    + apply Hlen. by exists 1.
    + apply Hcount; [done|by repeat constructor|done|].
      apply Hlen. by exists 1.
Defined.

(** C4 as the specification words it, of every number of records
    received, fails after a tick: one record is received and a tick
    delivers it; the second record makes the count a multiple of the batch
    size of two, but the buffer holds one record and no send is triggered. *)
Lemma batch_trigger_not_as_specified :
  ~ batchTriggerAsSpecified accepting (fixtureLogger 2 4 false).
Proof.
  intros Hspec.
  specialize (Hspec [Received (record "1"); Ticked] [] tickedHistory (record "2")).
  assert (sendTriggered (fixtureLogger 2 4 false) [] (record "2") = true)
    as Htrig.
  { apply Hspec; [by vm_compute|]. by exists 1. }
  by vm_compute in Htrig.
Qed.

(** ** Construction *)

Section ConstructionFacts.
Context `{GoLib} `{ConfigLib}.

Lemma getAdvancedOptionInt_run envName defaultValue h :
  exists d, getAdvancedOptionInt envName defaultValue h =
              (envInt envName defaultValue, h ++ d) /\ IoGo ∉ d.
Proof.
  unfold getAdvancedOptionInt, envInt. case_bool_decide.
  - exists []. rewrite app_nil_r. split; [done|]. apply not_elem_of_nil.
  - destruct (ParseInt32 _) as [err|n].
    + eexists [_]. split; [done|].
      intros Hin%list_elem_of_singleton. discriminate.
    + exists []. rewrite app_nil_r. split; [done|]. apply not_elem_of_nil.
Qed.

Lemma getAdvancedOptionDuration_run envName defaultValue h :
  exists v d, getAdvancedOptionDuration envName defaultValue h = (v, h ++ d) /\
              IoGo ∉ d.
Proof.
  unfold getAdvancedOptionDuration. case_bool_decide.
  - exists defaultValue, []. rewrite app_nil_r. split; [done|]. apply not_elem_of_nil.
  - destruct (ParseDuration _) as [err|v].
    + exists defaultValue. eexists [_]. split; [done|].
      intros Hin%list_elem_of_singleton. discriminate.
    + exists v, []. rewrite app_nil_r. split; [done|]. apply not_elem_of_nil.
Qed.

Lemma verifySplunkConnection_run l h :
  exists r d, verifySplunkConnection l h = (r, h ++ d) /\ IoGo ∉ d.
Proof.
  unfold verifySplunkConnection.
  destruct (httpNewRequestErr _ _) as [err|].
  { exists (Some err), []. rewrite app_nil_r. split; [done|]. apply not_elem_of_nil. }
  unfold iobind, doRequest, ioret.
  destruct (clientDo h _) as [err|resp]; simpl.
  - eexists _, [_]. split; [done|]. intros Hin%list_elem_of_singleton. discriminate.
  - case_bool_decide; [destruct (readAllLimited _ _)|];
      (eexists _, [_]; split; [done|]; intros Hin%list_elem_of_singleton; discriminate).
Qed.

(** What it takes for [readOptions] to go through. *)
Lemma readOptions_inr info o :
  readOptions info = inr o ->
  (exists u, parseURL info = inr u) /\
  (exists token, Config info !! splunkTokenKey = Some token) /\
  (exists b, boolOption info splunkInsecureSkipVerifyKey false = inr b) /\
  (exists b, boolOption info splunkGzipCompressionKey false = inr b) /\
  (exists b, boolOption info splunkIndexAcknowledgment false = inr b) /\
  (forall str, Config info !! splunkGzipCompressionLevelKey = Some str ->
     exists n, ParseInt32 str = inr n /\
               gzipDefaultCompression <= n <= gzipBestCompression).
Proof.
  unfold readOptions. intros Hread.
  destruct (infoHostname info) as [|hostname]; [done|].
  destruct (parseURL info) as [|u]; [done|].
  destruct (Config info !! splunkTokenKey) as [token|]; [|done].
  destruct (boolOption info splunkInsecureSkipVerifyKey false) as [|b1]; [done|].
  destruct (match Config info !! splunkCAPathKey with
            | Some caPath => _ | None => _ end) as [|rootCAs]; [done|].
  destruct (boolOption info splunkGzipCompressionKey false) as [|b2]; [done|].
  destruct (match Config info !! splunkGzipCompressionLevelKey with
            | Some str => _ | None => _ end) as [|lvl] eqn:Hlvl; [done|].
  destruct (boolOption info splunkIndexAcknowledgment false) as [|b3]; [done|].
  repeat (split; [by eauto|]).
  intros str Hstr. rewrite Hstr in Hlvl.
  destruct (ParseInt32 str) as [|n]; [done|]. exists n. split; [done|].
  destruct (bool_decide (n < gzipDefaultCompression)) eqn:H1;
    destruct (bool_decide (n > gzipBestCompression)) eqn:H2; try done.
  apply bool_decide_eq_false_1 in H1, H2. lia.
Qed.

Lemma not_elem_of_app_2 (d1 d2 : history) :
  IoGo ∉ d1 -> IoGo ∉ d2 -> IoGo ∉ d1 ++ d2.
Proof. intros H1 H2 [?|?]%elem_of_app; tauto. Qed.

(** How [New] can end: with an error and no worker; in the panic of
    [make] on a negative capacity, with no worker; or with a logger and
    its worker, which takes the options, the flag of the verification and
    the format to be well formed. *)
Lemma New_outcome info h :
  exists d, (New info h).2 = h ++ d /\
    match (New info h).1 with
    | Done (inl _) => IoGo ∉ d
    | Panic _ =>
        (IoGo ∉ d) /\ (envInt envVarStreamChannelSize defaultStreamChannelSize < 0)
    | Diverge => False
    | Done (inr _) =>
        (exists o, readOptions info = inr o) /\
        (exists v, boolOption info splunkVerifyConnectionKey true = inr v) /\
        (let f := default splunkFormatInline (Config info !! splunkFormatKey) in
         f = splunkFormatInline \/ f = splunkFormatJSON \/ f = splunkFormatRaw) /\
        0 <= envInt envVarStreamChannelSize defaultStreamChannelSize
    end.
Proof.
  destruct (New info h) as [res h'] eqn:Hnew. simpl. unfold New in Hnew.
  destruct (readOptions info) as [err|o] eqn:Hopt.
  { injection Hnew as <- <-. exists []. rewrite app_nil_r.
    split; [done|]. apply not_elem_of_nil. }
  destruct (getAdvancedOptionDuration_run envVarPostMessagesFrequency
              defaultPostMessagesFrequency h) as (freq & d1 & Hrun1 & Hd1).
  unfold iobind at 1 in Hnew. rewrite Hrun1 in Hnew.
  destruct (getAdvancedOptionInt_run envVarPostMessagesBatchSize
              defaultPostMessagesBatchSize (h ++ d1)) as (d2 & Hrun2 & Hd2).
  unfold iobind at 1 in Hnew. rewrite Hrun2 in Hnew.
  destruct (getAdvancedOptionInt_run envVarBufferMaximum
              defaultBufferMaximum ((h ++ d1) ++ d2)) as (d3 & Hrun3 & Hd3).
  unfold iobind at 1 in Hnew. rewrite Hrun3 in Hnew.
  destruct (getAdvancedOptionInt_run envVarStreamChannelSize
              defaultStreamChannelSize (((h ++ d1) ++ d2) ++ d3)) as (d4 & Hrun4 & Hd4).
  unfold iobind at 1 in Hnew. rewrite Hrun4 in Hnew.
  clear Hrun1 Hrun2 Hrun3 Hrun4.
  set (size := envInt envVarStreamChannelSize defaultStreamChannelSize) in *.
  assert (IoGo ∉ d1 ++ d2 ++ d3 ++ d4) as Hd
    by (repeat apply not_elem_of_app_2; done).
  assert ((((h ++ d1) ++ d2) ++ d3) ++ d4 = h ++ (d1 ++ d2 ++ d3 ++ d4)) as Hassoc
    by (by rewrite <- !app_assoc).
  rewrite Hassoc in Hnew. clear Hassoc.
  set (d := d1 ++ d2 ++ d3 ++ d4) in *. clearbody d. clear d1 d2 d3 d4 Hd1 Hd2 Hd3 Hd4.
  case_bool_decide as Hsize.
  { injection Hnew as <- <-. exists d. by split. }
  destruct (boolOption info splunkVerifyConnectionKey true) as [err|verify] eqn:Hverify.
  { injection Hnew as <- <-. exists d. by split. }
  set (splLogger := {| url := urlString (optURL o) |}) in *.
  assert (exists failed d5,
            (if verify then verifySplunkConnection splLogger else ioret None) (h ++ d) =
              (failed, (h ++ d) ++ d5) /\ IoGo ∉ d5) as (failed & d5 & Hrun & Hd5).
  { destruct verify; [apply verifySplunkConnection_run|].
    exists None, []. rewrite app_nil_r. split; [done|]. apply not_elem_of_nil. }
  unfold iobind at 1 in Hnew. rewrite Hrun in Hnew.
  destruct failed as [err|].
  { injection Hnew as <- <-. exists (d ++ d5).
    split; [by rewrite app_assoc|]. by apply not_elem_of_app_2. }
  repeat case_bool_decide; unfold iobind, emit, ioret in Hnew; simpl in Hnew;
    injection Hnew as <- <-;
    try (exists (d ++ d5 ++ [IoGo]); split; [by rewrite <- !app_assoc|];
         split; [by eauto|]; split; [by eauto|]; split; [by auto|lia]).
  exists (d ++ d5). split; [by rewrite app_assoc|]. by apply not_elem_of_app_2.
Qed.

End ConstructionFacts.

(** C9, as amended. A missing URL or token, a malformed URL, an invalid
    boolean in any of the four boolean options, a compression level that
    is not a number or is out of range, and a format that is not one of
    the three make [New] end without a logger and without a worker: it
    returns an error, as long as the capacity that the environment gives
    the channel is not negative (on a negative one [make] panics, for some
    of these configurations before they are looked at). An invalid
    duration in the environment is not such an error: it is written to the
    daemon log, the default period is used, and [New] goes on. *)
Theorem New_rejects_malformed `{GoLib} `{ConfigLib} (info : Info) (h : history) :
  malformed info ->
  (IoGo ∉ issued (New info) h) /\
  (forall c, (New info h).1 <> Done (inr c)) /\
  (0 <= envInt envVarStreamChannelSize defaultStreamChannelSize ->
   exists err, (New info h).1 = Done (inl err)) /\
  (forall envName defaultValue err h0,
     Getenv envName <> "" -> ParseDuration (Getenv envName) = inl err ->
     exists entry,
       getAdvancedOptionDuration envName defaultValue h0 =
         (defaultValue, h0 ++ [IoLog entry]) /\
       entryLevel entry = ErrorLevel).
Proof.
  intros Hbad.
  destruct (New_outcome info h) as (d & Hd & Hres).
  rewrite (issued_app _ _ _ Hd).
  assert (forall c, (New info h).1 <> Done (inr c)) as Hno.
  { intros c Hc. rewrite Hc in Hres.
    destruct Hres as ([o Hopt] & [v Hverify] & Hformat & _).
    destruct (readOptions_inr info o Hopt)
      as ([u Hu] & [token Htoken] & [b1 Hb1] & [b2 Hb2] & [b3 Hb3] & Hlevel).
    unfold malformed, missingOption, malformedURL, invalidBoolean, invalidLevel,
      unsupportedFormat in Hbad.
    destruct Hbad as [Hm|[Hm|[Hm|[Hm|[Hm|[Hm|[Hm|[Hm|Hm]]]]]]]].
    - unfold parseURL in Hu. by rewrite Hm in Hu.
    - congruence.
    - destruct Hm as (str & _ & err & Herr). congruence.
    - destruct Hm as (str & err & Hstr & Herr). unfold boolOption in Hb1.
      rewrite Hstr in Hb1. congruence.
    - destruct Hm as (str & err & Hstr & Herr). unfold boolOption in Hb2.
      rewrite Hstr in Hb2. congruence.
    - destruct Hm as (str & err & Hstr & Herr). unfold boolOption in Hb3.
      rewrite Hstr in Hb3. congruence.
    - destruct Hm as (str & err & Hstr & Herr). unfold boolOption in Hverify.
      rewrite Hstr in Hverify. congruence.
    - destruct Hm as (str & Hstr & Hlvl).
      destruct (Hlevel str Hstr) as (n & Hn & Hrange).
      destruct Hlvl as [[err Herr]|(n' & Hn' & Hout)]; [congruence|].
      assert (n' = n) as -> by congruence. lia.
    - destruct Hm as (f & Hf & H1 & H2 & H3). rewrite Hf in Hformat. simpl in Hformat.
      tauto. }
  split; [|split; [done|split]].
  - destruct ((New info h).1) as [[err|c]|why|]; [done| |tauto|done].
    by destruct (Hno c).
  - intros Hsize.
    destruct ((New info h).1) as [[err|c]|why|]; [by eauto| |lia|done].
    by destruct (Hno c).
  - intros envName defaultValue err h0 Hset Herr.
    unfold getAdvancedOptionDuration.
    rewrite bool_decide_eq_false_2 by done. rewrite Herr.
    by eexists.
Qed.

Lemma xmlInfo_malformed :
  malformed (H0 := fixtureConfigLib emptyEnv) xmlInfo.
Proof.
  do 8 right. exists "xml". split; [by vm_compute|].
  repeat split; discriminate.
Qed.

Lemma New_rejects_malformed_witness :
  (IoGo ∉ issued (New (H := refusing) (H0 := fixtureConfigLib emptyEnv) xmlInfo) []) /\
  (New (H := refusing) (H0 := fixtureConfigLib emptyEnv) xmlInfo []).1 =
    Done (inl "unknown format specified xml, supported formats are inline, json and raw").
Proof.
  destruct (New_rejects_malformed (H := refusing) (H0 := fixtureConfigLib emptyEnv)
              xmlInfo [] xmlInfo_malformed) as (Hgo & _ & _ & _).
  split; [done|]. by vm_compute.
Defined.

(** C9 as the specification words it fails on an invalid duration: with
    the batch period of the environment set to "soon" and a well-formed
    configuration, [New] returns a logger and starts its worker. *)
Lemma New_not_as_specified :
  ~ constructionAsSpecified (H := accepting) (H0 := fixtureConfigLib badPeriodEnv)
      goodInfo [].
Proof.
  intros Hspec. destruct Hspec as [[err Herr] _].
  - right. split; [by vm_compute|]. eexists. by vm_compute.
  - vm_compute in Herr. discriminate.
Qed.

(** * The options and the requests *)

(** ** [ValidateLogOpt] *)

Lemma supportedLogOpt_spec key :
  supportedLogOpt key = true <->
  key ∈ ["splunk-url"; "splunk-token"; "splunk-source"; "splunk-sourcetype";
         "splunk-index"; "splunk-capath"; "splunk-caname";
         "splunk-insecureskipverify"; "splunk-format"; "splunk-verify-connection";
         "splunk-gzip"; "splunk-gzip-level"; "splunk-index-acknowledgment";
         "env"; "env-regex"; "labels"; "labels-regex"; "tag"].
Proof.
  unfold supportedLogOpt.
  rewrite !orb_true_iff, !bool_decide_eq_true, !elem_of_cons, elem_of_nil.
  unfold splunkURLKey, splunkTokenKey, splunkSourceKey, splunkSourceTypeKey,
    splunkIndexKey, splunkCAPathKey, splunkCANameKey, splunkInsecureSkipVerifyKey,
    splunkFormatKey, splunkVerifyConnectionKey, splunkGzipCompressionKey,
    splunkGzipCompressionLevelKey, splunkIndexAcknowledgment, envKey, envRegexKey,
    labelsKey, labelsRegexKey, tagKey.
  tauto.
Qed.

Lemma validateKeys_None keys :
  validateKeys keys = None <-> Forall (fun key => supportedLogOpt key = true) keys.
Proof.
  induction keys as [|key keys IH]; cbn [validateKeys].
  - split; [by constructor|done].
  - destruct (supportedLogOpt key) eqn:Hkey.
    + rewrite IH. split; [by constructor|by inversion 1].
    + split; [done|]. inversion 1. congruence.
Qed.

Lemma validateKeys_Some keys err :
  validateKeys keys = Some err ->
  exists key, key ∈ keys /\ supportedLogOpt key = false /\ err = unknownLogOpt key.
Proof.
  induction keys as [|key keys IH]; cbn [validateKeys]; [done|].
  destruct (supportedLogOpt key) eqn:Hkey.
  - intros (key' & Hin & Hrest)%IH. exists key'. split; [by right|done].
  - intros [= <-]. exists key. split; [by left|done].
Qed.

Lemma range_keys `{ConfigLib} (cfg : gmap string string) key :
  mapRange cfg ≡ₚ map_to_list cfg ->
  key ∈ (mapRange cfg).*1 <-> is_Some (cfg !! key).
Proof.
  intros Hrange. rewrite Hrange, list_elem_of_fmap. split.
  - intros ([k v] & -> & Hin). apply elem_of_map_to_list in Hin. by exists v.
  - intros [v Hv]. exists (key, v). split; [done|]. by apply elem_of_map_to_list.
Qed.

(** [ValidateLogOpt] returns [nil] exactly on the configurations all of
    whose keys are among the eighteen options of the driver, whatever the
    order in which the [range] visits the map. *)
Theorem ValidateLogOpt_accepts `{ConfigLib} (cfg : gmap string string) :
  mapRange cfg ≡ₚ map_to_list cfg ->
  ValidateLogOpt cfg = None <->
  forall key, is_Some (cfg !! key) ->
    key ∈ ["splunk-url"; "splunk-token"; "splunk-source"; "splunk-sourcetype";
           "splunk-index"; "splunk-capath"; "splunk-caname";
           "splunk-insecureskipverify"; "splunk-format"; "splunk-verify-connection";
           "splunk-gzip"; "splunk-gzip-level"; "splunk-index-acknowledgment";
           "env"; "env-regex"; "labels"; "labels-regex"; "tag"].
Proof.
  intros Hrange. unfold ValidateLogOpt.
  rewrite validateKeys_None, Forall_forall.
  split; intros Hall key Hkey.
  - apply supportedLogOpt_spec, Hall. by apply range_keys.
  - apply supportedLogOpt_spec, Hall. by apply range_keys.
Qed.

Lemma ValidateLogOpt_accepts_witness :
  ValidateLogOpt (H := fixtureConfigLib emptyEnv) (Config goodInfo) = None.
Proof.
  apply (ValidateLogOpt_accepts (H := fixtureConfigLib emptyEnv) (Config goodInfo)).
  - reflexivity.
  - intros key [v Hv]. unfold goodInfo in Hv. simpl in Hv.
    apply lookup_insert_Some in Hv as [[<- _]|[_ Hv]]; [set_solver|].
    apply lookup_insert_Some in Hv as [[<- _]|[_ Hv]]; [set_solver|].
    apply lookup_insert_Some in Hv as [[<- _]|[_ Hv]]; [set_solver|].
    by rewrite lookup_empty in Hv.
Defined.

(** When [ValidateLogOpt] returns an error, the error names a key of the
    configuration that is not an option of the driver. *)
Theorem ValidateLogOpt_rejects `{ConfigLib} (cfg : gmap string string) (err : error) :
  mapRange cfg ≡ₚ map_to_list cfg ->
  ValidateLogOpt cfg = Some err ->
  exists key value,
    cfg !! key = Some value /\
    (key ∉ ["splunk-url"; "splunk-token"; "splunk-source"; "splunk-sourcetype";
           "splunk-index"; "splunk-capath"; "splunk-caname";
           "splunk-insecureskipverify"; "splunk-format"; "splunk-verify-connection";
           "splunk-gzip"; "splunk-gzip-level"; "splunk-index-acknowledgment";
           "env"; "env-regex"; "labels"; "labels-regex"; "tag"]) /\
    err = "unknown log opt '" +:+ key +:+ "' for splunk log driver".
Proof.
  intros Hrange Hrun. unfold ValidateLogOpt in Hrun.
  apply validateKeys_Some in Hrun as (key & Hin & Hkey & ->).
  apply range_keys in Hin as [value Hvalue]; [|done].
  exists key, value. split; [done|]. split; [|done].
  rewrite <- supportedLogOpt_spec. by rewrite Hkey.
Qed.

Lemma ValidateLogOpt_rejects_witness :
  exists key value,
    colourConfig !! key = Some value /\
    (key ∉ ["splunk-url"; "splunk-token"; "splunk-source"; "splunk-sourcetype";
           "splunk-index"; "splunk-capath"; "splunk-caname";
           "splunk-insecureskipverify"; "splunk-format"; "splunk-verify-connection";
           "splunk-gzip"; "splunk-gzip-level"; "splunk-index-acknowledgment";
           "env"; "env-regex"; "labels"; "labels-regex"; "tag"]) /\
    "unknown log opt 'splunk-colour' for splunk log driver" =
      "unknown log opt '" +:+ key +:+ "' for splunk log driver".
Proof.
  apply (ValidateLogOpt_rejects (H := fixtureConfigLib emptyEnv) colourConfig).
  - reflexivity.
  - by vm_compute.
Defined.

(** ** [parseURL] *)

(** [parseURL] accepts exactly the absolute [http] and [https] URLs
    without a path (or with the path [/]), a query or a fragment, and
    what it returns is the URL it was given with the path of the event
    collector. *)
Theorem parseURL_accepts `{ConfigLib} (info : Info) (u : urlURL) :
  parseURL info = inr u <->
  exists str parsed,
    Config info !! "splunk-url" = Some str /\
    urlParse str = inr parsed /\
    (Scheme parsed = "http" \/ Scheme parsed = "https") /\
    (Path parsed = "" \/ Path parsed = "/") /\
    RawQuery parsed = "" /\ Fragment parsed = "" /\
    u = {| Scheme := Scheme parsed; UrlHost := UrlHost parsed;
           Path := "/services/collector/event/1.0";
           RawQuery := ""; Fragment := "" |}.
Proof.
  unfold parseURL, splunkURLKey. split.
  - destruct (Config info !! "splunk-url") as [str|]; [|done].
    destruct (urlParse str) as [err|parsed] eqn:Hparse; [done|].
    destruct (_ || _) eqn:Hshape; [done|]. intros [= <-].
    repeat (apply orb_false_iff in Hshape as [Hshape ?]).
    exists str, parsed.
    repeat match goal with
    | H : _ && _ = false |- _ => apply andb_false_iff in H
    end.
    rewrite !bool_decide_eq_false in *.
    assert (Scheme parsed = "http" \/ Scheme parsed = "https") as Hscheme.
    { destruct (decide (Scheme parsed = "http")); [by left|].
      destruct (decide (Scheme parsed = "https")); [by right|]. tauto. }
    assert (Path parsed = "" \/ Path parsed = "/") as Hpath.
    { destruct (decide (Path parsed = "")); [by left|].
      destruct (decide (Path parsed = "/")); [by right|]. tauto. }
    assert (RawQuery parsed = "") as Hquery.
    { by destruct (decide (RawQuery parsed = "")). }
    assert (Fragment parsed = "") as Hfragment.
    { by destruct (decide (Fragment parsed = "")). }
    by rewrite Hquery, Hfragment.
  - intros (str & parsed & -> & -> & Hscheme & Hpath & Hquery & Hfragment & ->).
    rewrite Hquery, Hfragment.
    destruct Hscheme as [-> | ->]; destruct Hpath as [-> | ->]; done.
Qed.

(** The three ways [parseURL] fails, each with an error of its own; the
    error of [url.Parse] is not passed on. *)
Theorem parseURL_rejects `{ConfigLib} (info : Info) (err : error) :
  parseURL info = inl err ->
  (Config info !! "splunk-url" = None /\
   err = "splunk: splunk-url is expected") \/
  (exists str,
     Config info !! "splunk-url" = Some str /\
     ((exists why, urlParse str = inl why) /\
      err = "splunk: failed to parse " +:+ str +:+ " as url value in splunk-url" \/
      (exists parsed, urlParse str = inr parsed) /\
      err = "splunk: expected format scheme://dns_name_or_ip:port for splunk-url")).
Proof.
  unfold parseURL, splunkURLKey.
  destruct (Config info !! "splunk-url") as [str|]; [|intros [= <-]; by left].
  intros Hrun. right. exists str. split; [done|].
  destruct (urlParse str) as [why|parsed].
  - injection Hrun as <-. left. split; [by exists why|done].
  - destruct (_ || _); [|done]. injection Hrun as <-.
    right. split; [by exists parsed|done].
Qed.

Lemma parseURL_rejects_witness :
  (Config bareInfo !! "splunk-url" = None /\
   "splunk: splunk-url is expected" = "splunk: splunk-url is expected") \/
  (exists str,
     Config bareInfo !! "splunk-url" = Some str /\
     ((exists why, urlParse (ConfigLib := fixtureConfigLib emptyEnv) str = inl why) /\
      "splunk: splunk-url is expected" =
        "splunk: failed to parse " +:+ str +:+ " as url value in splunk-url" \/
      (exists parsed, urlParse (ConfigLib := fixtureConfigLib emptyEnv) str = inr parsed) /\
      "splunk: splunk-url is expected" =
        "splunk: expected format scheme://dns_name_or_ip:port for splunk-url")).
Proof.
  apply (parseURL_rejects (H := fixtureConfigLib emptyEnv) bareInfo).
  by vm_compute.
Defined.

(** ** [verifySplunkConnection] *)

(** The check of the connection makes at most one request: an [OPTIONS]
    to the URL of the logger, with an empty body and without a header (the
    token is not sent). It returns [nil] exactly when that request is
    answered with the status 200. *)
Theorem verifySplunkConnection_probe `{GoLib} (l : splunkLogger) (h : history) :
  (issued (verifySplunkConnection l) h = [] \/
   exists res, issued (verifySplunkConnection l) h = [IoHttp (probe l) res]) /\
  ((verifySplunkConnection l h).1 = None <->
   exists resp,
     issued (verifySplunkConnection l) h = [IoHttp (probe l) (inr resp)] /\
     StatusCode resp = 200).
Proof.
  assert (exists r d, verifySplunkConnection l h = (r, h ++ d) /\
            (d = [] /\ (exists err, r = Some err) \/
             exists res, d = [IoHttp (probe l) res] /\
               (r = None <-> exists resp, res = inr resp /\ StatusCode resp = 200)))
    as (r & d & Hrun & Hd).
  { unfold verifySplunkConnection.
    destruct (httpNewRequestErr _ _) as [err|].
    { exists (Some err), []. rewrite app_nil_r. split; [done|]. left. eauto. }
    unfold iobind, doRequest, ioret. fold (probe l).
    destruct (clientDo h (probe l)) as [err|resp] eqn:Hdo; simpl.
    - eexists _, [_]. split; [done|]. right. eexists. split; [done|].
      split; [done|]. by intros (resp & [=] & _).
    - case_bool_decide as Hs; [destruct (readAllLimited _ _)|];
        (eexists _, [_]; split; [done|]; right; eexists; split; [done|]).
      + split; [done|]. intros (resp' & [= <-] & Hok). by destruct Hs.
      + split; [done|]. intros (resp' & [= <-] & Hok). by destruct Hs.
      + split; [intros _|done]. exists resp. split; [done|].
        by destruct (decide (StatusCode resp = StatusOK)). }
  rewrite (issued_app (verifySplunkConnection l) h d) by (by rewrite Hrun).
  rewrite Hrun. simpl. destruct Hd as [[-> [err ->]]|(res & -> & Hres)].
  - split; [by left|]. split; [done|]. by intros (resp & [=] & _).
  - split; [right; by exists res|]. rewrite Hres. split.
    + intros (resp & -> & Hok). by exists resp.
    + intros (resp & [= ->] & Hok). by exists resp.
Qed.

(** ** The request of [tryPostMessages] *)

Section RequestShape.
Context `{GoLib}.

(** The headers of the request of a logger whose request channel, if it
    has one, is [channel]. *)
Lemma tryPostMessages_run l messages h :
  (exists err, tryPostMessages l messages h = (Some err, h)) \/
  (messages = [] /\ tryPostMessages l messages h = (None, h)) \/
  (exists err, indexAck l = true /\ uuidNewRandom h = inl err /\
     tryPostMessages l messages h = (Some err, h ++ [IoUuid (inl err)])) \/
  (exists draw res,
     (indexAck l = false /\ draw = [] \/
      indexAck l = true /\ draw = [IoUuid (uuidNewRandom h)]) /\
     tryPostMessages l messages h =
       (match res with
        | inl err => Some err
        | inr resp => responseError resp
        end,
        h ++ draw ++
        [IoHttp {| Method := "POST"; URL := url l;
                   Header :=
                     [("Authorization", auth l)] ++
                     (if gzipCompression l then [("Content-Encoding", "gzip")] else []) ++
                     (if indexAck l then
                        match uuidNewRandom h with
                        | inr ch => [("X-Splunk-Request-Channel", ch)]
                        | inl _ => []
                        end
                      else []);
                   Body := requestBody l messages |} res])).
Proof.
  destruct messages as [|m messages]; [right; left; by rewrite tryPostMessages_nil|].
  unfold tryPostMessages.
  rewrite bool_decide_eq_false_2 by (unfold len; simpl; lia).
  destruct (newBodyWriter l) as [err|w] eqn:Hw; [left; by exists err|].
  destruct (writeMessages w (m :: messages)) as [err|w'] eqn:Hwr; [left; by exists err|].
  destruct (httpNewRequestErr "POST" (url l)) as [err|]; [left; by exists err|].
  rewrite (built_body l (m :: messages) w w' Hw Hwr).
  set (req0 := headerSet "Authorization" (auth l) _).
  set (req1 := if gzipCompression l then _ else req0).
  assert (req1 =
    {| Method := "POST"; URL := url l;
       Header := [("Authorization", auth l)] ++
                 (if gzipCompression l then [("Content-Encoding", "gzip")] else []);
       Body := requestBody l (m :: messages) |}) as Hreq1.
  { subst req1 req0. by destruct (gzipCompression l). }
  unfold iobind, ioret, drawUuid, doRequest.
  destruct (indexAck l) eqn:Hack.
  - destruct (uuidNewRandom h) as [err|ch] eqn:Hu.
    { right. right. left. by exists err. }
    right. right. right. cbn beta iota zeta.
    set (req2 := headerSet _ ch req1).
    assert (req2 =
      {| Method := "POST"; URL := url l;
         Header := [("Authorization", auth l)] ++
                   (if gzipCompression l then [("Content-Encoding", "gzip")] else []) ++
                   [("X-Splunk-Request-Channel", ch)];
         Body := requestBody l (m :: messages) |}) as ->.
    { subst req2. rewrite Hreq1. by destruct (gzipCompression l). }
    set (res := clientDo _ _). exists [IoUuid (inr ch)], res.
    split; [by right|]. rewrite <- app_assoc.
    destruct res as [err|resp]; [done|]. unfold responseError.
    by destruct (bool_decide _); [destruct (readAllLimited _ _)|].
  - right. right. right. cbn beta iota zeta. rewrite Hreq1.
    set (res := clientDo _ _). exists [], res.
    split; [by left|]. rewrite app_nil_r.
    destruct res as [err|resp]; [done|]. unfold responseError.
    by destruct (bool_decide _); [destruct (readAllLimited _ _)|].
Qed.

End RequestShape.

Lemma writeMessages_unencodable `{GoLib} w messages m err :
  m ∈ messages -> jsonMarshal m = inl err ->
  exists err' before m' after,
    writeMessages w messages = inl err' /\
    messages = before ++ m' :: after /\
    Forall (fun m => exists js, jsonMarshal m = inr js) before /\
    jsonMarshal m' = inl err'.
Proof.
  intros Hin Hm. revert w.
  induction messages as [|m0 messages IH]; intros w; [by apply elem_of_nil in Hin|].
  simpl. destruct (jsonMarshal m0) as [err0|js] eqn:Hm0.
  - exists err0, [], m0, messages. by repeat split.
  - apply elem_of_cons in Hin as [->|Hin]; [congruence|].
    destruct (IH Hin (writerWrite w js)) as (err' & before & m' & after & Hrun & -> & Hall & Hm').
    exists err', (m0 :: before), m', after.
    repeat split; try done. constructor; [by exists js|done].
Qed.

(** Every request of [tryPostMessages] is a [POST] to the URL of the
    logger whose body is the body of the records and whose headers are
    the authorization of the logger, then the content encoding when
    compression is on, then the request channel when index
    acknowledgment is on; and one call makes no other request. *)
Theorem tryPostMessages_request `{GoLib} (l : splunkLogger)
    (messages : list splunkMessage) (h : history) (req : Request)
    (res : error + Response) :
  IoHttp req res ∈ issued (tryPostMessages l messages) h ->
  req = {| Method := "POST"; URL := url l;
           Header :=
             [("Authorization", auth l)] ++
             (if gzipCompression l then [("Content-Encoding", "gzip")] else []) ++
             (if indexAck l then
                match uuidNewRandom h with
                | inr ch => [("X-Splunk-Request-Channel", ch)]
                | inl _ => []
                end
              else []);
           Body := requestBody l messages |} /\
  requestsOf (issued (tryPostMessages l messages) h) = [req].
Proof.
  destruct (tryPostMessages_run l messages h)
    as [[err Hrun]|[[_ Hrun]|[(err & _ & _ & Hrun)|(draw & res' & Hdraw & Hrun)]]].
  - rewrite (issued_app _ h []) by (by rewrite Hrun, app_nil_r).
    by intros ?%elem_of_nil.
  - rewrite (issued_app _ h []) by (by rewrite Hrun, app_nil_r).
    by intros ?%elem_of_nil.
  - rewrite (issued_app _ h [IoUuid (inl err)]) by (by rewrite Hrun).
    by intros [=]%list_elem_of_singleton.
  - erewrite (issued_app _ h) by (by rewrite Hrun).
    destruct Hdraw as [[_ ->]|[_ ->]].
    + intros [= -> ->]%list_elem_of_singleton. done.
    + intros [[=]|[= -> ->]%list_elem_of_singleton]%elem_of_cons. done.
Qed.

Lemma tryPostMessages_request_witness :
  exists req,
    req = {| Method := "POST";
             URL := "https://splunk.example:8088/services/collector/event/1.0";
             Header := [("Authorization", "Splunk token"); ("Content-Encoding", "gzip")];
             Body := "gz{1}{2}" |} /\
    requestsOf (issued (tryPostMessages (H := accepting) (fixtureLogger 2 4 true)
                          [record "1"; record "2"]) []) = [req].
Proof.
  eexists.
  apply (tryPostMessages_request (H := accepting) (fixtureLogger 2 4 true)
           [record "1"; record "2"] [] _ (inr answer200)).
  vm_compute. apply list_elem_of_here.
Defined.

(** A set of records one of which cannot be marshalled is not sent, not
    even in part: the call returns the error of the first such record (or
    that of the compressor, if it refuses its level) and leaves no trace
    in the history. *)
Theorem tryPostMessages_unencodable `{GoLib} (l : splunkLogger)
    (messages : list splunkMessage) (h : history) (m : splunkMessage) (err : error) :
  m ∈ messages -> jsonMarshal m = inl err ->
  exists err',
    tryPostMessages l messages h = (Some err', h) /\
    ((gzipCompression l = true /\
      gzipNewWriterLevel (gzipCompressionLevel l) = Some err') \/
     exists before m' after,
       messages = before ++ m' :: after /\
       Forall (fun m => exists js, jsonMarshal m = inr js) before /\
       jsonMarshal m' = inl err').
Proof.
  intros Hin Hm. unfold tryPostMessages.
  rewrite bool_decide_eq_false_2.
  2:{ unfold len. destruct messages; [by apply elem_of_nil in Hin|simpl; lia]. }
  unfold newBodyWriter. destruct (gzipCompression l).
  - destruct (gzipNewWriterLevel _) as [err0|] eqn:Hlvl.
    { exists err0. split; [done|]. by left. }
    destruct (writeMessages_unencodable
                {| buffer := ""; gzipWriter := Some (gzipCompressionLevel l, "") |}
                messages m err Hin Hm)
      as (err' & before & m' & after & -> & Hsplit).
    exists err'. split; [done|]. right. by exists before, m', after.
  - destruct (writeMessages_unencodable {| buffer := ""; gzipWriter := None |}
                messages m err Hin Hm)
      as (err' & before & m' & after & -> & Hsplit).
    exists err'. split; [done|]. right. by exists before, m', after.
Qed.

Lemma tryPostMessages_unencodable_witness :
  exists err',
    tryPostMessages (H := pickyLib) (fixtureLogger 2 4 false)
      [record "1"; record "NaN"] [] = (Some err', []) /\
    ((gzipCompression (fixtureLogger 2 4 false) = true /\
      gzipNewWriterLevel (GoLib := pickyLib)
        (gzipCompressionLevel (fixtureLogger 2 4 false)) = Some err') \/
     exists before m' after,
       [record "1"; record "NaN"] = before ++ m' :: after /\
       Forall (fun m => exists js, jsonMarshal (GoLib := pickyLib) m = inr js) before /\
       jsonMarshal (GoLib := pickyLib) m' = inl err').
Proof.
  apply (tryPostMessages_unencodable (H := pickyLib) (fixtureLogger 2 4 false)
           [record "1"; record "NaN"] [] (record "NaN") "json: unsupported value: NaN").
  - apply list_elem_of_further, list_elem_of_here.
  - reflexivity.
Defined.

(** * The flush, batch by batch *)

Lemma outcomes_app h1 h2 : outcomes (h1 ++ h2) = outcomes h1 ++ outcomes h2.
Proof. apply omap_app. Qed.

Lemma outcomes_ok (d : history) :
  errorEntries d = [] -> outcomes d = inl <$> okBodies d.
Proof.
  unfold outcomes, errorEntries, okBodies.
  induction d as [|e d IH]; [done|]. simpl. unfold outcome.
  destruct e as [req [err|resp]|res|entry| |]; simpl; try done.
  - case_bool_decide; simpl; [|done]. intros Hd. f_equal. exact (IH Hd).
  - case_bool_decide; simpl; [done|]. exact IH.
Qed.

Lemma outcomes_unsent `{GoLib} (messages : list splunkMessage) i upper :
  outcomes (unsentEntries messages i upper) =
  inr <$> (failedEntry <$> take (Z.to_nat (upper - i)) (drop (Z.to_nat i) messages)).
Proof.
  unfold unsentEntries, outcomes.
  induction (take _ _) as [|m ms IH]; [done|].
  rewrite !fmap_cons. simpl. unfold outcome at 1. simpl.
  rewrite failedEntry_level. simpl. by f_equal.
Qed.

Lemma outcomes_attempt `{GoLib} l chunk h r h' :
  tryPostMessages l chunk h = (r, h') ->
  exists d, h' = h ++ d /\
    outcomes d = match r with
                 | None => if bool_decide (chunk = []) then []
                           else [inl (requestBody l chunk)]
                 | Some _ => []
                 end.
Proof.
  intros (d & -> & Herr & Hcase)%tryPostMessages_account.
  exists d. split; [done|]. rewrite outcomes_ok by done.
  destruct r as [err|].
  - destruct Hcase as [_ ->]. done.
  - destruct Hcase as [[-> ->]|[Hne ->]]; [done|].
    by rewrite bool_decide_eq_false_2.
Qed.

Section FlushOutcome.
Context `{GoLib}.
Variable l : splunkLogger.
Variable messages : list splunkMessage.
Hypothesis batchSize_int : intRange (postMessagesBatchSize l).
Hypothesis batchSize_pos : 0 < postMessagesBatchSize l.
Hypothesis messages_fit : fitsInMemory messages.

Local Abbreviation bs := (postMessagesBatchSize l).

Lemma roundStart_batch (k : nat) : roundStart l (Z.of_nat k * bs).
Proof. unfold roundStart. destruct k; [by left|right; nia]. Qed.

Lemma batch_chunk (k : nat) :
  take (Z.to_nat (Z.min bs (len messages - Z.of_nat k * bs)))
       (drop (Z.to_nat (Z.of_nat k * bs)) messages) = batch l messages k.
Proof.
  unfold batch. replace (Z.to_nat (Z.of_nat k * bs)) with (k * Z.to_nat bs)%nat by nia.
  destruct (decide (bs <= len messages - Z.of_nat k * bs)).
  - by rewrite Z.min_l by done.
  - rewrite !take_ge; [done| |]; rewrite length_drop; unfold len in *; nia.
Qed.

Lemma batch_nonempty (k : nat) : Z.of_nat k * bs < len messages -> batch l messages k <> [].
Proof.
  intros Hk Hnil. apply (f_equal length) in Hnil. unfold batch in Hnil.
  rewrite length_take, length_drop in Hnil. simpl in Hnil. unfold len in *. nia.
Qed.

Lemma concat_batches (n : nat) :
  concat (batch l messages <$> seq 0 n) = take (n * Z.to_nat bs) messages.
Proof.
  induction n as [|n IH]; [reflexivity|].
  rewrite seq_S, fmap_app, concat_app, IH. simpl. rewrite app_nil_r.
  unfold batch. rewrite take_take_drop. f_equal. lia.
Qed.

(** The whole course of a flush, from the round of the batch [k]: some
    batches are accepted, one request each; then the buffer is at its end,
    or a send fails and the log takes what the overflow rule gives up. *)
Lemma postMessagesFrom_outcome fuel lastChance (k : nat) h rest h' :
  postMessagesFrom fuel l messages lastChance (Z.of_nat k * bs) h = (Done rest, h') ->
  exists (n : nat) (dropped : list splunkMessage) (d : history),
    h' = h ++ d /\
    flushEnd l messages lastChance (k + n) dropped rest /\
    outcomes d = (inl <$> (requestBody l <$> (batch l messages <$> seq k n))) ++
                 (inr <$> (failedEntry <$> dropped)) /\
    ((0 < n)%nat -> Z.of_nat (k + n - 1) * bs < len messages) /\
    (Z.of_nat (k + n) * bs < len messages ->
     exists hf err, (tryPostMessages l (batch l messages (k + n)) hf).1 = Some err).
Proof.
  revert k h. induction fuel as [|fuel IH]; intros k h Hrun; [done|].
  set (i := Z.of_nat k * bs) in *.
  pose proof (roundStart_batch k) as Hs. fold i in Hs.
  assert (0 <= i) as Hi0 by (subst i; nia).
  destruct (decide (len messages <= i)) as [Hge|Hlt].
  { rewrite round_exit in Hrun by done. injection Hrun as <- <-.
    exists 0%nat, [], []. rewrite app_nil_r, Nat.add_0_r.
    split; [done|]. split; [left; by fold i|]. split; [done|].
    split; [lia|]. fold i. lia. }
  assert (i < len messages) as Hi by lia.
  destruct (chunk_Done l messages batchSize_int messages_fit i) as [chunk Hchunk]; [done..|].
  destruct (chunk_exists l messages batchSize_int messages_fit i chunk Hs Hi Hchunk)
    as (_ & _ & Hc).
  subst i. rewrite batch_chunk in Hc. set (i := Z.of_nat k * bs) in *.
  destruct (tryPostMessages l chunk h) as [[err|] h1] eqn:Hsend.
  - (* the send of the batch [k] fails *)
    rewrite (round_failed l messages messages_fit _ _ _ _ chunk err h1) in Hrun by done.
    assert ((tryPostMessages l chunk h).1 = Some err) as Hsend' by (by rewrite Hsend).
    apply outcomes_attempt in Hsend as (d1 & -> & Hout1).
    rewrite (upperBoundAt_min l messages batchSize_int messages_fit i Hs Hi) in Hrun.
    destruct (bool_decide (len messages - i >= bufferMaximum l) || lastChance) eqn:Hover.
    + set (upper := if lastChance then len messages else Z.min (i + bs) (len messages)) in *.
      simpl in Hrun. injection Hrun as <- <-.
      exists 0%nat, (take (Z.to_nat (upper - i)) (drop (Z.to_nat i) messages)),
             (d1 ++ [IoLog (sendWarning err)] ++ unsentEntries messages i upper).
      rewrite Nat.add_0_r. split; [by rewrite <- !app_assoc|].
      split; [right; fold i; by rewrite Hover|].
      split; [rewrite !outcomes_app, Hout1, outcomes_unsent; done|].
      split; [lia|]. intros _. exists h, err. by rewrite <- Hc, Hsend'.
    + injection Hrun as <- <-.
      exists 0%nat, [], (d1 ++ [IoLog (sendWarning err)]).
      rewrite Nat.add_0_r. split; [by rewrite <- app_assoc|].
      split; [right; fold i; by rewrite Hover|].
      split; [by rewrite outcomes_app, Hout1|].
      split; [lia|]. intros _. exists h, err. by rewrite <- Hc, Hsend'.
  - (* the batch [k] is accepted *)
    rewrite (round_sent l messages _ _ _ _ chunk h1) in Hrun by done.
    rewrite (roundStart_add l messages batchSize_int messages_fit i Hs Hi) in Hrun.
    replace (i + bs) with (Z.of_nat (S k) * bs) in Hrun by (subst i; lia).
    apply IH in Hrun as (n & dropped & d & -> & Hend & Hout & Hlast & Hfail).
    apply outcomes_attempt in Hsend as (d1 & -> & Hout1).
    rewrite bool_decide_eq_false_2 in Hout1 by (rewrite Hc; by apply batch_nonempty).
    exists (S n), dropped, (d1 ++ d).
    split; [by rewrite app_assoc|].
    split; [by replace (k + S n)%nat with (S k + n)%nat by lia|].
    split; [rewrite outcomes_app, Hout1, Hout, Hc; done|].
    split; [|by replace (k + S n)%nat with (S k + n)%nat by lia].
    intros _. destruct n as [|n].
    + replace (k + 1 - 1)%nat with k by lia. done.
    + replace (k + S (S n) - 1)%nat with (S k + S n - 1)%nat by lia. apply Hlast. lia.
Qed.

End FlushOutcome.

Lemma okBodies_outcomes (d : history) (bodies : list string) (entries : list LogEntry) :
  outcomes d = (inl <$> bodies) ++ (inr <$> entries) ->
  okBodies d = bodies /\ errorEntries d = entries.
Proof.
  assert (okBodies d = omap (fun o => match o with inl b => Some b | inr _ => None end)
                            (outcomes d)) as ->.
  { unfold okBodies, outcomes. induction d as [|e d IH]; [done|].
    simpl. unfold outcome at 1.
    destruct e as [req [err|resp]|res|entry| |]; simpl; try done.
    - case_bool_decide; simpl; [by f_equal|done].
    - by case_bool_decide. }
  assert (errorEntries d = omap (fun o => match o with inl _ => None | inr e => Some e end)
                                (outcomes d)) as ->.
  { unfold errorEntries, outcomes. induction d as [|e d IH]; [done|].
    simpl. unfold outcome at 1.
    destruct e as [req [err|resp]|res|entry| |]; simpl; try done.
    - by case_bool_decide.
    - case_bool_decide; simpl; [by f_equal|done]. }
  intros ->. rewrite !omap_app. split.
  - replace (omap _ (inr <$> entries)) with (@nil string) by (by induction entries).
    rewrite app_nil_r. induction bodies as [|b bodies IH]; [done|]. simpl. by f_equal.
  - replace (omap _ (inl <$> bodies)) with (@nil LogEntry) by (by induction bodies).
    induction entries as [|e entries IH]; [done|]. simpl. by f_equal.
Qed.

(** The requests of one flush that the remote accepts carry the first
    batches of the buffer, one batch each and in order: every one of them
    holds exactly [batchSize] records, but for the last batch of the
    buffer, which holds what is left; and what the flush returns lies
    behind these batches. *)
Theorem postMessages_batches `{GoLib} (l : splunkLogger)
    (messages : list splunkMessage) (lastChance : bool) (h : history)
    (rest : list splunkMessage) (h' : history) :
  intRange (postMessagesBatchSize l) ->
  0 < postMessagesBatchSize l ->
  fitsInMemory messages ->
  postMessages l messages lastChance h = (Done rest, h') ->
  exists (n : nat) (d : history),
    h' = h ++ d /\
    okBodies d = requestBody l <$> (batch l messages <$> seq 0 n) /\
    (forall k, (k < n)%nat ->
       len (batch l messages k) =
       Z.min (postMessagesBatchSize l)
             (len messages - Z.of_nat k * postMessagesBatchSize l) /\
       0 < len (batch l messages k)) /\
    rest `suffix_of` drop (n * Z.to_nat (postMessagesBatchSize l)) messages.
Proof.
  intros Hint Hpos Hfit Hrun.
  apply (postMessagesFrom_outcome l messages Hint Hpos Hfit _ _ 0%nat) in Hrun
    as (n & dropped & d & -> & Hend & Hout & Hlast & _).
  exists n, d. split; [done|]. split; [|split].
  - by apply okBodies_outcomes in Hout as [-> _].
  - intros k Hk. specialize (Hlast ltac:(lia)). simpl in Hlast.
    unfold batch, len. rewrite length_take, length_drop. unfold len in Hlast. nia.
  - simpl in Hend. destruct Hend as [(_ & _ & ->)|[Hi Hend]].
    { apply suffix_nil. }
    replace (n * Z.to_nat (postMessagesBatchSize l))%nat
      with (Z.to_nat (Z.of_nat n * postMessagesBatchSize l)) by nia.
    destruct (_ || _).
    + destruct Hend as [_ ->].
      set (upper := if lastChance then _ else _).
      replace (Z.to_nat upper)
        with (Z.to_nat (Z.of_nat n * postMessagesBatchSize l) +
              Z.to_nat (upper - Z.of_nat n * postMessagesBatchSize l))%nat.
      2:{ subst upper. destruct lastChance; lia. }
      rewrite <- drop_drop. apply suffix_drop.
    + by destruct Hend as [_ ->].
Qed.

Lemma postMessages_batches_witness :
  exists (n : nat) (d : history),
    (postMessages (H := accepting) (fixtureLogger 2 4 false)
       [record "1"; record "2"; record "3"] false []).2 = [] ++ d /\
    okBodies d =
      requestBody (H := accepting) (fixtureLogger 2 4 false) <$>
        (batch (fixtureLogger 2 4 false) [record "1"; record "2"; record "3"] <$> seq 0 n) /\
    (forall k, (k < n)%nat ->
       len (batch (fixtureLogger 2 4 false) [record "1"; record "2"; record "3"] k) =
       Z.min 2 (len [record "1"; record "2"; record "3"] - Z.of_nat k * 2) /\
       0 < len (batch (fixtureLogger 2 4 false) [record "1"; record "2"; record "3"] k)) /\
    [] `suffix_of` drop (n * Z.to_nat 2) [record "1"; record "2"; record "3"].
Proof.
  apply (postMessages_batches (H := accepting) (fixtureLogger 2 4 false)
           [record "1"; record "2"; record "3"] false []).
  - by vm_compute.
  - done.
  - by vm_compute.
  - by vm_compute.
Defined.

(** A send goes through when nothing on its way fails and the remote
    answers with 200. *)
Lemma tryPostMessages_succeeds `{GoLib} l chunk h :
  (forall m, exists js, jsonMarshal m = inr js) ->
  (gzipCompression l = true -> gzipNewWriterLevel (gzipCompressionLevel l) = None) ->
  httpNewRequestErr "POST" (url l) = None ->
  (indexAck l = true -> exists ch, uuidNewRandom h = inr ch) ->
  (forall h0 req, exists resp, clientDo h0 req = inr resp /\ StatusCode resp = StatusOK) ->
  (tryPostMessages l chunk h).1 = None.
Proof.
  intros Hjson Hlvl Hreq Huuid Hdo. unfold tryPostMessages.
  case_bool_decide; [done|].
  assert (exists w, newBodyWriter l = inr w) as [w ->].
  { unfold newBodyWriter. destruct (gzipCompression l); [|eauto].
    rewrite Hlvl by done. eauto. }
  assert (exists w', writeMessages w chunk = inr w') as [w' ->].
  { apply writeMessages_ok_iff, Forall_forall. intros m _. apply Hjson. }
  rewrite Hreq. unfold iobind, ioret, drawUuid, doRequest.
  destruct (indexAck l).
  - destruct Huuid as [ch ->]; [done|]. simpl.
    destruct (Hdo (h ++ [IoUuid (inr ch)])
                (headerSet "X-Splunk-Request-Channel" ch
                   (if gzipCompression l
                    then headerSet "Content-Encoding" "gzip"
                           (headerSet "Authorization" (auth l)
                              {| Method := "POST"; URL := url l; Header := [];
                                 Body := buffer (if gzipCompression l
                                                 then writerClose w' else w') |})
                    else headerSet "Authorization" (auth l)
                           {| Method := "POST"; URL := url l; Header := [];
                              Body := buffer (if gzipCompression l
                                              then writerClose w' else w') |})))
      as (resp & -> & Hok).
    simpl. by rewrite bool_decide_eq_false_2 by (by intros ?).
  - simpl.
    destruct (Hdo h
                (if gzipCompression l
                 then headerSet "Content-Encoding" "gzip"
                        (headerSet "Authorization" (auth l)
                           {| Method := "POST"; URL := url l; Header := [];
                              Body := buffer (if gzipCompression l
                                              then writerClose w' else w') |})
                 else headerSet "Authorization" (auth l)
                        {| Method := "POST"; URL := url l; Header := [];
                           Body := buffer (if gzipCompression l
                                           then writerClose w' else w') |}))
      as (resp & -> & Hok).
    simpl. by rewrite bool_decide_eq_false_2 by (by intros ?).
Qed.

(** When the remote accepts whatever it is sent, a flush delivers the
    whole buffer in the least number of requests that the batch size
    allows, the batches in order, returns the empty buffer and logs no
    record. *)
Theorem postMessages_all_accepted `{GoLib} (l : splunkLogger)
    (messages : list splunkMessage) (lastChance : bool) (h : history) :
  intRange (postMessagesBatchSize l) ->
  0 < postMessagesBatchSize l ->
  fitsInMemory messages ->
  (forall chunk h0, chunk <> [] -> (tryPostMessages l chunk h0).1 = None) ->
  exists d,
    postMessages l messages lastChance h = (Done [], h ++ d) /\
    errorEntries d = [] /\
    okBodies d =
      requestBody l <$>
        (batch l messages <$>
           seq 0 (Z.to_nat ((len messages + postMessagesBatchSize l - 1)
                            / postMessagesBatchSize l))).
Proof.
  intros Hint Hpos Hfit Hall.
  destruct (postMessages_total l messages Hint Hfit lastChance h Hpos) as (rest & h' & Hrun).
  pose proof Hrun as Hrun'.
  apply (postMessagesFrom_outcome l messages Hint Hpos Hfit _ _ 0%nat) in Hrun'
    as (n & dropped & d & -> & Hend & Hout & Hlast & Hfail).
  simpl in Hend, Hlast, Hfail.
  assert (len messages <= Z.of_nat n * postMessagesBatchSize l) as Hn.
  { destruct (decide (len messages <= Z.of_nat n * postMessagesBatchSize l)); [done|].
    destruct Hfail as (hf & err & Hsend); [lia|].
    rewrite Hall in Hsend; [done|].
    apply batch_nonempty; [done|lia]. }
  destruct Hend as [(_ & -> & ->)|[Hi _]]; [|lia].
  exists d. split; [done|].
  apply okBodies_outcomes in Hout as [Hok Herr].
  split; [done|]. rewrite Hok. do 3 f_equal.
  assert (Z.of_nat n = (len messages + postMessagesBatchSize l - 1) / postMessagesBatchSize l)
    as Hdiv; [|lia].
  apply (Z.div_unique _ _ _
           (len messages + postMessagesBatchSize l - 1 - postMessagesBatchSize l * Z.of_nat n));
    [|lia].
  left. pose proof (len_nonneg messages) as Hlen.
  destruct n as [|n]; [lia|]. specialize (Hlast ltac:(lia)).
  replace (S n - 1)%nat with n in Hlast by lia. lia.
Qed.

Lemma postMessages_all_accepted_witness :
  exists d,
    postMessages (H := accepting) (fixtureLogger 2 4 false)
      [record "1"; record "2"; record "3"] false [] = (Done [], [] ++ d) /\
    errorEntries d = [] /\
    okBodies d =
      requestBody (H := accepting) (fixtureLogger 2 4 false) <$>
        (batch (fixtureLogger 2 4 false) [record "1"; record "2"; record "3"] <$>
           seq 0 (Z.to_nat ((len [record "1"; record "2"; record "3"] + 2 - 1) / 2))).
Proof.
  apply (postMessages_all_accepted (H := accepting) (fixtureLogger 2 4 false)
           [record "1"; record "2"; record "3"] false []).
  - by vm_compute.
  - done.
  - by vm_compute.
  - intros chunk h0 _.
    apply (tryPostMessages_succeeds (H := accepting)); try done.
    + intros m. by eexists.
    + intros h1 req. by exists answer200.
Defined.

(** * The size of the buffer of the worker *)

Section BufferBound.
Context `{GoLib}.
Variable l : splunkLogger.
Hypothesis batchSize_int : intRange (postMessagesBatchSize l).
Hypothesis batchSize_pos : 0 < postMessagesBatchSize l.

Local Abbreviation bs := (postMessagesBatchSize l).

Lemma bufferCeiling_bounds :
  Z.max (bufferMaximum l) 1 <= bufferCeiling l < Z.max (bufferMaximum l) 1 + bs /\
  (bs | bufferCeiling l).
Proof.
  unfold bufferCeiling. set (b := Z.max (bufferMaximum l) 1).
  split; [|by apply Z.divide_factor_l].
  pose proof (Z.div_mod (b + bs - 1) bs ltac:(lia)) as Hdiv.
  pose proof (Z.mod_pos_bound (b + bs - 1) bs ltac:(lia)) as Hmod.
  lia.
Qed.

(** A flush that is not the last one never returns more than it was
    given; and what it returns is less than it was given or less than the
    buffer maximum. *)
Lemma postMessages_shrinks messages h rest h' :
  fitsInMemory messages ->
  postMessages l messages false h = (Done rest, h') ->
  rest `suffix_of` messages /\
  (len rest < Z.max (bufferMaximum l) 1 \/ len rest < len messages).
Proof.
  intros Hfit Hrun.
  apply (postMessagesFrom_outcome l messages batchSize_int batchSize_pos Hfit _ _ 0%nat)
    in Hrun as (n & dropped & d & -> & Hend & _).
  simpl in Hend. destruct Hend as [(_ & _ & ->)|[Hi Hend]].
  { split; [apply suffix_nil|]. left. unfold len. simpl. lia. }
  set (i := Z.of_nat n * bs) in *. assert (0 <= i) as Hi0 by (subst i; nia).
  rewrite orb_false_r in Hend. case_bool_decide as Hover.
  - destruct Hend as [_ ->]. split; [apply suffix_drop|]. right.
    unfold len in *. rewrite length_drop. lia.
  - destruct Hend as [_ ->]. split; [apply suffix_drop|]. left.
    unfold len in *. rewrite length_drop. lia.
Qed.

Lemma suffix_fits (rest messages : list splunkMessage) :
  rest `suffix_of` messages -> fitsInMemory messages -> fitsInMemory rest.
Proof.
  intros [pre ->]. unfold fitsInMemory, len. rewrite length_app. lia.
Qed.

(** One round of the loop of the worker keeps the buffer below the
    ceiling. *)
Lemma workerReceive_bounded messages message h rest h' :
  len messages < bufferCeiling l ->
  workerReceive l messages message h = (Done rest, h') ->
  fitsInMemory rest /\ len rest < bufferCeiling l.
Proof.
  intros Hlen Hrun. unfold workerReceive, append in Hrun.
  destruct bufferCeiling_bounds as [Hceil Hmult].
  case_bool_decide as Hfit; [|done]. unfold batchReached in Hrun.
  case_bool_decide; [done|].
  assert (len (messages ++ [message]) = len messages + 1) as Hlen'.
  { unfold len. rewrite length_app. simpl. lia. }
  case_bool_decide as Hrem.
  - apply postMessages_shrinks in Hrun as [Hsuffix Hless]; [|done].
    split; [by eapply suffix_fits|]. lia.
  - injection Hrun as <- <-. split; [done|].
    destruct (decide (len messages + 1 = bufferCeiling l)) as [Heq|]; [|lia].
    destruct Hrem. rewrite Hlen', Heq. destruct Hmult as [q ->].
    apply Z.rem_mul. lia.
Qed.

Lemma workerTick_bounded messages h rest h' :
  fitsInMemory messages ->
  len messages < bufferCeiling l ->
  workerTick l messages h = (Done rest, h') ->
  fitsInMemory rest /\ len rest < bufferCeiling l.
Proof.
  intros Hfit Hlen Hrun. unfold workerTick in Hrun.
  apply postMessages_shrinks in Hrun as [Hsuffix Hless]; [|done].
  split; [by eapply suffix_fits|].
  destruct Hsuffix as [pre ->]. unfold len in *. rewrite length_app in Hlen. lia.
Qed.

Lemma workerLoop_bounded_from events messages h rest h' :
  fitsInMemory messages ->
  len messages < bufferCeiling l ->
  workerLoop l events messages h = (Done rest, h') ->
  fitsInMemory rest /\ len rest < bufferCeiling l.
Proof.
  revert messages h. induction events as [|e events IH]; intros messages h Hfit Hlen; simpl.
  - by intros [= <- <-].
  - unfold iobind at 1.
    destruct e as [message|].
    + destruct (workerReceive l messages message h) as [[messages'|why|] h1] eqn:Hround;
        [|done..].
      apply workerReceive_bounded in Hround as [Hfit' Hlen']; [|done].
      by apply IH.
    + destruct (workerTick l messages h) as [[messages'|why|] h1] eqn:Hround; [|done..].
      apply workerTick_bounded in Hround as [Hfit' Hlen']; [|done..].
      by apply IH.
Qed.

End BufferBound.

(** The buffer of the worker is bounded: with a positive batch size, at
    every [select] it holds fewer records than the least multiple of the
    batch size that is not below the buffer maximum, which is less than
    one batch above the buffer maximum. *)
Theorem worker_buffer_bounded `{GoLib} (l : splunkLogger)
    (events : list workerEvent) (h : history)
    (messages : list splunkMessage) (h' : history) :
  intRange (postMessagesBatchSize l) ->
  0 < postMessagesBatchSize l ->
  workerLoop l events [] h = (Done messages, h') ->
  len messages < bufferCeiling l /\
  bufferCeiling l < Z.max (bufferMaximum l) 1 + postMessagesBatchSize l.
Proof.
  intros Hint Hpos Hrun.
  destruct (bufferCeiling_bounds l Hpos) as [Hceil _].
  split; [|lia].
  apply (workerLoop_bounded_from l Hint Hpos) in Hrun as [_ Hlen]; [done|by vm_compute|].
  unfold len. simpl. lia.
Qed.

Lemma worker_buffer_bounded_witness :
  len [record "3"; record "4"; record "5"] < bufferCeiling (fixtureLogger 2 4 false) /\
  bufferCeiling (fixtureLogger 2 4 false) < Z.max 4 1 + 2.
Proof.
  apply (worker_buffer_bounded (H := refusing) (fixtureLogger 2 4 false)
           [Received (record "1"); Received (record "2"); Received (record "3");
            Received (record "4"); Received (record "5")] []
           [record "3"; record "4"; record "5"]
           (workerLoop (H := refusing) (fixtureLogger 2 4 false)
              [Received (record "1"); Received (record "2"); Received (record "3");
               Received (record "4"); Received (record "5")] [] []).2).
  - by vm_compute.
  - done.
  - by vm_compute.
Defined.

(** * The shutdown handshake *)

Section Counting.

Lemma count_app f ts1 ts2 : count f (ts1 ++ ts2) = (count f ts1 + count f ts2)%nat.
Proof. induction ts1 as [|t ts1 IH]; simpl; [done|]. rewrite IH. lia. Qed.

Lemma count_insert f (ts : list thread) (i : nat) t t' :
  ts !! i = Some t ->
  (count f (<[i := t']> ts) + (if f t then 1 else 0) =
   count f ts + (if f t' then 1 else 0))%nat.
Proof.
  revert i. induction ts as [|t0 ts IH]; intros [|i] Hi; simpl in *; try done.
  - injection Hi as ->. lia.
  - specialize (IH i Hi). unfold insert in *. lia.
Qed.

Lemma count_lookup f (ts : list thread) (i : nat) t :
  ts !! i = Some t -> f t = true -> (1 <= count f ts)%nat.
Proof.
  revert i. induction ts as [|t0 ts IH]; intros [|i] Hi Ht; simpl in *; try done.
  - injection Hi as ->. rewrite Ht. lia.
  - specialize (IH i Hi Ht). lia.
Qed.

Lemma count_lookup2 f (ts : list thread) (i j : nat) t t' :
  ts !! i = Some t -> ts !! j = Some t' -> i <> j ->
  f t = true -> f t' = true -> (2 <= count f ts)%nat.
Proof.
  revert i j. induction ts as [|t0 ts IH]; intros [|i] [|j] Hi Hj Hne Ht Ht';
    simpl in *; try done.
  - injection Hi as ->. rewrite Ht. pose proof (count_lookup f ts j t' Hj Ht'). lia.
  - injection Hj as ->. rewrite Ht'. pose proof (count_lookup f ts i t Hi Ht). lia.
  - assert (i <> j) by congruence. specialize (IH i j Hi Hj ltac:(done) Ht Ht'). lia.
Qed.

Lemma count_le f g (ts : list thread) :
  (forall t, f t = true -> g t = true) -> (count f ts <= count g ts)%nat.
Proof.
  intros Hfg. induction ts as [|t ts IH]; simpl; [done|].
  destruct (f t) eqn:Hf; [rewrite (Hfg t Hf)|destruct (g t)]; lia.
Qed.

Lemma count_existsb f (ts : list thread) :
  existsb f ts = false -> count f ts = 0%nat.
Proof.
  induction ts as [|t ts IH]; simpl; [done|].
  destruct (f t); [done|]. apply IH.
Qed.

Lemma count_zero f (ts : list thread) (i : nat) t :
  count f ts = 0%nat -> ts !! i = Some t -> f t = false.
Proof.
  intros Hzero Hi. destruct (f t) eqn:Ht; [|done].
  pose proof (count_lookup f ts i t Hi Ht). lia.
Qed.

End Counting.

Section Handshake.
Context `{GoLib}.
Variable lw : loggerWrapper.
Variable capacity : nat.

Lemma closing_began t : closing t = true -> began t = true.
Proof. by destruct t as [| | |[]]. Qed.

Lemma parked_began t : parked t = true -> began t = true.
Proof. by destruct t as [| | |[]]. Qed.

Lemma handshake_initial : handshake initial.
Proof. split; simpl; (done || lia). Qed.

(** A step of one goroutine that leaves the shared variables alone. *)
Lemma handshake_setThread s (i : nat) t t' :
  handshake s ->
  threads s !! i = Some t ->
  began t' = began t -> closing t' = closing t ->
  (parked t' = parked t \/ parked t = true \/ closed s = false) ->
  handshake (setThread i t' s).
Proof.
  intros [Hone Hnone Hclosing Hparked Hexited] Hi Hb Hc Hp.
  pose proof (count_insert began _ _ _ t' Hi) as Hcb.
  pose proof (count_insert closing _ _ _ t' Hi) as Hcc.
  pose proof (count_insert parked _ _ _ t' Hi) as Hcp.
  rewrite Hb in Hcb. rewrite Hc in Hcc.
  split; simpl; try done.
  - lia.
  - intros Hcond. specialize (Hnone Hcond). lia.
  - intros Hsc. specialize (Hclosing Hsc). lia.
  - intros Hcl. specialize (Hparked Hcl).
    destruct Hp as [Hp|[Hp|Hp]]; [rewrite Hp in Hcp; lia| |congruence].
    rewrite Hp in Hcp. destruct (parked t'); lia.
Qed.

Lemma handshake_spawn s t :
  handshake s -> began t = false ->
  handshake (setThreads (threads s ++ [t]) s).
Proof.
  intros [Hone Hnone Hclosing Hparked Hexited] Hb.
  assert (closing t = false) as Hc.
  { destruct (closing t) eqn:Hc; [|done]. apply closing_began in Hc. congruence. }
  assert (parked t = false) as Hp.
  { destruct (parked t) eqn:Hp; [|done]. apply parked_began in Hp. congruence. }
  split; simpl; rewrite ?count_app; simpl; rewrite ?Hb, ?Hc, ?Hp; try done.
  - lia.
  - intros Hcond. specialize (Hnone Hcond). lia.
  - intros Hsc. specialize (Hclosing Hsc). lia.
  - intros Hcl. specialize (Hparked Hcl). lia.
Qed.

Lemma handshake_stepThread s i s' :
  invariant lw s -> handshake s ->
  stepThread lw capacity i s = Some s' ->
  crashed s' = None ->
  handshake s'.
Proof.
  intros Hinv Hhs Hstep Halive. unfold stepThread in Hstep.
  destruct (threads s !! i) as [[msg|msg|message pc|pc]|] eqn:Hi; try done.
  - destruct (Log lw msg); injection Hstep as <-;
      (eapply handshake_setThread; [done..|by left]).
  - (* a producer: the channel may change, nothing of the handshake does *)
    assert (forall t' q, began t' = false ->
              handshake (setThread i t' (setStream q s))) as Hq.
    { intros t' q Hb.
      apply (handshake_setThread (setStream q s) i (InQueue message pc)); try done.
      - by destruct Hhs.
      - destruct (closing t') eqn:Hc; [|done]. apply closing_began in Hc. congruence.
      - left. destruct (parked t') eqn:Hp; [|done]. apply parked_began in Hp. congruence. }
    unfold stepQueue in Hstep.
    destruct pc; repeat case_match; simplify_eq;
      try (eapply handshake_setThread; [done..|by left]).
    by apply Hq.
  - (* a call of [Close] *)
    pose proof (Forall_lookup_1 _ _ _ _ (inv_threads _ _ Hinv) Hi) as Hok.
    unfold stepClose in Hstep.
    destruct pc as [| | | | | |began|began]; simpl in Hok;
      repeat case_match; simplify_eq;
      try (eapply handshake_setThread; [done..|by left]).
    + (* the test of [closedCond] turns out true: the body begins *)
      destruct Hhs as [Hone Hnone Hclosing Hparked Hexited].
      pose proof (count_insert began _ _ _ (InClose CloseClosing) Hi) as Hcb.
      pose proof (count_insert closing _ _ _ (InClose CloseClosing) Hi) as Hcc.
      pose proof (count_insert parked _ _ _ (InClose CloseClosing) Hi) as Hcp.
      simpl in Hcb, Hcc, Hcp. specialize (Hnone ltac:(done)).
      split; simpl; try done.
      * lia.
      * intros Hsc. apply (inv_stream _ _ Hinv) in Hsc. congruence.
      * intros Hcl. specialize (Hparked Hcl). lia.
    + (* [close(l.stream)] *)
      destruct Hhs as [Hone Hnone Hclosing Hparked Hexited].
      pose proof (count_insert began _ _ _ (InClose CloseWait) Hi) as Hcb.
      pose proof (count_insert closing _ _ _ (InClose CloseWait) Hi) as Hcc.
      pose proof (count_insert parked _ _ _ (InClose CloseWait) Hi) as Hcp.
      pose proof (count_le closing began (threads s) closing_began) as Hle.
      simpl in Hcb, Hcc, Hcp.
      split; simpl; try done.
      * lia.
      * intros Hcond. specialize (Hnone Hcond). lia.
      * intros _. lia.
      * intros Hcl. specialize (Hparked Hcl). lia.
    + (* the test of [l.closed] fails: into [Wait] *)
      eapply handshake_setThread; [done..|]. by right; right.
Qed.

(** A step that touches neither the goroutines nor the variables of the
    handshake, and does not end the worker. *)
Lemma handshake_frame s s' :
  handshake s ->
  threads s' = threads s -> closedCond s' = closedCond s ->
  streamClosed s' = streamClosed s -> closed s' = closed s ->
  worker s' <> WorkerExited ->
  handshake s'.
Proof.
  intros [Hone Hnone Hclosing Hparked Hexited] Ht Hcond Hsc Hcl Hw.
  split; rewrite ?Ht, ?Hcond, ?Hsc, ?Hcl; done.
Qed.

Lemma handshake_stepWorker s wake s' :
  invariant lw s -> handshake s ->
  stepWorker lw wake s = Some s' ->
  crashed s' = None ->
  handshake s'.
Proof.
  intros Hinv Hhs Hstep Halive. unfold stepWorker in Hstep.
  destruct (worker s) as [|messages| | | |] eqn:Hw; try done.
  - case_bool_decide; injection Hstep as <-; [done|].
    by apply (handshake_frame s).
  - destruct (stream s) as [|message q] eqn:Hq.
    + destruct (streamClosed s) eqn:Hsc; [|done]. injection Hstep as <-.
      destruct (workerLastChance _ _ _) as [[rest|why|] h]; simpl in *; [|done|];
        by apply (handshake_frame s).
    + injection Hstep as <-.
      destruct (workerReceive _ _ _ _) as [[rest|why|] h]; simpl in *; [|done|];
        by apply (handshake_frame s).
  - destruct (canLock s); [|done]. injection Hstep as <-.
    by apply (handshake_frame s).
  - (* the end of the worker: [l.closed = true] and the signal *)
    destruct (closedCond s) eqn:Hcond; [|by injection Hstep as <-].
    destruct (signal wake (setClosed s)) as [s2|] eqn:Hsig; [|done].
    injection Hstep as <-.
    destruct Hhs as [Hone Hnone Hclosing Hparked Hexited].
    pose proof (count_le parked began (threads s) parked_began) as Hle.
    unfold signal in Hsig. simpl in Hsig.
    destruct (threads s !! wake) as [t|] eqn:Hwake.
    + destruct (parked t) eqn:Hpt.
      * assert (t = InClose CloseParked) as -> by (by destruct t as [| | |[]]).
        injection Hsig as <-.
        pose proof (count_insert began _ _ _ (InClose CloseWoken) Hwake) as Hcb.
        pose proof (count_insert closing _ _ _ (InClose CloseWoken) Hwake) as Hcc.
        pose proof (count_insert parked _ _ _ (InClose CloseWoken) Hwake) as Hcp.
        simpl in Hcb, Hcc, Hcp.
        split; simpl; try done; try lia;
          intros Hx; (congruence || (specialize (Hclosing Hx); lia)).
      * assert (existsb parked (threads s) = false /\ s2 = setClosed s) as [Hnone' ->].
        { destruct t as [| | |[]]; try done;
            (destruct (existsb parked (threads s)); [done|]; by injection Hsig as <-). }
        apply count_existsb in Hnone'. split; simpl; done.
    + destruct (existsb parked (threads s)) eqn:Hnone'; [done|]. injection Hsig as <-.
      apply count_existsb in Hnone'. split; simpl; done.
Qed.

Lemma handshake_step a s s' :
  invariant lw s -> handshake s ->
  step lw capacity a s = Some s' ->
  crashed s' = None ->
  handshake s'.
Proof.
  intros Hinv Hhs Hstep Halive. unfold step in Hstep.
  destruct (crashed s); [done|].
  destruct a as [msg| |i|wake|].
  - injection Hstep as <-. by apply handshake_spawn.
  - injection Hstep as <-. by apply handshake_spawn.
  - by eapply handshake_stepThread.
  - by eapply handshake_stepWorker.
  - unfold stepTick in Hstep. destruct (worker s) eqn:Hw; try done.
    injection Hstep as <-.
    destruct (workerTick _ _ _) as [[rest|why|] h]; simpl in *; [|done|];
      by apply (handshake_frame s).
Qed.

End Handshake.

Section Reachable.
Context `{GoLib}.
Variable lw : loggerWrapper.
Variable capacity : nat.
Hypothesis batchSize_int : intRange (postMessagesBatchSize (baseLogger lw)).

Local Abbreviation l := (baseLogger lw).

Lemma run_snoc acts a s :
  run lw capacity (acts ++ [a]) s = run lw capacity acts s ≫= step lw capacity a.
Proof.
  rewrite run_app. destruct (run lw capacity acts s) as [s1|]; simpl; [|done].
  by destruct (step lw capacity a s1).
Qed.

(** Induction over the runs of the pipeline, one more step at a time. *)
Lemma reachable_ind (P : list action -> pipeline -> Prop) :
  P [] initial ->
  (forall acts a s s',
     run lw capacity acts initial = Some s -> P acts s ->
     step lw capacity a s = Some s' -> P (acts ++ [a]) s') ->
  forall acts s, run lw capacity acts initial = Some s -> P acts s.
Proof.
  intros Hinit Hstep acts. induction acts as [|a acts IH] using rev_ind; intros s.
  - simpl. by intros [= <-].
  - rewrite run_snoc. destruct (run lw capacity acts initial) as [s1|] eqn:Hrun; [|done].
    simpl. intros Hs. by eapply Hstep; [done|apply IH|].
Qed.

Lemma reachable_handshake acts s :
  run lw capacity acts initial = Some s -> crashed s = None ->
  invariant lw s /\ handshake s.
Proof.
  revert acts s.
  apply (reachable_ind (fun _ s => crashed s = None -> invariant lw s /\ handshake s)).
  - intros _. split; [apply invariant_initial|apply handshake_initial].
  - intros acts a s s' _ IH Hstep Halive.
    destruct IH as [Hinv Hhs]; [by eapply step_alive|].
    split; [by eapply invariant_step|by eapply handshake_step].
Qed.

(** A flush of the worker panics only on a negative batch size. *)
Lemma postMessages_panic messages lastChance h why h' :
  fitsInMemory messages ->
  postMessages l messages lastChance h = (Panic why, h') ->
  postMessagesBatchSize l < 0 /\ why = "slice bounds out of range".
Proof.
  intros Hfit Hrun.
  destruct (decide (messages = [])) as [->|Hne]; [done|].
  destruct (Z.lt_trichotomy (postMessagesBatchSize l) 0) as [Hneg|[Hz|Hpos]].
  - rewrite (postMessages_negative_batch l messages batchSize_int Hfit) in Hrun by done.
    by injection Hrun as <- <-.
  - unfold postMessages in Hrun.
    by rewrite (postMessages_zero_batch l messages batchSize_int Hfit) in Hrun.
  - destruct (postMessages_total l messages batchSize_int Hfit lastChance h Hpos)
      as (rest & h1 & Hdone). congruence.
Qed.

(** How a round of the worker panics. *)
Lemma workerReceive_panic messages message h why h' :
  workerReceive l messages message h = (Panic why, h') ->
  (~ fitsInMemory (messages ++ [message]) /\ why = "growslice: len out of range") \/
  (postMessagesBatchSize l = 0 /\ why = "integer divide by zero") \/
  (postMessagesBatchSize l < 0 /\ why = "slice bounds out of range").
Proof.
  unfold workerReceive, append, batchReached. intros Hrun.
  case_bool_decide as Hfit; [|injection Hrun as <- <-; by left].
  case_bool_decide as Hz; [injection Hrun as <- <-; right; by left|].
  case_bool_decide; [|done].
  right. right. by eapply postMessages_panic.
Qed.

(** What kills the process: the ticker of the worker on a period that is
    not positive, or a round of the worker. No step of [Log], of
    [queueMessageAsync] or of [Close] does, nor does the end of the
    worker. *)
Lemma step_crash a s s' why :
  invariant lw s -> handshake s ->
  step lw capacity a s = Some s' ->
  crashed s' = Some why ->
  (postMessagesFrequency l <= 0 /\ why = "non-positive interval for NewTicker") \/
  exists messages,
    worker s = WorkerSelect messages /\
    ((exists message h, workerReceive l messages message (world s) = (Panic why, h)) \/
     (exists lastChance h, postMessages l messages lastChance (world s) = (Panic why, h))).
Proof.
  intros Hinv Hhs Hstep Hcrash. unfold step in Hstep.
  destruct (crashed s) eqn:Halive; [done|].
  destruct a as [msg| |i|wake|].
  - injection Hstep as <-. simpl in Hcrash. congruence.
  - injection Hstep as <-. simpl in Hcrash. congruence.
  - exfalso. unfold stepThread in Hstep.
    destruct (threads s !! i) as [[msg|msg|message pc|pc]|] eqn:Hi; try done.
    + destruct (Log lw msg); injection Hstep as <-; simpl in Hcrash; congruence.
    + pose proof (Forall_lookup_1 _ _ _ _ (inv_threads _ _ Hinv) Hi) as Hok.
      unfold stepQueue in Hstep.
      destruct pc; simpl in Hok; repeat case_match; simplify_eq;
        simpl in Hcrash; try congruence.
      (* a send on the closed channel *)
      pose proof (inv_stream _ _ Hinv ltac:(done)). congruence.
    + unfold stepClose in Hstep.
      destruct pc; repeat case_match; simplify_eq; simpl in Hcrash; try congruence.
      (* a second [close] of the channel *)
      pose proof (hs_closing _ Hhs ltac:(done)) as Hnone.
      pose proof (count_lookup closing _ _ _ Hi eq_refl). lia.
  - unfold stepWorker in Hstep.
    destruct (worker s) as [|messages| | | |] eqn:Hw; try done.
    + case_bool_decide; injection Hstep as <-; simpl in Hcrash; [|congruence].
      left. split; [done|congruence].
    + right. exists messages. split; [done|].
      destruct (stream s) as [|message q] eqn:Hq.
      * destruct (streamClosed s) eqn:Hsc; [|done]. injection Hstep as <-.
        unfold workerLastChance in *.
        destruct (postMessages l messages true (world s)) as [[rest|why'|] h] eqn:Hrun;
          simpl in Hcrash; try congruence.
        right. exists true, h. congruence.
      * injection Hstep as <-.
        destruct (workerReceive l messages message (world s)) as [[rest|why'|] h] eqn:Hrun;
          simpl in Hcrash; try congruence.
        left. exists message, h. congruence.
    + destruct (canLock s); [|done]. injection Hstep as <-. simpl in Hcrash. congruence.
    + (* the worker signals: [closedCond] is set *)
      exfalso. destruct (closedCond s) eqn:Hcond.
      * destruct (signal wake (setClosed s)) as [s2|] eqn:Hsig; [|done].
        injection Hstep as <-. simpl in Hcrash.
        unfold signal in Hsig. repeat case_match; simplify_eq; simpl in Hcrash; congruence.
      * destruct (inv_worker _ _ Hinv) as [Hsc _]; [by rewrite Hw|].
        pose proof (inv_stream _ _ Hinv Hsc). congruence.
  - unfold stepTick in Hstep.
    destruct (worker s) as [|messages| | | |] eqn:Hw; try done.
    injection Hstep as <-. right. exists messages. split; [done|].
    unfold workerTick in *.
    destruct (postMessages l messages false (world s)) as [[rest|why'|] h] eqn:Hrun;
      simpl in Hcrash; try congruence.
    right. exists false, h. congruence.
Qed.

(** A dead process made its last step from a live one. *)
Lemma run_crashed acts s why :
  run lw capacity acts initial = Some s -> crashed s = Some why ->
  exists acts0 a s0,
    acts = acts0 ++ [a] /\ run lw capacity acts0 initial = Some s0 /\
    crashed s0 = None /\ step lw capacity a s0 = Some s.
Proof.
  destruct acts as [|a acts _] using rev_ind; [by intros [= <-]|].
  rewrite run_snoc. destruct (run lw capacity acts initial) as [s0|] eqn:Hrun; [|done].
  simpl. intros Hstep _. exists acts, a, s0. repeat split; try done.
  by eapply step_alive.
Qed.

End Reachable.

(** At most one call of [Close] ever finds [closedCond] unset: the
    channel is closed by one goroutine, and one goroutine only waits for
    the worker. *)
Theorem close_begins_once `{GoLib} (lw : loggerWrapper) (capacity : nat)
    (acts : list action) (s : pipeline) (i j : nat) (ti tj : thread) :
  intRange (postMessagesBatchSize (baseLogger lw)) ->
  run lw capacity acts initial = Some s ->
  crashed s = None ->
  threads s !! i = Some ti -> began ti = true ->
  threads s !! j = Some tj -> began tj = true ->
  i = j.
Proof.
  intros Hint Hrun Halive Hi Hti Hj Htj.
  destruct (reachable_handshake lw capacity Hint acts s Hrun Halive) as [_ Hhs].
  destruct (decide (i = j)) as [|Hne]; [done|].
  pose proof (count_lookup2 began _ _ _ _ _ Hi Hj Hne Hti Htj).
  pose proof (hs_one _ Hhs). lia.
Qed.

Lemma close_begins_once_witness :
  exists s, run (H := refusing) rawLogger 10 secondCloseReturns initial = Some s /\
            1%nat = 1%nat.
Proof.
  destruct (run (H := refusing) rawLogger 10 secondCloseReturns initial) as [s|] eqn:Hrun;
    [|by vm_compute in Hrun].
  exists s. split; [done|].
  apply (close_begins_once (H := refusing) rawLogger 10 secondCloseReturns s 1 1
           (InClose CloseParked) (InClose CloseParked)).
  - by vm_compute.
  - done.
  - vm_compute in Hrun. by injection Hrun as <-.
  - vm_compute in Hrun. by injection Hrun as <-.
  - done.
  - vm_compute in Hrun. by injection Hrun as <-.
  - done.
Defined.

(** No wake-up is lost: once the worker has ended, [l.closed] is set and
    no call of [Close] is left inside [Wait] without its signal. *)
Theorem no_lost_wakeup `{GoLib} (lw : loggerWrapper) (capacity : nat)
    (acts : list action) (s : pipeline) :
  intRange (postMessagesBatchSize (baseLogger lw)) ->
  run lw capacity acts initial = Some s ->
  crashed s = None ->
  worker s = WorkerExited ->
  closed s = true /\
  forall i, threads s !! i <> Some (InClose CloseParked).
Proof.
  intros Hint Hrun Halive Hw.
  destruct (reachable_handshake lw capacity Hint acts s Hrun Halive) as [_ Hhs].
  pose proof (hs_exited _ Hhs Hw) as Hclosed. split; [done|].
  intros i Hi.
  pose proof (count_zero parked _ _ _ (hs_parked _ Hhs Hclosed) Hi). done.
Qed.

Lemma no_lost_wakeup_witness :
  exists s, run (H := refusing) rawLogger 10 orderlyShutdown initial = Some s /\
            closed s = true /\
            forall i, threads s !! i <> Some (InClose CloseParked).
Proof.
  destruct (run (H := refusing) rawLogger 10 orderlyShutdown initial) as [s|] eqn:Hrun;
    [|by vm_compute in Hrun].
  exists s. split; [done|].
  apply (no_lost_wakeup (H := refusing) rawLogger 10 orderlyShutdown s).
  - by vm_compute.
  - done.
  - vm_compute in Hrun. by injection Hrun as <-.
  - vm_compute in Hrun. by injection Hrun as <-.
Defined.

(** The process dies of one of four things only, all of them in the
    worker: a ticker period that is not positive, a batch size of zero, a
    negative batch size, or a buffer too large for the memory. It never
    dies of a send on the closed channel, of a second [close] of the
    channel or of a signal on a condition that is not there. *)
Theorem panics_are_arithmetic `{GoLib} (lw : loggerWrapper) (capacity : nat)
    (acts : list action) (s : pipeline) (why : string) :
  intRange (postMessagesBatchSize (baseLogger lw)) ->
  run lw capacity acts initial = Some s ->
  crashed s = Some why ->
  (postMessagesFrequency (baseLogger lw) <= 0 /\
   why = "non-positive interval for NewTicker") \/
  (postMessagesBatchSize (baseLogger lw) = 0 /\ why = "integer divide by zero") \/
  (postMessagesBatchSize (baseLogger lw) < 0 /\ why = "slice bounds out of range") \/
  why = "growslice: len out of range".
Proof.
  intros Hint Hrun Hcrash.
  destruct (run_crashed lw capacity acts s why Hrun Hcrash)
    as (acts0 & a & s0 & -> & Hrun0 & Halive & Hstep).
  destruct (reachable_handshake lw capacity Hint acts0 s0 Hrun0 Halive) as [Hinv Hhs].
  destruct (step_crash lw capacity a s0 s why Hinv Hhs Hstep Hcrash)
    as [?|(messages & Hw & [(message & h & Hpanic)|(lastChance & h & Hpanic)])];
    [by left|..].
  - apply (workerReceive_panic lw Hint) in Hpanic as [[_ ->]|[?|?]]; auto.
  - pose proof (inv_fits _ _ Hinv) as Hfit. rewrite Hw in Hfit.
    apply (postMessages_panic lw Hint) in Hpanic; auto.
Qed.

Lemma panics_are_arithmetic_witness :
  (postMessagesFrequency (baseLogger zeroBatchLogger) <= 0 /\
   "integer divide by zero" = "non-positive interval for NewTicker") \/
  (postMessagesBatchSize (baseLogger zeroBatchLogger) = 0 /\
   "integer divide by zero" = "integer divide by zero") \/
  (postMessagesBatchSize (baseLogger zeroBatchLogger) < 0 /\
   "integer divide by zero" = "slice bounds out of range") \/
  "integer divide by zero" = "growslice: len out of range".
Proof.
  destruct (run (H := accepting) zeroBatchLogger 10 firstRecord initial) as [s|] eqn:Hrun;
    [|by vm_compute in Hrun].
  apply (panics_are_arithmetic (H := accepting) zeroBatchLogger 10 firstRecord s).
  - by vm_compute.
  - done.
  - vm_compute in Hrun. by injection Hrun as <-.
Defined.

Section NoPanic.
Context `{GoLib}.
Variable lw : loggerWrapper.
Variable capacity : nat.

Local Abbreviation l := (baseLogger lw).

Hypothesis batchSize_int : intRange (postMessagesBatchSize l).
Hypothesis batchSize_pos : 0 < postMessagesBatchSize l.
Hypothesis frequency_pos : 0 < postMessagesFrequency l.
Hypothesis ceiling_fits : bufferCeiling l < 2 ^ 62.

Lemma ceiling_pos : 0 < bufferCeiling l.
Proof. destruct (bufferCeiling_bounds l batchSize_pos) as [Hceil _]. lia. Qed.

Lemma workerReceive_returns messages message h :
  len messages < bufferCeiling l ->
  exists rest h', workerReceive l messages message h = (Done rest, h').
Proof.
  intros Hlen. unfold workerReceive, append, batchReached.
  rewrite bool_decide_eq_true_2.
  2:{ unfold fitsInMemory, len in *. rewrite length_app. simpl. lia. }
  rewrite bool_decide_eq_false_2 by lia.
  case_bool_decide; [|by eexists _, _].
  apply postMessages_total; [done| |done].
  unfold fitsInMemory, len in *. rewrite length_app. simpl. lia.
Qed.

Lemma bounded_step a s s' :
  invariant lw s -> bounded l s ->
  step lw capacity a s = Some s' ->
  crashed s' = None ->
  bounded l s'.
Proof.
  intros Hinv [Hstuck Hlen] Hstep Halive. unfold step in Hstep.
  destruct (crashed s); [done|].
  destruct a as [msg| |i|wake|].
  - by injection Hstep as <-.
  - by injection Hstep as <-.
  - apply stepThread_worker in Hstep. unfold bounded. by rewrite Hstep.
  - unfold stepWorker in Hstep.
    destruct (worker s) as [|messages| | | |] eqn:Hw; try done.
    + case_bool_decide; injection Hstep as <-; [done|].
      split; [done|]. apply ceiling_pos.
    + destruct (stream s) as [|message q] eqn:Hq.
      * destruct (streamClosed s) eqn:Hsc; [|done]. injection Hstep as <-.
        pose proof (inv_fits _ _ Hinv) as Hfit. rewrite Hw in Hfit.
        unfold workerLastChance in *.
        destruct (postMessages_total l messages batchSize_int Hfit true (world s)
                    batchSize_pos) as (rest & h & ->).
        split; [done|]. apply ceiling_pos.
      * injection Hstep as <-.
        destruct (workerReceive_returns messages message (world s) Hlen)
          as (rest & h & Hround).
        rewrite Hround. split; [done|]. simpl.
        by apply (workerReceive_bounded l batchSize_int batchSize_pos) in Hround as [_ ?].
    + destruct (canLock s); [|done]. injection Hstep as <-.
      split; [done|]. apply ceiling_pos.
    + destruct (closedCond s); [|by injection Hstep as <-].
      destruct (signal wake (setClosed s)) as [s2|]; [|done]. injection Hstep as <-.
      split; [done|]. apply ceiling_pos.
  - unfold stepTick in Hstep.
    destruct (worker s) as [|messages| | | |] eqn:Hw; try done.
    injection Hstep as <-.
    pose proof (inv_fits _ _ Hinv) as Hfit. rewrite Hw in Hfit.
    unfold workerTick in *.
    destruct (postMessages_total l messages batchSize_int Hfit false (world s)
                batchSize_pos) as (rest & h & Hround).
    rewrite Hround. split; [done|]. simpl.
    by apply (workerTick_bounded l batchSize_int batchSize_pos) in Hround as [_ ?].
Qed.

Lemma step_survives a s s' :
  invariant lw s -> handshake s -> bounded l s ->
  step lw capacity a s = Some s' ->
  crashed s' = None.
Proof.
  intros Hinv Hhs [Hstuck Hlen] Hstep.
  destruct (crashed s') as [why|] eqn:Hcrash; [exfalso|done].
  destruct (step_crash lw capacity a s s' why Hinv Hhs Hstep Hcrash)
    as [[? _]|(messages & Hw & [(message & h & Hpanic)|(lastChance & h & Hpanic)])];
    [lia|..].
  - rewrite Hw in Hlen.
    destruct (workerReceive_returns messages message (world s) Hlen) as (rest & h' & Hround).
    congruence.
  - pose proof (inv_fits _ _ Hinv) as Hfit. rewrite Hw in Hfit.
    apply (postMessages_panic lw batchSize_int) in Hpanic as [? _]; [lia|done].
Qed.

Lemma reachable_bounded acts s :
  run lw capacity acts initial = Some s ->
  crashed s = None /\ bounded l s.
Proof.
  revert acts s.
  apply (reachable_ind lw capacity (fun _ s => crashed s = None /\ bounded l s)).
  - split; [done|]. split; [done|]. apply ceiling_pos.
  - intros acts a s s' Hrun [Halive Hb] Hstep.
    destruct (reachable_handshake lw capacity batchSize_int acts s Hrun Halive)
      as [Hinv Hhs].
    pose proof (step_survives a s s' Hinv Hhs Hb Hstep) as Halive'.
    split; [done|]. by eapply bounded_step.
Qed.

End NoPanic.

(** With a positive batch size and a positive period, and a buffer
    ceiling that fits the memory, the process never panics, whatever the
    producers, the remote and the scheduler do; the worker is never caught
    in an endless flush; and its buffer stays below the ceiling. *)
Theorem pipeline_never_panics `{GoLib} (lw : loggerWrapper) (capacity : nat)
    (acts : list action) (s : pipeline) :
  intRange (postMessagesBatchSize (baseLogger lw)) ->
  0 < postMessagesBatchSize (baseLogger lw) ->
  0 < postMessagesFrequency (baseLogger lw) ->
  bufferCeiling (baseLogger lw) < 2 ^ 62 ->
  run lw capacity acts initial = Some s ->
  crashed s = None /\
  worker s <> WorkerStuck /\
  len (buffered (worker s)) < bufferCeiling (baseLogger lw).
Proof.
  intros Hint Hpos Hfreq Hceil Hrun.
  by apply (reachable_bounded lw capacity Hint Hpos Hfreq Hceil) in Hrun as [? [? ?]].
Qed.

Lemma pipeline_never_panics_witness :
  exists s, run (H := refusing) rawLogger 10 orderlyShutdown initial = Some s /\
            crashed s = None /\
            worker s <> WorkerStuck /\
            len (buffered (worker s)) < bufferCeiling (baseLogger rawLogger).
Proof.
  destruct (run (H := refusing) rawLogger 10 orderlyShutdown initial) as [s|] eqn:Hrun;
    [|by vm_compute in Hrun].
  exists s. split; [done|].
  apply (pipeline_never_panics (H := refusing) rawLogger 10 orderlyShutdown s).
  - by vm_compute.
  - done.
  - done.
  - by vm_compute.
  - done.
Defined.

(** * The order of delivery *)

Section FlushOrder.
Context `{GoLib}.
Variable l : splunkLogger.
Hypothesis batchSize_int : intRange (postMessagesBatchSize l).
Hypothesis batchSize_pos : 0 < postMessagesBatchSize l.

Lemma departed_Delivered (chunks : list (list splunkMessage)) :
  (Delivered <$> chunks) ≫= departed = concat chunks.
Proof. induction chunks as [|c chunks IH]; [done|]. simpl. f_equal. exact IH. Qed.

Lemma departed_Dropped (dropped : list splunkMessage) :
  (Dropped <$> dropped) ≫= departed = dropped.
Proof. induction dropped as [|m dropped IH]; [done|]. simpl. f_equal. exact IH. Qed.

(** What was in the buffer when a flush began has left, in the order of
    the buffer and in this order in the history, or is in the buffer that
    the flush returns. *)
Lemma flush_ordered messages lastChance h rest h' :
  fitsInMemory messages ->
  postMessages l messages lastChance h = (Done rest, h') ->
  exists (deps : list departure) (d : history),
    h' = h ++ d /\
    outcomes d = trace l <$> deps /\
    messages = (deps ≫= departed) ++ rest.
Proof.
  intros Hfit Hrun.
  apply (postMessagesFrom_outcome l messages batchSize_int batchSize_pos Hfit _ _ 0%nat)
    in Hrun as (n & dropped & d & -> & Hend & Hout & _).
  exists ((Delivered <$> (batch l messages <$> seq 0 n)) ++ (Dropped <$> dropped)), d.
  split; [done|]. split.
  - rewrite Hout, fmap_app, <- !list_fmap_compose. done.
  - rewrite bind_app, departed_Delivered, departed_Dropped.
    rewrite (concat_batches l messages), <- app_assoc.
    rewrite <- (take_drop (n * Z.to_nat (postMessagesBatchSize l)) messages) at 1.
    f_equal. simpl in Hend.
    replace (n * Z.to_nat (postMessagesBatchSize l))%nat
      with (Z.to_nat (Z.of_nat n * postMessagesBatchSize l)) by nia.
    set (i := Z.of_nat n * postMessagesBatchSize l) in *.
    assert (0 <= i) as Hi0 by (subst i; nia).
    destruct Hend as [(Hlen & -> & ->)|[Hi Hend]].
    { apply drop_ge. unfold len in Hlen. lia. }
    destruct (_ || _).
    + destruct Hend as [-> ->].
      set (upper := if lastChance then _ else _).
      assert (i <= upper) as Hup by (subst upper; destruct lastChance; lia).
      rewrite <- (take_drop (Z.to_nat (upper - i)) (drop (Z.to_nat i) messages)) at 1.
      f_equal. rewrite drop_drop. f_equal. lia.
    + by destruct Hend as [-> ->].
Qed.

End FlushOrder.

Section DeliveryOrder.
Context `{GoLib}.
Variable lw : loggerWrapper.
Variable capacity : nat.

Local Abbreviation l := (baseLogger lw).

Hypothesis batchSize_int : intRange (postMessagesBatchSize l).
Hypothesis batchSize_pos : 0 < postMessagesBatchSize l.

Lemma channelOrder_snoc acts a s0 s :
  run lw capacity acts s0 = Some s ->
  channelOrder lw capacity (acts ++ [a]) s0 =
  channelOrder lw capacity acts s0 ++
  match step lw capacity a s with
  | Some _ => option_list (sentBy capacity a s)
  | None => []
  end.
Proof.
  revert s0. induction acts as [|a0 acts IH]; intros s0; simpl.
  - intros [= ->]. destruct (step lw capacity a s); by rewrite ?app_nil_r.
  - destruct (step lw capacity a0 s0) as [s1|]; [|done].
    intros Hrun. by rewrite (IH s1 Hrun), app_assoc.
Qed.

Lemma ordered_frame order s s' :
  world s' = world s -> pending s' = pending s ->
  ordered l order s -> ordered l order s'.
Proof. intros Hw Hp (deps & Hout & Horder). exists deps. by rewrite Hw, Hp. Qed.

(** A flush at the [select] of the worker: what it was given has left
    or is in the buffer again. *)
Lemma ordered_flush order s s' q messages lastChance rest h' :
  ordered l order s ->
  fitsInMemory messages ->
  pending s = messages ++ q ->
  postMessages l messages lastChance (world s) = (Done rest, h') ->
  world s' = h' -> pending s' = rest ++ q ->
  ordered l order s'.
Proof.
  intros (deps & Hout & Horder) Hfit Hpending Hrun Hworld Hpending'.
  apply (flush_ordered l batchSize_int batchSize_pos) in Hrun
    as (deps' & d & -> & Hout' & Hmessages); [|done].
  exists (deps ++ deps'). split.
  - by rewrite Hworld, outcomes_app, Hout, Hout', fmap_app.
  - rewrite Horder, Hpending, Hpending', Hmessages, bind_app.
    by rewrite <- !app_assoc.
Qed.

Lemma ordered_step a s s' order :
  invariant lw s -> worker s <> WorkerStuck ->
  ordered l order s ->
  step lw capacity a s = Some s' ->
  crashed s' = None ->
  worker s' <> WorkerStuck /\
  ordered l (order ++ option_list (sentBy capacity a s)) s'.
Proof.
  intros Hinv Hstuck Hord Hstep Halive. unfold step in Hstep.
  destruct (crashed s); [done|].
  destruct a as [msg| |i|wake|]; simpl.
  - injection Hstep as <-. rewrite app_nil_r. split; [done|]. by apply (ordered_frame _ s).
  - injection Hstep as <-. rewrite app_nil_r. split; [done|]. by apply (ordered_frame _ s).
  - split; [by rewrite (stepThread_worker lw capacity i s s' Hstep)|].
    unfold stepThread in Hstep.
    destruct (threads s !! i) as [[msg|msg|message pc|pc]|] eqn:Hi; try done.
    + rewrite app_nil_r.
      destruct (Log lw msg); injection Hstep as <-; by apply (ordered_frame _ s).
    + unfold stepQueue in Hstep.
      destruct pc; try (rewrite app_nil_r; repeat case_match; simplify_eq;
                        by apply (ordered_frame _ s)).
      destruct (streamClosed s); [by injection Hstep as <-|].
      destruct (canSend capacity s); [|done]. injection Hstep as <-. simpl.
      destruct Hord as (deps & Hout & ->). exists deps. split; [done|].
      unfold pending. simpl. by rewrite <- !app_assoc.
    + rewrite app_nil_r. unfold stepClose in Hstep.
      destruct pc; repeat case_match; simplify_eq; try done;
        by apply (ordered_frame _ s).
  - rewrite app_nil_r. unfold stepWorker in Hstep.
    destruct (worker s) as [|messages| | | |] eqn:Hw; try done.
    + case_bool_decide; injection Hstep as <-; [done|].
      split; [done|]. apply (ordered_frame _ s); [done| |done].
      unfold pending. simpl. by rewrite Hw.
    + pose proof (inv_fits _ _ Hinv) as Hfit. rewrite Hw in Hfit.
      destruct (stream s) as [|message q] eqn:Hq.
      * destruct (streamClosed s) eqn:Hsc; [|done]. injection Hstep as <-.
        unfold workerLastChance in *.
        destruct (postMessages_total l messages batchSize_int Hfit true (world s)
                    batchSize_pos) as (rest & h & Hrun).
        rewrite Hrun in *. simpl. split; [done|].
        pose proof (postMessages_lastChance l batchSize_int messages _ _ _ Hfit Hrun) as ->.
        eapply (ordered_flush order s _ [] messages true [] h); try done;
          unfold pending; simpl; by rewrite ?Hw, ?Hq.
      * injection Hstep as <-. unfold workerReceive, append, batchReached in *.
        case_bool_decide as Hfit'; [|done].
        rewrite bool_decide_eq_false_2 in * by lia.
        case_bool_decide.
        -- destruct (postMessages_total l (messages ++ [message]) batchSize_int Hfit'
                       false (world s) batchSize_pos) as (rest & h & Hrun).
           rewrite Hrun in *. simpl. split; [done|].
           eapply (ordered_flush order s _ q (messages ++ [message]) false rest h);
             try done.
           unfold pending. by rewrite Hw, Hq, <- app_assoc.
        -- simpl. split; [done|].
           destruct Hord as (deps & Hout & ->). exists deps. split; [done|].
           unfold pending. simpl. by rewrite Hw, Hq, <- app_assoc.
    + destruct (canLock s); [|done]. injection Hstep as <-.
      split; [done|]. apply (ordered_frame _ s); [done| |done].
      unfold pending. simpl. by rewrite Hw.
    + destruct (closedCond s); [|by injection Hstep as <-].
      destruct (signal wake (setClosed s)) as [s2|] eqn:Hsig; [|done].
      injection Hstep as <-. split; [done|].
      assert (stream s2 = stream s) as Hstream.
      { unfold signal in Hsig. repeat case_match; by simplify_eq. }
      destruct Hord as (deps & Hout & ->). exists deps. split.
      * simpl. by rewrite outcomes_app, Hout, app_nil_r.
      * unfold pending. simpl. by rewrite Hw, Hstream.
  - rewrite app_nil_r. unfold stepTick in Hstep.
    destruct (worker s) as [|messages| | | |] eqn:Hw; try done.
    injection Hstep as <-.
    pose proof (inv_fits _ _ Hinv) as Hfit. rewrite Hw in Hfit.
    unfold workerTick in *.
    destruct (postMessages_total l messages batchSize_int Hfit false (world s)
                batchSize_pos) as (rest & h & Hrun).
    rewrite Hrun in *. simpl. split; [done|].
    eapply (ordered_flush order s _ (stream s) messages false rest h); try done.
    unfold pending. by rewrite Hw.
Qed.

Lemma reachable_ordered acts s :
  run lw capacity acts initial = Some s -> crashed s = None ->
  worker s <> WorkerStuck /\
  ordered l (channelOrder lw capacity acts initial) s.
Proof.
  revert acts s.
  apply (reachable_ind lw capacity
           (fun acts s => crashed s = None ->
              worker s <> WorkerStuck /\
              ordered l (channelOrder lw capacity acts initial) s)).
  - intros _. split; [done|]. by exists [].
  - intros acts a s s' Hrun IH Hstep Halive.
    pose proof (step_alive lw capacity a s s' Hstep) as Halive0.
    destruct (IH Halive0) as [Hstuck Hord].
    pose proof (reachable_invariant lw capacity batchSize_int acts s Hrun Halive0) as Hinv.
    rewrite (channelOrder_snoc acts a initial s Hrun), Hstep.
    by apply ordered_step.
Qed.

End DeliveryOrder.

(** Records leave the pipeline in the order in which they entered the
    channel. In a live process with a positive batch size, the records
    sent into the channel so far are, in the order of the sends: first
    those that have left, batch by batch in accepted requests or one by one
    in the error entries of the log, in the order in which the history
    shows them; then those in the buffer of the worker; then those in the
    channel. *)
Theorem delivery_in_order `{GoLib} (lw : loggerWrapper) (capacity : nat)
    (acts : list action) (s : pipeline) :
  intRange (postMessagesBatchSize (baseLogger lw)) ->
  0 < postMessagesBatchSize (baseLogger lw) ->
  run lw capacity acts initial = Some s ->
  crashed s = None ->
  exists deps : list departure,
    outcomes (world s) = trace (baseLogger lw) <$> deps /\
    channelOrder lw capacity acts initial =
      (deps ≫= departed) ++ buffered (worker s) ++ stream s.
Proof.
  intros Hint Hpos Hrun Halive.
  destruct (reachable_ordered lw capacity Hint Hpos acts s Hrun Halive)
    as [_ (deps & Hout & Horder)].
  by exists deps.
Qed.

Lemma delivery_in_order_witness :
  exists s, run (H := refusing) rawLogger 10 orderlyShutdown initial = Some s /\
    exists deps : list departure,
      outcomes (world s) = trace (H := refusing) (baseLogger rawLogger) <$> deps /\
      channelOrder (H := refusing) rawLogger 10 orderlyShutdown initial =
        (deps ≫= departed) ++ buffered (worker s) ++ stream s.
Proof.
  destruct (run (H := refusing) rawLogger 10 orderlyShutdown initial) as [s|] eqn:Hrun;
    [|by vm_compute in Hrun].
  exists s. split; [done|].
  apply (delivery_in_order (H := refusing) rawLogger 10 orderlyShutdown s).
  - by vm_compute.
  - done.
  - done.
  - vm_compute in Hrun. by injection Hrun as <-.
Defined.

(** * Where the records come from, and the silence after the shutdown *)

Section Provenance.
Context `{GoLib}.
Variable lw : loggerWrapper.
Variable capacity : nat.

(** What a step does to the goroutines: each one stays, or is the same
    call a step later, or is a new call. *)
Lemma step_threads a s s' (j : nat) t' :
  step lw capacity a s = Some s' ->
  threads s' !! j = Some t' ->
  threads s !! j = Some t' \/
  (exists t, threads s !! j = Some t /\ follows lw t t') \/
  (threads s !! j = None /\
   ((exists msg, a = CallLog msg /\ t' = InLog msg) \/
    (a = CallClose /\ t' = InClose CloseStart))).
Proof.
  unfold step. destruct (crashed s); [done|].
  assert (forall (i : nat) t0 t1 s0,
            threads s0 = threads s -> threads s !! i = Some t0 -> follows lw t0 t1 ->
            threads (setThread i t1 s0) !! j = Some t' ->
            threads s !! j = Some t' \/ (exists t, threads s !! j = Some t /\ follows lw t t'))
    as Hset.
  { intros i t0 t1 s0 Hs0 Hi Hfol. simpl. rewrite Hs0.
    intros [[-> [<- _]]|[_ Hj]]%list_lookup_insert_Some; [right; eauto|by left]. }
  destruct a as [msg| |i|wake|]; intros Hstep Hj.
  - injection Hstep as <-. simpl in Hj.
    apply lookup_app_Some in Hj as [Hj|[Hlen Hj]]; [by left|].
    right. right. split; [by apply lookup_ge_None|]. left. exists msg. split; [done|].
    apply list_lookup_singleton_Some in Hj as [_ <-]. done.
  - injection Hstep as <-. simpl in Hj.
    apply lookup_app_Some in Hj as [Hj|[Hlen Hj]]; [by left|].
    right. right. split; [by apply lookup_ge_None|]. right. split; [done|].
    apply list_lookup_singleton_Some in Hj as [_ <-]. done.
  - assert (threads s !! j = Some t' \/
            exists t, threads s !! j = Some t /\ follows lw t t') as [?|?]; [|by left|by right; left].
    unfold stepThread in Hstep.
    destruct (threads s !! i) as [[msg|msg|message pc|pc]|] eqn:Hi; try done.
    + destruct (Log lw msg) eqn:Hlog; injection Hstep as <-;
        (eapply Hset; [done|done| |done]); simpl; done.
    + unfold stepQueue in Hstep.
      destruct pc; repeat case_match; simplify_eq;
        try (by left); (eapply Hset; [|done| |done]); simpl; done.
    + unfold stepClose in Hstep.
      destruct pc; repeat case_match; simplify_eq;
        try (by left); (eapply Hset; [|done| |done]); simpl; done.
  - assert (threads s !! j = Some t' \/
            exists t, threads s !! j = Some t /\ follows lw t t') as [?|?]; [|by left|by right; left].
    unfold stepWorker in Hstep.
    destruct (worker s) as [|messages| | | |]; try done.
    + case_bool_decide; injection Hstep as <-; by left.
    + destruct (stream s) as [|m q].
      * destruct (streamClosed s); [|done]. injection Hstep as <-.
        destruct (afterFlush_frame (fun _ => WorkerFlushed)
                    (workerLastChance (baseLogger lw) messages (world s)) s) as [Ht _].
        rewrite Ht in Hj. by left.
      * injection Hstep as <-.
        destruct (afterFlush_frame WorkerSelect
                    (workerReceive (baseLogger lw) messages m (world s))
                    (setStream q s)) as [Ht _].
        rewrite Ht in Hj. by left.
    + destruct (canLock s); [|done]. injection Hstep as <-. by left.
    + destruct (closedCond s); [|injection Hstep as <-; by left].
      destruct (signal wake (setClosed s)) as [s2|] eqn:Hsig; [|done].
      injection Hstep as <-. simpl in Hj. unfold signal in Hsig. simpl in Hsig.
      destruct (threads s !! wake) as [t|] eqn:Hwake.
      * destruct (parked t) eqn:Hpt.
        -- assert (t = InClose CloseParked) as -> by (by destruct t as [| | |[]]).
           injection Hsig as <-.
           eapply (Hset wake _ _ (setClosed s)); [done|done| |done]. done.
        -- assert (s2 = setClosed s) as ->.
           { destruct t as [| | |[]]; try done;
               (destruct (existsb parked (threads s)); [done|]; by injection Hsig as <-). }
           by left.
      * destruct (existsb parked (threads s)); [done|]. injection Hsig as <-. by left.
  - unfold stepTick in Hstep. destruct (worker s); try done.
    injection Hstep as <-.
    destruct (afterFlush_frame WorkerSelect
                (workerTick (baseLogger lw) messages (world s)) s) as [Ht _].
    rewrite Ht in Hj. by left.
Qed.

Lemma fromLog_mono acts a t : fromLog lw acts t -> fromLog lw (acts ++ [a]) t.
Proof.
  destruct t as [msg|msg|message pc|pc]; simpl; try done.
  - intros ?. apply elem_of_app. by left.
  - intros ?. apply elem_of_app. by left.
  - intros (msg & Hin & Hlog). exists msg. split; [|done]. apply elem_of_app. by left.
Qed.

Lemma fromLog_follows acts t t' :
  fromLog lw acts t -> follows lw t t' -> fromLog lw acts t'.
Proof.
  destruct t as [msg|msg|message pc|pc], t' as [msg'|msg'|message' pc'|pc'];
    simpl; try done.
  - by intros ? [-> _].
  - intros ? ?. by exists msg.
  - by intros ? ->.
Qed.

Lemma reachable_fromLog acts s :
  run lw capacity acts initial = Some s ->
  Forall (fromLog lw acts) (threads s) /\
  forall message, message ∈ channelOrder lw capacity acts initial ->
    exists msg, CallLog msg ∈ acts /\ Log lw msg = QueueMessageAsync message.
Proof.
  revert acts s.
  apply (reachable_ind lw capacity (fun acts s =>
           Forall (fromLog lw acts) (threads s) /\
           forall message, message ∈ channelOrder lw capacity acts initial ->
             exists msg, CallLog msg ∈ acts /\ Log lw msg = QueueMessageAsync message)).
  - split; [by constructor|]. by intros message ?%elem_of_nil.
  - intros acts a s s' Hrun [Hthreads Horder] Hstep. split.
    + apply Forall_lookup. intros j t' Hj.
      destruct (step_threads a s s' j t' Hstep Hj)
        as [Hold|[(t & Hold & Hfol)|(_ & [(msg & -> & ->)|[-> ->]])]].
      * apply fromLog_mono. by eapply Forall_lookup_1.
      * apply fromLog_mono. eapply fromLog_follows; [|done]. by eapply Forall_lookup_1.
      * simpl. apply elem_of_app. right. by apply list_elem_of_singleton.
      * done.
    + intros message. rewrite (channelOrder_snoc lw capacity acts a initial s Hrun), Hstep.
      intros [Hin|Hin]%elem_of_app.
      * destruct (Horder message Hin) as (msg & Hmsg & Hlog).
        exists msg. split; [|done]. apply elem_of_app. by left.
      * unfold sentBy in Hin. destruct a as [| |i| |]; try by apply elem_of_nil in Hin.
        destruct (threads s !! i) as [[| |message' []|]|] eqn:Hi;
          try by apply elem_of_nil in Hin.
        destruct (_ && _); [|by apply elem_of_nil in Hin].
        apply list_elem_of_singleton in Hin as ->.
        pose proof (Forall_lookup_1 _ _ _ _ Hthreads Hi) as (msg & Hmsg & Hlog).
        exists msg. split; [|done]. apply elem_of_app. by left.
Qed.

End Provenance.

(** The pipeline makes no record of its own: every record that is sent
    into the channel is the record that the formatter of the logger made
    of a message that was passed to [Log]. *)
Theorem records_come_from_Log `{GoLib} (lw : loggerWrapper) (capacity : nat)
    (acts : list action) (s : pipeline) (message : splunkMessage) :
  run lw capacity acts initial = Some s ->
  message ∈ channelOrder lw capacity acts initial ->
  exists msg, CallLog msg ∈ acts /\ Log lw msg = QueueMessageAsync message.
Proof.
  intros Hrun Hin.
  destruct (reachable_fromLog lw capacity acts s Hrun) as [_ Horder]. by apply Horder.
Qed.

Lemma records_come_from_Log_witness :
  exists msg, CallLog msg ∈ orderlyShutdown /\
              Log (H := refusing) rawLogger msg = QueueMessageAsync helloRecord.
Proof.
  destruct (run (H := refusing) rawLogger 10 orderlyShutdown initial) as [s|] eqn:Hrun;
    [|by vm_compute in Hrun].
  apply (records_come_from_Log (H := refusing) rawLogger 10 orderlyShutdown s helloRecord).
  - done.
  - vm_compute. apply list_elem_of_here.
Defined.

Section AfterShutdown.
Context `{GoLib}.
Variable lw : loggerWrapper.
Variable capacity : nat.
Hypothesis batchSize_int : intRange (postMessagesBatchSize (baseLogger lw)).

Lemma stepThread_world i s s' :
  stepThread lw capacity i s = Some s' -> world s' = world s.
Proof.
  unfold stepThread, stepQueue, stepClose. intros Hstep.
  repeat case_match; simplify_eq; done.
Qed.

(** Once the worker has ended, nothing is added to the history. *)
Lemma step_after_exit a s s' :
  step lw capacity a s = Some s' -> worker s = WorkerExited ->
  worker s' = WorkerExited /\ world s' = world s.
Proof.
  unfold step. destruct (crashed s); [done|]. intros Hstep Hw.
  destruct a as [msg| |i|wake|].
  - by injection Hstep as <-.
  - by injection Hstep as <-.
  - split; [by rewrite (stepThread_worker lw capacity i s s' Hstep)|].
    by eapply stepThread_world.
  - unfold stepWorker in Hstep. by rewrite Hw in Hstep.
  - unfold stepTick in Hstep. by rewrite Hw in Hstep.
Qed.

Lemma run_after_exit acts s s' :
  run lw capacity acts s = Some s' -> worker s = WorkerExited ->
  worker s' = WorkerExited /\ world s' = world s.
Proof.
  revert s. induction acts as [|a acts IH]; intros s; simpl.
  - by intros [= <-].
  - destruct (step lw capacity a s) as [s1|] eqn:Hstep; [|done].
    intros Hrun Hw. destruct (step_after_exit a s s1 Hstep Hw) as [Hw1 Hworld1].
    destruct (IH s1 Hrun Hw1) as [Hw' Hworld']. split; [done|congruence].
Qed.

(** Once the shutdown has begun, no send into the channel goes through. *)
Lemma sentBy_closing a s :
  invariant lw s -> closedCond s = true -> sentBy capacity a s = None.
Proof.
  intros Hinv Hcond. unfold sentBy. destruct a as [| |i| |]; try done.
  destruct (threads s !! i) as [[| |message []|]|] eqn:Hi; try done.
  pose proof (Forall_lookup_1 _ _ _ _ (inv_threads _ _ Hinv) Hi) as Hok.
  simpl in Hok. congruence.
Qed.

Lemma channelOrder_closing acts s s' :
  invariant lw s -> closedCond s = true ->
  run lw capacity acts s = Some s' ->
  channelOrder lw capacity acts s = [].
Proof.
  revert s. induction acts as [|a acts IH]; intros s Hinv Hcond; simpl; [done|].
  destruct (step lw capacity a s) as [s1|] eqn:Hstep; [|done].
  intros Hrun. rewrite sentBy_closing by done. simpl.
  destruct acts as [|a2 acts]; [done|].
  apply IH; [|by eapply closedCond_stays|done].
  eapply invariant_step; [done..|].
  simpl in Hrun. destruct (step lw capacity a2 s1) eqn:Hstep2; [|done].
  by eapply step_alive.
Qed.

End AfterShutdown.

(** After the call of [Close] that began the shutdown has returned, the
    driver is silent and shut: whatever is called and scheduled from then
    on, it makes no request, writes nothing to the log, and no record is
    sent into the channel. *)
Theorem shut_after_close `{GoLib} (lw : loggerWrapper) (capacity : nat)
    (acts : list action) (s : pipeline) (i : nat)
    (later : list action) (s' : pipeline) :
  intRange (postMessagesBatchSize (baseLogger lw)) ->
  run lw capacity acts initial = Some s ->
  crashed s = None ->
  threads s !! i = Some (InClose (CloseReturned true)) ->
  run lw capacity later s = Some s' ->
  world s' = world s /\
  channelOrder lw capacity later s = [].
Proof.
  intros Hint Hrun Halive Hi Hlater.
  pose proof (reachable_invariant lw capacity Hint acts s Hrun Halive) as Hinv.
  pose proof (Forall_lookup_1 _ _ _ _ (inv_threads _ _ Hinv) Hi) as [Hcond Hclosed].
  pose proof (inv_closed _ _ Hinv Hclosed) as Hw.
  split.
  - by destruct (run_after_exit lw capacity later s s' Hlater Hw).
  - by eapply channelOrder_closing.
Qed.

Lemma shut_after_close_witness :
  exists s s',
    run (H := refusing) rawLogger 10 orderlyShutdown initial = Some s /\
    run (H := refusing) rawLogger 10
        [CallLog helloLine; StepThread 2; StepThread 2; StepThread 2; StepThread 2]%nat s
      = Some s' /\
    world s' = world s /\
    channelOrder (H := refusing) rawLogger 10
      [CallLog helloLine; StepThread 2; StepThread 2; StepThread 2; StepThread 2]%nat s = [].
Proof.
  destruct (run (H := refusing) rawLogger 10 orderlyShutdown initial) as [s|] eqn:Hrun;
    [|by vm_compute in Hrun].
  destruct (run (H := refusing) rawLogger 10
              [CallLog helloLine; StepThread 2; StepThread 2; StepThread 2; StepThread 2]%nat s)
    as [s'|] eqn:Hlater.
  2:{ vm_compute in Hrun. injection Hrun as <-. by vm_compute in Hlater. }
  exists s, s'. split; [done|]. split; [done|].
  apply (shut_after_close (H := refusing) rawLogger 10 orderlyShutdown s 1
           [CallLog helloLine; StepThread 2; StepThread 2; StepThread 2; StepThread 2]%nat s').
  - by vm_compute.
  - done.
  - vm_compute in Hrun. by injection Hrun as <-.
  - vm_compute in Hrun. by injection Hrun as <-.
  - done.
Defined.

(** * What [New] returns *)

Section NewSuccess.
Context `{GoLib} `{ConfigLib}.

Lemma getAdvancedOptionInt_logs envName defaultValue h :
  exists d, getAdvancedOptionInt envName defaultValue h =
              (envInt envName defaultValue, h ++ d) /\ Forall isLog d.
Proof.
  unfold getAdvancedOptionInt, envInt. case_bool_decide.
  - exists []. rewrite app_nil_r. by split.
  - destruct (ParseInt32 _) as [err|n].
    + eexists [_]. split; [done|]. constructor; [by eexists|done].
    + exists []. rewrite app_nil_r. by split.
Qed.

Lemma getAdvancedOptionDuration_logs envName defaultValue h :
  exists d, getAdvancedOptionDuration envName defaultValue h =
              (envDuration envName defaultValue, h ++ d) /\ Forall isLog d.
Proof.
  unfold getAdvancedOptionDuration, envDuration. case_bool_decide.
  - exists []. rewrite app_nil_r. by split.
  - destruct (ParseDuration _) as [err|n].
    + eexists [_]. split; [done|]. constructor; [by eexists|done].
    + exists []. rewrite app_nil_r. by split.
Qed.

(** How the check of the connection ends. *)
Lemma verifySplunkConnection_cases l h :
  exists r d, verifySplunkConnection l h = (r, h ++ d) /\
    (d = [] /\ (exists err, r = Some err) \/
     exists res, d = [IoHttp (probe l) res] /\
       (r = None <-> exists resp, res = inr resp /\ StatusCode resp = 200)).
Proof.
  unfold verifySplunkConnection.
  destruct (httpNewRequestErr _ _) as [err|].
  { exists (Some err), []. rewrite app_nil_r. split; [done|]. left. eauto. }
  unfold iobind, doRequest, ioret. fold (probe l).
  destruct (clientDo h (probe l)) as [err|resp] eqn:Hdo; simpl.
  - eexists _, [_]. split; [done|]. right. eexists. split; [done|].
    split; [done|]. by intros (resp & [=] & _).
  - case_bool_decide as Hs; [destruct (readAllLimited _ _)|];
      (eexists _, [_]; split; [done|]; right; eexists; split; [done|]).
    + split; [done|]. intros (resp' & [= <-] & Hok). by destruct Hs.
    + split; [done|]. intros (resp' & [= <-] & Hok). by destruct Hs.
    + split; [intros _|done]. exists resp. split; [done|].
      by destruct (decide (StatusCode resp = StatusOK)).
Qed.

(** A call of [New] that returns a logger: what it read, what it did and
    what it made. *)
Lemma New_success info h c h' :
  New info h = (Done (inr c), h') ->
  exists (o : options) (verify : bool) (logs checked : history),
    readOptions info = inr o /\
    boolOption info splunkVerifyConnectionKey true = inr verify /\
    0 <= envInt envVarStreamChannelSize defaultStreamChannelSize /\
    let splLogger :=
      {| url := urlString (optURL o);
         auth := "Splunk " +:+ optToken o;
         nullMessage :=
           {| Event := EventNil; Time := ""; Host := optHostname o;
              Source := at_key (Config info) splunkSourceKey;
              SourceType := at_key (Config info) splunkSourceTypeKey;
              Index := at_key (Config info) splunkIndexKey |};
         gzipCompression := optGzip o;
         gzipCompressionLevel := optGzipLevel o;
         postMessagesFrequency :=
           envDuration envVarPostMessagesFrequency defaultPostMessagesFrequency;
         postMessagesBatchSize :=
           envInt envVarPostMessagesBatchSize defaultPostMessagesBatchSize;
         bufferMaximum := envInt envVarBufferMaximum defaultBufferMaximum;
         indexAck := optIndexAck o |} in
    let nullEvent := {| Line := LineNil; EventSource := "";
                        Tag := optTag o; Attrs := optExtraAttrs o |} in
    let splunkFormat := default splunkFormatInline (Config info !! splunkFormatKey) in
    h' = h ++ logs ++ checked ++ [IoGo] /\
    Forall isLog logs /\
    (if verify
     then exists resp, checked = [IoHttp (probe splLogger) (inr resp)] /\
                       StatusCode resp = 200
     else checked = []) /\
    transportTLS c = optTLS o /\
    streamCapacity c = envInt envVarStreamChannelSize defaultStreamChannelSize /\
    (splunkFormat = splunkFormatInline /\
       wrapper c = splunkLoggerInline splLogger nullEvent \/
     splunkFormat = splunkFormatJSON /\
       wrapper c = splunkLoggerJSON splLogger nullEvent \/
     splunkFormat = splunkFormatRaw /\
       wrapper c = splunkLoggerRaw splLogger (rawPrefix (optTag o) (optExtraAttrs o))).
Proof.
  unfold New. intros Hnew.
  destruct (readOptions info) as [err|o] eqn:Hopt; [done|].
  destruct (getAdvancedOptionDuration_logs envVarPostMessagesFrequency
              defaultPostMessagesFrequency h) as (d1 & Hrun1 & Hd1).
  unfold iobind at 1 in Hnew. rewrite Hrun1 in Hnew.
  destruct (getAdvancedOptionInt_logs envVarPostMessagesBatchSize
              defaultPostMessagesBatchSize (h ++ d1)) as (d2 & Hrun2 & Hd2).
  unfold iobind at 1 in Hnew. rewrite Hrun2 in Hnew.
  destruct (getAdvancedOptionInt_logs envVarBufferMaximum
              defaultBufferMaximum ((h ++ d1) ++ d2)) as (d3 & Hrun3 & Hd3).
  unfold iobind at 1 in Hnew. rewrite Hrun3 in Hnew.
  destruct (getAdvancedOptionInt_logs envVarStreamChannelSize
              defaultStreamChannelSize (((h ++ d1) ++ d2) ++ d3)) as (d4 & Hrun4 & Hd4).
  unfold iobind at 1 in Hnew. rewrite Hrun4 in Hnew.
  clear Hrun1 Hrun2 Hrun3 Hrun4.
  assert (Forall isLog (d1 ++ d2 ++ d3 ++ d4)) as Hd by (by rewrite !Forall_app).
  assert ((((h ++ d1) ++ d2) ++ d3) ++ d4 = h ++ (d1 ++ d2 ++ d3 ++ d4)) as Hassoc
    by (by rewrite <- !app_assoc).
  rewrite Hassoc in Hnew. clear Hassoc.
  set (logs := d1 ++ d2 ++ d3 ++ d4) in *. clearbody logs. clear d1 d2 d3 d4 Hd1 Hd2 Hd3 Hd4.
  case_bool_decide as Hsize; [done|].
  destruct (boolOption info splunkVerifyConnectionKey true) as [err|verify] eqn:Hverify;
    [done|].
  set (splLogger := {| url := urlString (optURL o) |}) in *.
  assert (exists failed checked,
            (if verify then verifySplunkConnection splLogger else ioret None) (h ++ logs) =
              (failed, (h ++ logs) ++ checked) /\
            (failed = None ->
             if verify
             then exists resp, checked = [IoHttp (probe splLogger) (inr resp)] /\
                               StatusCode resp = 200
             else checked = [])) as (failed & checked & Hrun & Hchecked).
  { destruct verify.
    - destruct (verifySplunkConnection_cases splLogger (h ++ logs))
        as (r & d & Hrun & [[-> [err ->]]|(res & -> & Hres)]).
      + exists (Some err), []. by split.
      + exists r, [IoHttp (probe splLogger) res]. split; [done|].
        intros (resp & -> & Hok)%Hres. by exists resp.
    - exists None, []. rewrite app_nil_r. by split. }
  unfold iobind at 1 in Hnew. rewrite Hrun in Hnew.
  destruct failed as [err|]; [done|]. specialize (Hchecked eq_refl).
  exists o, verify, logs, checked.
  split; [done|]. split; [done|]. split; [lia|]. cbn zeta.
  repeat case_bool_decide; unfold iobind, emit, ioret in Hnew; simpl in Hnew;
    simplify_eq;
    (split; [by rewrite <- !app_assoc|]); repeat (split; [done|]); auto.
Qed.

End NewSuccess.

Section OptionsRead.
Context `{GoLib} `{ConfigLib}.

(** What [readOptions] has read when it goes through. *)
Lemma readOptions_fields info o :
  readOptions info = inr o ->
  infoHostname info = inr (optHostname o) /\
  parseURL info = inr (optURL o) /\
  Config info !! splunkTokenKey = Some (optToken o) /\
  boolOption info splunkGzipCompressionKey false = inr (optGzip o) /\
  boolOption info splunkIndexAcknowledgment false = inr (optIndexAck o) /\
  gzipDefaultCompression <= optGzipLevel o <= gzipBestCompression /\
  (Config info !! tagKey = Some "" /\ optTag o = "" \/
   Config info !! tagKey <> Some "" /\ ParseLogTag info = inr (optTag o)) /\
  ExtraAttributes info = inr (optExtraAttrs o).
Proof.
  unfold readOptions. intros Hread.
  destruct (infoHostname info) as [|hostname]; [done|].
  destruct (parseURL info) as [|u]; [done|].
  destruct (Config info !! splunkTokenKey) as [token|]; [|done].
  destruct (boolOption info splunkInsecureSkipVerifyKey false) as [|b1]; [done|].
  destruct (match Config info !! splunkCAPathKey with
            | Some caPath => _ | None => _ end) as [|rootCAs]; [done|].
  destruct (boolOption info splunkGzipCompressionKey false) as [|b2]; [done|].
  destruct (match Config info !! splunkGzipCompressionLevelKey with
            | Some str => _ | None => _ end) as [|lvl] eqn:Hlvl; [done|].
  destruct (boolOption info splunkIndexAcknowledgment false) as [|b3]; [done|].
  destruct (match Config info !! tagKey with
            | Some (String _ _) => _ | _ => _ end) as [|tag] eqn:Htag; [done|].
  destruct (ExtraAttributes info) as [|attrs]; [done|].
  injection Hread as <-. simpl. repeat (split; [done|]).
  split; [|split; [|done]].
  - destruct (Config info !! splunkGzipCompressionLevelKey) as [str|].
    + destruct (ParseInt32 str) as [|n]; [done|].
      destruct (bool_decide (n < gzipDefaultCompression)) eqn:H1;
        destruct (bool_decide (n > gzipBestCompression)) eqn:H2; try done.
      apply bool_decide_eq_false_1 in H1, H2. injection Hlvl as <-. lia.
    + injection Hlvl as <-. done.
  - destruct (Config info !! tagKey) as [[|ch str]|]; [left|right..].
    + by injection Htag as <-.
    + done.
    + done.
Qed.

Lemma parseURL_path info u :
  parseURL info = inr u -> Path u = "/services/collector/event/1.0".
Proof.
  unfold parseURL. destruct (Config info !! splunkURLKey) as [str|]; [|done].
  destruct (urlParse str) as [|parsed]; [done|].
  destruct (_ || _); [done|]. by intros [= <-].
Qed.

End OptionsRead.

(** The logger that [New] returns sends to the URL of the configuration,
    with the path of the event collector, under the token of the
    configuration; its records carry the host name and the source, source
    type and index of the configuration; and its compression level is one
    of [-1 .. 9]. *)
Theorem New_logger `{GoLib} `{ConfigLib} (info : Info) (h : history)
    (c : created) (h' : history) :
  New info h = (Done (inr c), h') ->
  let l := baseLogger (wrapper c) in
  (exists u token,
     parseURL info = inr u /\ Path u = "/services/collector/event/1.0" /\
     Config info !! "splunk-token" = Some token /\
     url l = urlString u /\ auth l = "Splunk " +:+ token) /\
  infoHostname info = inr (Host (nullMessage l)) /\
  Source (nullMessage l) = default "" (Config info !! "splunk-source") /\
  SourceType (nullMessage l) = default "" (Config info !! "splunk-sourcetype") /\
  Index (nullMessage l) = default "" (Config info !! "splunk-index") /\
  -1 <= gzipCompressionLevel l <= 9.
Proof.
  intros Hnew.
  apply New_success in Hnew
    as (o & verify & logs & checked & Hopt & _ & _ & _ & _ & _ & _ & _ & Hwrap).
  apply readOptions_fields in Hopt
    as (Hhost & Hurl & Htoken & _ & _ & Hlvl & _ & _).
  pose proof (parseURL_path info _ Hurl) as Hpath.
  destruct Hwrap as [[_ ->]|[[_ ->]|[_ ->]]]; simpl;
    (split; [by exists (optURL o), (optToken o)|done]).
Qed.

Lemma New_logger_witness :
  exists c,
    (New (H := accepting) (H0 := fixtureConfigLib emptyEnv) goodInfo []).1 = Done (inr c) /\
    url (baseLogger (wrapper c)) =
      "https://splunk.example:8088/services/collector/event/1.0" /\
    auth (baseLogger (wrapper c)) = "Splunk token".
Proof.
  destruct (New (H := accepting) (H0 := fixtureConfigLib emptyEnv) goodInfo [])
    as [[[err|c]|why|] h'] eqn:Hnew; try by vm_compute in Hnew.
  exists c. split; [done|].
  destruct (New_logger (H := accepting) (H0 := fixtureConfigLib emptyEnv)
              goodInfo [] c h' Hnew) as [(u & token & Hurl & _ & Htoken & -> & ->) _].
  vm_compute in Hurl, Htoken. by simplify_eq.
Defined.

(** The four tunables of the logger that [New] returns are those of the
    environment where it sets them and they parse, and the defaults
    otherwise: five seconds, a thousand records a batch, ten thousand in
    the buffer, four thousand in the channel. A tunable that does not parse
    is no error. *)
Theorem New_tunables `{GoLib} `{ConfigLib} (info : Info) (h : history)
    (c : created) (h' : history) :
  New info h = (Done (inr c), h') ->
  let l := baseLogger (wrapper c) in
  let tunable envName parse defaultValue :=
    if bool_decide (Getenv envName = "") then defaultValue
    else match parse (Getenv envName) with
         | inl _ => defaultValue
         | inr parsedValue => parsedValue
         end in
  postMessagesFrequency l =
    tunable "SPLUNK_LOGGING_DRIVER_POST_MESSAGES_FREQUENCY" ParseDuration 5000000000 /\
  postMessagesBatchSize l =
    tunable "SPLUNK_LOGGING_DRIVER_POST_MESSAGES_BATCH_SIZE" ParseInt32 1000 /\
  bufferMaximum l =
    tunable "SPLUNK_LOGGING_DRIVER_BUFFER_MAX" ParseInt32 10000 /\
  streamCapacity c =
    tunable "SPLUNK_LOGGING_DRIVER_CHANNEL_SIZE" ParseInt32 4000 /\
  0 <= streamCapacity c.
Proof.
  intros Hnew.
  apply New_success in Hnew
    as (o & verify & logs & checked & _ & _ & Hsize & _ & _ & _ & _ & Hcap & Hwrap).
  cbn zeta. rewrite Hcap.
  destruct Hwrap as [[_ ->]|[[_ ->]|[_ ->]]]; simpl; done.
Qed.

Lemma New_tunables_witness :
  exists c,
    (New (H := accepting) (H0 := zeroBatchLib) goodInfo []).1 = Done (inr c) /\
    postMessagesBatchSize (baseLogger (wrapper c)) = 0 /\
    bufferMaximum (baseLogger (wrapper c)) = 10000.
Proof.
  destruct (New (H := accepting) (H0 := zeroBatchLib) goodInfo [])
    as [[[err|c]|why|] h'] eqn:Hnew; try by vm_compute in Hnew.
  exists c. split; [done|].
  destruct (New_tunables (H := accepting) (H0 := zeroBatchLib) goodInfo [] c h' Hnew)
    as (_ & -> & -> & _).
  by vm_compute.
Defined.

(** When [strconv.ParseInt] with 32 bits keeps to its range, the batch
    size and the buffer maximum of the logger that [New] returns are
    32-bit integers, and the capacity of its channel is one that is not
    negative. *)
Theorem New_tunables_int `{GoLib} `{ConfigLib} (info : Info) (h : history)
    (c : created) (h' : history) :
  (forall str n, ParseInt32 str = inr n -> - 2 ^ 31 <= n < 2 ^ 31) ->
  New info h = (Done (inr c), h') ->
  - 2 ^ 31 <= postMessagesBatchSize (baseLogger (wrapper c)) < 2 ^ 31 /\
  - 2 ^ 31 <= bufferMaximum (baseLogger (wrapper c)) < 2 ^ 31 /\
  0 <= streamCapacity c < 2 ^ 31 /\
  intRange (postMessagesBatchSize (baseLogger (wrapper c))).
Proof.
  intros Hparse Hnew.
  assert (forall envName defaultValue,
            - 2 ^ 31 <= defaultValue < 2 ^ 31 ->
            - 2 ^ 31 <= envInt envName defaultValue < 2 ^ 31) as Hint.
  { intros envName defaultValue Hdef. unfold envInt. case_bool_decide; [done|].
    destruct (ParseInt32 _) as [|n] eqn:Hn; [done|]. by eapply Hparse. }
  apply New_success in Hnew
    as (o & verify & logs & checked & _ & _ & Hsize & _ & _ & _ & _ & Hcap & Hwrap).
  pose proof (Hint envVarPostMessagesBatchSize defaultPostMessagesBatchSize
                ltac:(by vm_compute)) as Hbatch.
  pose proof (Hint envVarBufferMaximum defaultBufferMaximum ltac:(by vm_compute)) as Hmax.
  pose proof (Hint envVarStreamChannelSize defaultStreamChannelSize
                ltac:(by vm_compute)) as Hchan.
  rewrite Hcap.
  destruct Hwrap as [[_ ->]|[[_ ->]|[_ ->]]]; simpl;
    (repeat split; try lia; unfold int_min, int_max; lia).
Qed.

Lemma New_tunables_int_witness :
  exists c,
    (New (H := accepting) (H0 := zeroBatchLib) goodInfo []).1 = Done (inr c) /\
    intRange (postMessagesBatchSize (baseLogger (wrapper c))).
Proof.
  destruct (New (H := accepting) (H0 := zeroBatchLib) goodInfo [])
    as [[[err|c]|why|] h'] eqn:Hnew; try by vm_compute in Hnew.
  exists c. split; [done|].
  apply (New_tunables_int (H := accepting) (H0 := zeroBatchLib) goodInfo [] c h').
  - intros str n. simpl. case_bool_decide; [|done]. intros [= <-]. lia.
  - done.
Defined.

(** [New] picks the formatter by the option [splunk-format]: the inline
    one when the option is missing or is [inline], the JSON one on [json],
    the raw one on [raw]. The events of the first two carry the tag and the
    extra attributes; the prefix of the raw one is the tag, if it is not
    empty, then the attributes as [key=value], each followed by a space.
    The tag is empty when the option [tag] is set to the empty string. *)
Theorem New_format `{GoLib} `{ConfigLib} (info : Info) (h : history)
    (c : created) (h' : history) :
  New info h = (Done (inr c), h') ->
  exists tag attrs,
    ExtraAttributes info = inr attrs /\
    (Config info !! "tag" = Some "" /\ tag = "" \/
     Config info !! "tag" <> Some "" /\ ParseLogTag info = inr tag) /\
    match Config info !! "splunk-format" with
    | None | Some "inline" =>
        exists l nullEvent,
          wrapper c = splunkLoggerInline l nullEvent /\
          Tag nullEvent = tag /\ Attrs nullEvent = attrs
    | Some "json" =>
        exists l nullEvent,
          wrapper c = splunkLoggerJSON l nullEvent /\
          Tag nullEvent = tag /\ Attrs nullEvent = attrs
    | Some "raw" =>
        exists l,
          wrapper c =
          splunkLoggerRaw l
            ((if bool_decide (tag <> "") then tag +:+ " " else "") +:+
             foldr (fun kv rest => kv.1 +:+ "=" +:+ kv.2 +:+ " " +:+ rest) ""
                   (mapRange attrs))
    | Some _ => False
    end.
Proof.
  intros Hnew.
  apply New_success in Hnew
    as (o & verify & logs & checked & Hopt & _ & _ & _ & _ & _ & _ & _ & Hwrap).
  apply readOptions_fields in Hopt as (_ & _ & _ & _ & _ & _ & Htag & Hattrs).
  exists (optTag o), (optExtraAttrs o). split; [done|]. split; [done|].
  unfold splunkFormatKey, splunkFormatInline, splunkFormatJSON, splunkFormatRaw in Hwrap.
  destruct (Config info !! "splunk-format") as [f|]; simpl in Hwrap.
  - destruct Hwrap as [[-> ->]|[[-> ->]|[-> ->]]]; eauto.
  - destruct Hwrap as [[_ ->]|[[[=] _]|[[=] _]]]. eauto.
Qed.

Lemma New_format_witness :
  exists c l,
    (New (H := accepting) (H0 := fixtureConfigLib emptyEnv) checkedInfo []).1 = Done (inr c) /\
    wrapper c = splunkLoggerRaw l "0123456789ab ".
Proof.
  destruct (New (H := accepting) (H0 := fixtureConfigLib emptyEnv) checkedInfo [])
    as [[[err|c]|why|] h'] eqn:Hnew; try by vm_compute in Hnew.
  destruct (New_format (H := accepting) (H0 := fixtureConfigLib emptyEnv)
              checkedInfo [] c h' Hnew) as (tag & attrs & Hattrs & Htag & Hwrap).
  vm_compute in Hattrs. injection Hattrs as <-.
  destruct Htag as [[Htag _]|[_ Htag]]; [by vm_compute in Htag|].
  vm_compute in Htag. injection Htag as <-.
  change (Config checkedInfo !! "splunk-format") with (Some "raw") in Hwrap.
  destruct Hwrap as [l Hwrap]. exists c, l. split; [done|]. by rewrite Hwrap.
Defined.

Lemma requestsOf_logs (d : history) : Forall isLog d -> requestsOf d = [].
Proof.
  unfold requestsOf. induction 1 as [|e d [entry ->] _ IH]; [done|]. simpl. exact IH.
Qed.

Lemma logs_no_worker (d : history) : Forall isLog d -> IoGo ∉ d.
Proof.
  intros Hlogs Hin. rewrite Forall_forall in Hlogs.
  by destruct (Hlogs _ Hin) as [entry [=]].
Qed.

(** [New] starts the worker exactly when it returns a logger, starts it
    once, and starts it last: after the options are read and the
    connection is checked. *)
Theorem New_starts_worker `{GoLib} `{ConfigLib} (info : Info) (h : history) :
  ((exists c, (New info h).1 = Done (inr c)) <-> IoGo ∈ issued (New info) h) /\
  (forall c, (New info h).1 = Done (inr c) ->
     exists d, issued (New info) h = d ++ [IoGo] /\ (IoGo ∉ d)).
Proof.
  assert (forall c, (New info h).1 = Done (inr c) ->
            exists d, issued (New info) h = d ++ [IoGo] /\ (IoGo ∉ d)) as Hlast.
  { intros c Hc. destruct (New info h) as [r h'] eqn:Hnew. simpl in Hc. subst r.
    pose proof Hnew as Hrun.
    apply New_success in Hnew
      as (o & verify & logs & checked & _ & _ & _ & -> & Hlogs & Hchecked & _).
    exists (logs ++ checked).
    rewrite (issued_app (New info) h ((logs ++ checked) ++ [IoGo]))
      by (by rewrite Hrun, <- !app_assoc).
    split; [done|]. intros [Hin|Hin]%elem_of_app.
    - by apply logs_no_worker in Hin.
    - destruct verify; [|by subst; apply elem_of_nil in Hin].
      destruct Hchecked as (resp & -> & _).
      by apply list_elem_of_singleton in Hin. }
  split; [|done]. split.
  - intros [c Hc]. destruct (Hlast c Hc) as (d & -> & _).
    apply elem_of_app. right. by apply list_elem_of_singleton.
  - intros Hin. destruct (New_outcome info h) as (d & Hd & Hcase).
    rewrite (issued_app (New info) h d Hd) in Hin.
    destruct (New info h).1 as [[err|c]|why|]; [done|by exists c|by destruct Hcase|done].
Qed.

(** A logger is returned only after the endpoint has answered the check
    of the connection with the status 200, and the check is the one request
    that [New] makes; when the check is switched off [New] makes no request
    at all. *)
Theorem New_probe `{GoLib} `{ConfigLib} (info : Info) (h : history)
    (c : created) (h' : history) :
  New info h = (Done (inr c), h') ->
  let verifyConnection :=
    match Config info !! "splunk-verify-connection" with
    | Some str => ParseBool str
    | None => inr true
    end in
  (verifyConnection = inr true ->
   requestsOf (issued (New info) h) = [probe (baseLogger (wrapper c))] /\
   exists resp,
     IoHttp (probe (baseLogger (wrapper c))) (inr resp) ∈ issued (New info) h /\
     StatusCode resp = 200) /\
  (verifyConnection = inr false -> requestsOf (issued (New info) h) = []).
Proof.
  intros Hnew. pose proof Hnew as Hrun.
  apply New_success in Hnew
    as (o & verify & logs & checked & _ & Hverify & _ & -> & Hlogs & Hchecked & _ & _ & Hwrap).
  rewrite (issued_app (New info) h (logs ++ checked ++ [IoGo])) by (by rewrite Hrun).
  unfold boolOption, splunkVerifyConnectionKey in Hverify. cbn zeta.
  rewrite Hverify. clear Hverify Hrun.
  assert (url (baseLogger (wrapper c)) = urlString (optURL o)) as Hurl.
  { by destruct Hwrap as [[_ ->]|[[_ ->]|[_ ->]]]. }
  unfold requestsOf. rewrite !omap_app. fold (requestsOf logs).
  rewrite (requestsOf_logs logs Hlogs). simpl.
  split; intros [= ->].
  - destruct Hchecked as (resp & -> & Hok). unfold probe in *. simpl. rewrite Hurl.
    split; [done|]. exists resp. split; [|done].
    rewrite elem_of_app. right. apply list_elem_of_here.
  - by rewrite Hchecked.
Qed.

Lemma New_probe_witness :
  exists c,
    (New (H := accepting) (H0 := fixtureConfigLib emptyEnv) checkedInfo []).1 = Done (inr c) /\
    requestsOf (issued (New (H := accepting) (H0 := fixtureConfigLib emptyEnv) checkedInfo) [])
      = [probe (baseLogger (wrapper c))].
Proof.
  destruct (New (H := accepting) (H0 := fixtureConfigLib emptyEnv) checkedInfo [])
    as [[[err|c]|why|] h'] eqn:Hnew; try by vm_compute in Hnew.
  exists c. split; [done|].
  by destruct (New_probe (H := accepting) (H0 := fixtureConfigLib emptyEnv)
                 checkedInfo [] c h' Hnew) as [[-> _] _].
Defined.

(** [New] does not look at the batch size it reads: a batch size of zero
    in the environment gives a logger, and the worker of that logger dies
    of a division by zero on the first record it takes from the channel. *)
Theorem New_accepts_zero_batch `{GoLib} `{ConfigLib} (info : Info) (h : history)
    (c : created) (h' : history) (capacity : nat) (s : pipeline)
    (messages : list splunkMessage) (message : splunkMessage)
    (q : list splunkMessage) (wake : nat) :
  New info h = (Done (inr c), h') ->
  Getenv "SPLUNK_LOGGING_DRIVER_POST_MESSAGES_BATCH_SIZE" <> "" ->
  ParseInt32 (Getenv "SPLUNK_LOGGING_DRIVER_POST_MESSAGES_BATCH_SIZE") = inr 0 ->
  crashed s = None ->
  worker s = WorkerSelect messages ->
  stream s = message :: q ->
  fitsInMemory (messages ++ [message]) ->
  postMessagesBatchSize (baseLogger (wrapper c)) = 0 /\
  exists s',
    step (wrapper c) capacity (StepWorker wake) s = Some s' /\
    crashed s' = Some "integer divide by zero".
Proof.
  intros Hnew Hset Hparse Halive Hw Hq Hfit.
  apply New_success in Hnew
    as (o & verify & logs & checked & _ & _ & _ & _ & _ & _ & _ & _ & Hwrap).
  assert (postMessagesBatchSize (baseLogger (wrapper c)) = 0) as Hzero.
  { assert (envInt envVarPostMessagesBatchSize defaultPostMessagesBatchSize = 0) as Henv.
    { unfold envInt, envVarPostMessagesBatchSize.
      by rewrite bool_decide_eq_false_2, Hparse. }
    by destruct Hwrap as [[_ ->]|[[_ ->]|[_ ->]]]. }
  split; [done|].
  unfold step, stepWorker. rewrite Halive, Hw, Hq.
  unfold workerReceive, append, batchReached.
  rewrite bool_decide_eq_true_2 by done.
  rewrite bool_decide_eq_true_2 by done.
  by eexists.
Qed.

Lemma New_accepts_zero_batch_witness :
  exists c s',
    (New (H := accepting) (H0 := zeroBatchLib) goodInfo []).1 = Done (inr c) /\
    step (H := accepting) (wrapper c) 10 (StepWorker 0) oneRecordWaiting = Some s' /\
    crashed s' = Some "integer divide by zero".
Proof.
  destruct (New (H := accepting) (H0 := zeroBatchLib) goodInfo [])
    as [[[err|c]|why|] h'] eqn:Hnew; try by vm_compute in Hnew.
  destruct (New_accepts_zero_batch (H := accepting) (H0 := zeroBatchLib) goodInfo [] c h'
              10 oneRecordWaiting [] helloRecord [] 0 Hnew)
    as [_ (s' & Hstep & Hcrash)]; try done.
  by exists c, s'.
Defined.

(** * The records of the three formats *)


(** * A logger that is never written to *)

Section Idle.
Context `{GoLib}.
Variable lw : loggerWrapper.
Variable capacity : nat.

Lemma postMessages_nil lastChance h :
  postMessages (baseLogger lw) [] lastChance h = (Done [], h).
Proof. done. Qed.

Local Ltac keep_world Hworld :=
  destruct Hworld as [?|[[?|?] ?]];
    [by left|congruence|first [congruence|right; split; [by right|done]]].

Lemma reachable_idle acts s :
  run lw capacity acts initial = Some s ->
  (forall msg, CallLog msg ∉ acts) ->
  Forall isClose (threads s) /\ stream s = [] /\ buffered (worker s) = [] /\
  (world s = [] \/
   (crashed s <> None \/ worker s = WorkerExited) /\ world s = [IoCloseIdleConnections]).
Proof.
  revert acts s.
  apply (reachable_ind lw capacity (fun acts s =>
           (forall msg, CallLog msg ∉ acts) ->
           Forall isClose (threads s) /\ stream s = [] /\ buffered (worker s) = [] /\
           (world s = [] \/
            (crashed s <> None \/ worker s = WorkerExited) /\
            world s = [IoCloseIdleConnections]))).
  - intros _. repeat split; try done. by left.
  - intros acts a s s' Hrun IH Hstep Hnone.
    destruct IH as (Hthreads & Hstream & Hbuf & Hworld).
    { intros msg Hin. apply (Hnone msg), elem_of_app. by left. }
    pose proof (step_alive lw capacity a s s' Hstep) as Halive.
    unfold step in Hstep. rewrite Halive in Hstep.
    destruct a as [msg| |i|wake|].
    + destruct (Hnone msg). apply elem_of_app. right. by apply list_elem_of_singleton.
    + injection Hstep as <-. simpl. split; [|done].
      apply Forall_app. split; [done|]. by constructor.
    + unfold stepThread in Hstep.
      destruct (threads s !! i) as [t|] eqn:Hi; [|done].
      pose proof (Forall_lookup_1 _ _ _ _ Hthreads Hi) as Hclose.
      destruct t as [| | |pc]; try done.
      unfold stepClose in Hstep.
      destruct pc; repeat case_match; simplify_eq; simpl;
        (split; [first [done|by apply Forall_insert]|]);
        (split; [done|]); (split; [done|]); keep_world Hworld.
    + unfold stepWorker in Hstep.
      destruct (worker s) as [|messages| | | |] eqn:Hw; try done.
      * case_bool_decide; injection Hstep as <-; simpl; rewrite ?Hw; simpl;
          (repeat (split; [done|])); keep_world Hworld.
      * simpl in Hbuf. subst messages. rewrite Hstream in Hstep.
        destruct (streamClosed s); [|done]. injection Hstep as <-.
        unfold workerLastChance; rewrite ?postMessages_nil; simpl.
        repeat (split; [done|]). keep_world Hworld.
      * destruct (canLock s); [|done]. injection Hstep as <-. simpl.
        repeat (split; [done|]). keep_world Hworld.
      * assert (world s = []) as Hempty.
        { destruct Hworld as [?|[[?|?] ?]]; [done|congruence..]. }
        destruct (closedCond s).
        -- destruct (signal wake (setClosed s)) as [s2|] eqn:Hsig; [|done].
           injection Hstep as <-. simpl. rewrite Hempty.
           unfold signal in Hsig. simpl in Hsig.
           assert (Forall isClose (threads s2) /\ stream s2 = []) as [? ?].
           { repeat case_match; simplify_eq; simpl; (split; [|done]); try done;
               by apply Forall_insert. }
           repeat (split; [done|]). right. split; [by right|done].
        -- injection Hstep as <-. simpl. rewrite Hempty, ?Hw. simpl.
           repeat (split; [done|]). right. split; [by left|done].
    + unfold stepTick in Hstep.
      destruct (worker s) as [|messages| | | |] eqn:Hw; try done.
      simpl in Hbuf. subst messages. injection Hstep as <-.
      unfold workerTick; rewrite ?postMessages_nil; simpl.
      repeat (split; [done|]). keep_world Hworld.
Qed.

End Idle.

(** A logger that no message is logged to makes no request and writes
    nothing to the log, whatever its tunables are and however often its
    timer fires or [Close] is called: all it ever does is to close the
    idle connections of its transport, once, when it is shut down. *)
Theorem idle_logger_is_silent `{GoLib} (lw : loggerWrapper) (capacity : nat)
    (acts : list action) (s : pipeline) :
  run lw capacity acts initial = Some s ->
  (forall msg, CallLog msg ∉ acts) ->
  world s = [] \/ world s = [IoCloseIdleConnections].
Proof.
  intros Hrun Hnone.
  destruct (reachable_idle lw capacity acts s Hrun Hnone) as (_ & _ & _ & [?|[_ ?]]); auto.
Qed.

Lemma idle_logger_is_silent_witness :
  exists s, run (H := refusing) rawLogger 10 closeOnly initial = Some s /\
            (world s = [] \/ world s = [IoCloseIdleConnections]).
Proof.
  destruct (run (H := refusing) rawLogger 10 closeOnly initial) as [s|] eqn:Hrun;
    [|by vm_compute in Hrun].
  exists s. split; [done|].
  apply (idle_logger_is_silent (H := refusing) rawLogger 10 closeOnly s Hrun).
  intros msg Hin. unfold closeOnly in Hin.
  repeat (apply elem_of_cons in Hin as [Hin|Hin]; [discriminate|]).
  by apply elem_of_nil in Hin.
Defined.

(** * The shutdown comes to an end *)

Section CloseInvariant.
Context `{GoLib}.
Variable lw : loggerWrapper.
Variable capacity : nat.

Lemma closeOk_mono cond sc cl cond' sc' cl' t :
  closeOk cond sc cl t ->
  (cond = true -> cond' = true) -> (sc = true -> sc' = true) ->
  (cl = true -> cl' = true) ->
  closeOk cond' sc' cl' t.
Proof.
  destruct t as [| | |[| | | | | |[]|[]]]; simpl; try done; auto.
  intros [? ?]; auto.
Qed.

Lemma closeInv_initial : closeInv initial.
Proof. split; simpl; [by constructor|done]. Qed.

(** One goroutine moves; the variables of the shutdown are set or stay. *)
Lemma closeInv_update s s' (i : nat) t t' :
  closeInv s ->
  threads s !! i = Some t ->
  threads s' = <[i := t']> (threads s) ->
  (closedCond s = true -> closedCond s' = true) ->
  (streamClosed s = true -> streamClosed s' = true) ->
  (closed s = true -> closed s' = true) ->
  closeOk (closedCond s') (streamClosed s') (closed s') t' ->
  (closedCond s' = true -> streamClosed s' = false ->
   closing t' = true \/ (closing t = false /\ closedCond s = true)) ->
  closeInv s'.
Proof.
  intros [Hthreads Hclosing] Hi Ht Hcond Hsc Hcl Hok Hnew.
  split; rewrite Ht.
  - apply Forall_insert; [|done].
    eapply Forall_impl; [done|]. intros t0 Ht0. by eapply closeOk_mono.
  - intros Hc' Hsc'.
    pose proof (count_insert closing _ _ _ t' Hi) as Hcount.
    destruct (Hnew Hc' Hsc') as [Ht'|[Hnot Hc]].
    + rewrite Ht' in Hcount. destruct (closing t) eqn:Hct;
        [pose proof (count_lookup closing _ _ _ Hi Hct)|]; lia.
    + rewrite Hnot in Hcount.
      assert (streamClosed s = false) as Hsc0.
      { destruct (streamClosed s); [|done]. rewrite Hsc in Hsc'; done. }
      specialize (Hclosing Hc Hsc0). lia.
Qed.

(** No goroutine moves. *)
Lemma closeInv_frame s s' :
  closeInv s ->
  threads s' = threads s -> closedCond s' = closedCond s ->
  streamClosed s' = streamClosed s -> closed s' = closed s ->
  closeInv s'.
Proof.
  intros [Hthreads Hclosing] Ht Hcond Hsc Hcl.
  split; rewrite Ht, Hcond, Hsc, ?Hcl; done.
Qed.

Lemma closeInv_spawn s t :
  closeInv s -> closeOk (closedCond s) (streamClosed s) (closed s) t ->
  closeInv (setThreads (threads s ++ [t]) s).
Proof.
  intros [Hthreads Hclosing] Hok. split; simpl.
  - apply Forall_app. split; [done|]. by constructor.
  - intros Hc Hsc. rewrite count_app. specialize (Hclosing Hc Hsc). lia.
Qed.

Lemma closeInv_step a s s' :
  invariant lw s -> closeInv s ->
  step lw capacity a s = Some s' ->
  crashed s' = None ->
  closeInv s'.
Proof.
  intros Hinv Hci Hstep Halive. unfold step in Hstep.
  destruct (crashed s); [done|].
  destruct a as [msg| |i|wake|].
  - injection Hstep as <-. by apply closeInv_spawn.
  - injection Hstep as <-. by apply closeInv_spawn.
  - unfold stepThread in Hstep.
    destruct (threads s !! i) as [[msg|msg|message pc|pc]|] eqn:Hi; try done.
    + destruct (Log lw msg); injection Hstep as <-;
        (eapply closeInv_update; [done..|]); intros Hc Hsc; right; done.
    + unfold stepQueue in Hstep.
      destruct pc; repeat case_match; simplify_eq; try done;
        (eapply closeInv_update; [done..|]); intros Hc Hsc; right; done.
    + pose proof (Forall_lookup_1 _ _ _ _ (ci_threads _ Hci) Hi) as Hok.
      pose proof (Forall_lookup_1 _ _ _ _ (inv_threads _ _ Hinv) Hi) as Hok'.
      unfold stepClose in Hstep.
      destruct pc as [| | | | | |b|b]; simpl in Hok, Hok';
        repeat case_match; simplify_eq; try done;
        (eapply closeInv_update;
         [done|done|done|simpl; auto|simpl; auto|simpl; auto
         |first [done|by destruct Hok|by destruct b]
         |simpl; intros Hc Hsc;
          first [by left|by right|congruence|destruct Hok; congruence]]).
  - unfold stepWorker in Hstep.
    destruct (worker s) as [|messages| | | |] eqn:Hw; try done.
    + case_bool_decide; injection Hstep as <-; [done|]. by apply (closeInv_frame s).
    + destruct (stream s) as [|message q] eqn:Hq.
      * destruct (streamClosed s) eqn:Hsc; [|done]. injection Hstep as <-.
        destruct (workerLastChance _ _ _) as [[rest|why|] h]; simpl in *; [|done|];
          by apply (closeInv_frame s).
      * injection Hstep as <-.
        destruct (workerReceive _ _ _ _) as [[rest|why|] h]; simpl in *; [|done|];
          by apply (closeInv_frame s).
    + destruct (canLock s); [|done]. injection Hstep as <-. by apply (closeInv_frame s).
    + destruct (closedCond s) eqn:Hcond; [|by injection Hstep as <-].
      destruct (signal wake (setClosed s)) as [s2|] eqn:Hsig; [|done].
      injection Hstep as <-.
      destruct (inv_worker _ _ Hinv) as [Hsc _]; [by rewrite Hw|].
      assert (closeInv (setClosed s)) as Hci'.
      { destruct Hci as [Hthreads Hclosing]. split; simpl; [|done].
        eapply Forall_impl; [done|]. intros t0 Ht0. by eapply closeOk_mono. }
      unfold signal in Hsig. simpl in Hsig.
      destruct (threads s !! wake) as [t|] eqn:Hwake.
      * destruct (parked t) eqn:Hpt.
        -- assert (t = InClose CloseParked) as -> by (by destruct t as [| | |[]]).
           injection Hsig as <-.
           eapply (closeInv_update (setClosed s)); [done|done|done|done..| |].
           ++ simpl. done.
           ++ simpl. intros _ ?. congruence.
        -- assert (s2 = setClosed s) as ->.
           { destruct t as [| | |[]]; try done;
               (destruct (existsb parked (threads s)); [done|]; by injection Hsig as <-). }
           by apply (closeInv_frame (setClosed s)).
      * destruct (existsb parked (threads s)); [done|]. injection Hsig as <-.
        by apply (closeInv_frame (setClosed s)).
  - unfold stepTick in Hstep. destruct (worker s) eqn:Hw; try done.
    injection Hstep as <-.
    destruct (workerTick _ _ _) as [[rest|why|] h]; simpl in *; [|done|];
      by apply (closeInv_frame s).
Qed.

End CloseInvariant.

Section WorkLeft.
Context `{GoLib}.
Variable lw : loggerWrapper.
Variable capacity : nat.

Lemma total_insert f (ts : list thread) (i : nat) t t' :
  ts !! i = Some t ->
  (total f (<[i := t']> ts) + f t = total f ts + f t')%nat.
Proof.
  revert i. induction ts as [|t0 ts IH]; intros [|i] Hi; simpl in *; try done.
  - injection Hi as ->. lia.
  - specialize (IH i Hi). unfold insert in *. lia.
Qed.

Lemma total_mono f g (ts : list thread) :
  (forall t, (f t <= g t)%nat) -> (total f ts <= total g ts)%nat.
Proof.
  intros Hfg. induction ts as [|t ts IH]; simpl; [done|]. specialize (Hfg t). lia.
Qed.

Lemma stepsLeft_closed t : (stepsLeft true t <= stepsLeft false t)%nat.
Proof. destruct t as [| |m []|[]]; simpl; lia. Qed.

(** A step of a goroutine brings the end nearer. *)
Lemma stepThread_workLeft i s s' :
  closeInv s ->
  stepThread lw capacity i s = Some s' ->
  crashed s' = None ->
  (workLeft s' < workLeft s)%nat.
Proof.
  intros Hci Hstep Halive. unfold stepThread in Hstep.
  destruct (threads s !! i) as [t|] eqn:Hi; [|done].
  pose proof (Forall_lookup_1 _ _ _ _ (ci_threads _ Hci) Hi) as Hok.
  assert (forall t' s0,
            threads s0 = threads s -> closed s0 = closed s -> worker s0 = worker s ->
            (length (stream s0) <= S (length (stream s)))%nat ->
            (stepsLeft (closed s) t' < stepsLeft (closed s) t)%nat ->
            (workLeft (setThread i t' s0) < workLeft s)%nat) as Hset.
  { intros t' s0 Ht Hcl Hw Hq Hless. unfold workLeft. simpl. rewrite Ht, Hcl, Hw.
    pose proof (total_insert (stepsLeft (closed s)) _ _ _ t' Hi). lia. }
  destruct t as [msg|msg|message pc|pc]; try done.
  - destruct (Log lw msg); injection Hstep as <-; apply Hset; simpl; (done || lia).
  - unfold stepQueue in Hstep.
    destruct pc; repeat case_match; simplify_eq; try done;
      apply Hset; simpl; rewrite ?length_app; simpl; (done || lia).
  - unfold stepClose in Hstep.
    destruct pc as [| | | | | |b|b]; simpl in Hok;
      repeat case_match; simplify_eq; try done;
      apply Hset; simpl; try done;
      repeat match goal with
             | Hc : closed s = _ |- _ => rewrite Hc
             | Hc : _ /\ _ |- _ => destruct Hc
             end; simpl; first [done|lia|destruct (closed s); lia].
Qed.

(** So does a step of the worker. *)
Lemma stepWorker_workLeft wake s s' :
  stepWorker lw wake s = Some s' ->
  crashed s' = None -> worker s' <> WorkerStuck ->
  (workLeft s' < workLeft s)%nat.
Proof.
  intros Hstep Halive Hstuck. unfold stepWorker in Hstep.
  destruct (worker s) as [|messages| | | |] eqn:Hw; try done.
  - case_bool_decide; injection Hstep as <-; [done|].
    unfold workLeft. simpl. rewrite Hw. simpl. lia.
  - destruct (stream s) as [|message q] eqn:Hq.
    + destruct (streamClosed s); [|done]. injection Hstep as <-.
      destruct (workerLastChance _ _ _) as [[rest|why|] h]; simpl in *; try done.
      unfold workLeft. simpl. rewrite Hw, Hq. simpl. lia.
    + injection Hstep as <-.
      destruct (workerReceive _ _ _ _) as [[rest|why|] h]; simpl in *; try done.
      unfold workLeft. simpl. rewrite Hw, Hq. simpl. lia.
  - destruct (canLock s); [|done]. injection Hstep as <-.
    unfold workLeft. simpl. rewrite Hw. simpl. lia.
  - destruct (closedCond s); [|by injection Hstep as <-].
    destruct (signal wake (setClosed s)) as [s2|] eqn:Hsig; [|done].
    injection Hstep as <-. unfold workLeft. simpl. rewrite Hw. simpl.
    pose proof (total_mono (stepsLeft true) (stepsLeft (closed s)) (threads s)) as Hmono.
    assert (stream s2 = stream s /\ closed s2 = true /\
            (total (stepsLeft true) (threads s2) <= total (stepsLeft true) (threads s))%nat)
      as (-> & -> & Hle).
    { unfold signal in Hsig. simpl in Hsig.
      destruct (threads s !! wake) as [t|] eqn:Hwake.
      - destruct (parked t) eqn:Hpt.
        + assert (t = InClose CloseParked) as -> by (by destruct t as [| | |[]]).
          injection Hsig as <-. simpl. repeat split; try done.
          pose proof (total_insert (stepsLeft true) _ _ _ (InClose CloseWoken) Hwake) as Hins.
          simpl in Hins. lia.
        + assert (s2 = setClosed s) as ->; [|done].
          destruct t as [| | |[]]; try done;
            (destruct (existsb parked (threads s)); [done|]; by injection Hsig as <-).
      - destruct (existsb parked (threads s)); [done|]. by injection Hsig as <-. }
    specialize (Hmono ltac:(intros t; destruct (closed s); [done|apply stepsLeft_closed])).
    lia.
Qed.

End WorkLeft.

Section Progress.
Context `{GoLib}.
Variable lw : loggerWrapper.
Variable capacity : nat.

Lemma existsb_find (f : thread -> bool) (ts : list thread) :
  existsb f ts = true -> exists (i : nat) t, ts !! i = Some t /\ f t = true.
Proof.
  induction ts as [|t ts IH]; simpl; [done|].
  destruct (f t) eqn:Ht; simpl.
  - intros _. by exists 0%nat, t.
  - intros (i & t' & Hi & Ht')%IH. by exists (S i), t'.
Qed.

Lemma existsb_none (f : thread -> bool) (ts : list thread) (i : nat) t :
  existsb f ts = false -> ts !! i = Some t -> f t = false.
Proof.
  intros Hnone Hi. destruct (f t) eqn:Ht; [|done].
  by rewrite (existsb_lookup f ts i t Hi Ht) in Hnone.
Qed.

(** A goroutine that holds the lock for writing can move. *)
Lemma writer_steps s (i : nat) t :
  threads s !! i = Some t -> holdsWrite t = true ->
  exists s', stepThread lw capacity i s = Some s'.
Proof.
  intros Hi Hw. unfold stepThread. rewrite Hi.
  destruct t as [| | |[]]; try done; simpl; repeat case_match; eauto.
Qed.

(** So can one that holds it for reading, if the channel takes its
    record. *)
Lemma reader_steps s (i : nat) t :
  threads s !! i = Some t -> holdsRead t = true ->
  (forall message, t = InQueue message EnqSend ->
     streamClosed s = true \/ canSend capacity s = true) ->
  exists s', stepThread lw capacity i s = Some s'.
Proof.
  intros Hi Hr Hsend. unfold stepThread. rewrite Hi.
  destruct t as [| |message []|]; try done; simpl; repeat case_match; eauto.
  destruct (Hsend message eq_refl); congruence.
Qed.

(** So can one that is neither through nor inside [Wait], when the lock
    is free. *)
Lemma free_steps s (i : nat) t :
  threads s !! i = Some t -> canLock s = true ->
  holdsRead t = false -> holdsWrite t = false -> idle t = false ->
  exists s', stepThread lw capacity i s = Some s'.
Proof.
  intros Hi Hlock Hr Hw Hidle. unfold stepThread. rewrite Hi.
  assert (canRLock s = true) as Hrlock.
  { unfold canLock, canRLock in *. by apply andb_true_iff in Hlock as [? _]. }
  destruct t as [| |message []|[]]; try done; simpl; rewrite ?Hlock, ?Hrlock;
    repeat case_match; eauto.
Qed.

(** While the worker does not hold the lock and the channel takes what
    is sent, a goroutine can move, or the lock is free and every
    goroutine is through or inside [Wait]. *)
Lemma threads_progress s :
  workerHoldsLock (worker s) = false ->
  (forall (i : nat) message, threads s !! i = Some (InQueue message EnqSend) ->
     streamClosed s = true \/ canSend capacity s = true) ->
  (exists i s', stepThread lw capacity i s = Some s') \/
  (canLock s = true /\ Forall (fun t => idle t = true) (threads s)).
Proof.
  intros Hworker Hsend.
  destruct (existsb holdsWrite (threads s)) eqn:Hwrite.
  { apply existsb_find in Hwrite as (i & t & Hi & Ht).
    left. exists i. by eapply writer_steps. }
  destruct (existsb holdsRead (threads s)) eqn:Hread.
  { apply existsb_find in Hread as (i & t & Hi & Ht).
    left. exists i. eapply reader_steps; [done..|].
    intros message ->. by eapply Hsend. }
  assert (canLock s = true) as Hlock.
  { unfold canLock, writeLocked, readLocked. by rewrite Hwrite, Hread, Hworker. }
  destruct (existsb (fun t => negb (idle t)) (threads s)) eqn:Hbusy.
  - apply existsb_find in Hbusy as (i & t & Hi & Ht).
    left. exists i. eapply free_steps; [done..| | |].
    + by eapply existsb_none.
    + by eapply existsb_none.
    + by apply negb_true_iff.
  - right. split; [done|]. apply Forall_lookup. intros i t Hi.
    pose proof (existsb_none _ _ _ _ Hbusy Hi) as Ht. by apply negb_false_iff in Ht.
Qed.

Lemma count_none f (ts : list thread) :
  Forall (fun t => f t = false) ts -> count f ts = 0%nat.
Proof. induction 1 as [|t ts Ht _ IH]; simpl; [done|]. by rewrite Ht. Qed.

(** In a live pipeline that has a call of [Close], as long as a call has
    not returned or the worker has not ended, a goroutine or the worker
    can move. *)
Lemma progress s :
  invariant lw s -> handshake s -> closeInv s ->
  crashed s = None -> worker s <> WorkerStuck ->
  (exists (i : nat) pc, threads s !! i = Some (InClose pc)) ->
  (worker s = WorkerExited /\ Forall (fun t => returned t = true) (threads s)) \/
  (exists a s', ((exists i, a = StepThread i) \/ (exists wake, a = StepWorker wake)) /\
                step lw capacity a s = Some s').
Proof.
  intros Hinv Hhs Hci Halive Hstuck (i0 & pc0 & Hi0).
  assert (forall i, (exists s', stepThread lw capacity i s = Some s') ->
            exists a s', ((exists i, a = StepThread i) \/ (exists wake, a = StepWorker wake)) /\
                         step lw capacity a s = Some s') as Hthread.
  { intros i [s' Hstep]. exists (StepThread i), s'. split; [left; by exists i|].
    unfold step. by rewrite Halive. }
  assert (forall wake, (exists s', stepWorker lw wake s = Some s') ->
            exists a s', ((exists i, a = StepThread i) \/ (exists wake, a = StepWorker wake)) /\
                         step lw capacity a s = Some s') as Hworker.
  { intros wake [s' Hstep]. exists (StepWorker wake), s'. split; [right; by exists wake|].
    unfold step. by rewrite Halive. }
  assert (workerDone (worker s) = true ->
          forall (i : nat) message, threads s !! i = Some (InQueue message EnqSend) ->
            streamClosed s = true \/ canSend capacity s = true) as Hdone.
  { intros Hd i message Hi. left. by destruct (inv_worker _ _ Hinv Hd). }
  destruct (worker s) as [|messages| | | |] eqn:Hw; try done.
  - right. apply (Hworker 0%nat). unfold stepWorker. rewrite Hw. case_bool_decide; eauto.
  - destruct (stream s) as [|message q] eqn:Hq.
    2:{ right. apply (Hworker 0%nat). unfold stepWorker. rewrite Hw, Hq. eauto. }
    destruct (streamClosed s) eqn:Hsc.
    { right. apply (Hworker 0%nat). unfold stepWorker. rewrite Hw, Hq, Hsc. eauto. }
    destruct (threads_progress s) as [(i & s' & Hstep)|[Hlock Hidle]].
    + by rewrite Hw.
    + intros i message Hi. right. unfold canSend. rewrite Hw, Hq. simpl.
      destruct capacity; [done|]. rewrite bool_decide_eq_true_2; [done|lia].
    + right. apply (Hthread i). eauto.
    + (* the call of [Close] would have closed the channel *)
      exfalso.
      pose proof (Forall_lookup_1 _ _ _ _ Hidle Hi0) as Hidle0.
      pose proof (Forall_lookup_1 _ _ _ _ (ci_threads _ Hci) Hi0) as Hok0.
      assert (closedCond s = true) as Hcond.
      { unfold idle in Hidle0.
        destruct pc0 as [| | | | | |b|[]]; simpl in Hidle0, Hok0; try done; try congruence.
        all: destruct Hok0; congruence. }
      pose proof (ci_closing _ Hci Hcond Hsc) as Hclosing.
      rewrite count_none in Hclosing; [lia|].
      eapply Forall_impl; [done|]. intros t Ht. by destruct t as [| |m []|[]].
  - destruct (threads_progress s) as [(i & s' & Hstep)|[Hlock Hidle]].
    + by rewrite Hw.
    + by apply Hdone.
    + right. apply (Hthread i). eauto.
    + right. apply (Hworker 0%nat). unfold stepWorker. rewrite Hw, Hlock. eauto.
  - right. destruct (closedCond s) eqn:Hcond.
    2:{ apply (Hworker 0%nat). unfold stepWorker. rewrite Hw, Hcond. eauto. }
    destruct (existsb parked (threads s)) eqn:Hparked.
    + apply existsb_find in Hparked as (i & t & Hi & Ht).
      assert (t = InClose CloseParked) as -> by (by destruct t as [| | |[]]).
      apply (Hworker i). unfold stepWorker, signal. rewrite Hw, Hcond. simpl.
      rewrite Hi. simpl. eauto.
    + apply (Hworker 0%nat). unfold stepWorker, signal. rewrite Hw, Hcond. simpl.
      rewrite Hparked.
      destruct (threads s !! 0%nat) as [t|] eqn:Hi; [|simpl; eauto].
      pose proof (existsb_none _ _ _ _ Hparked Hi).
      destruct t as [| | |[]]; simpl; eauto; done.
  - destruct (threads_progress s) as [(i & s' & Hstep)|[Hlock Hidle]].
    + by rewrite Hw.
    + by apply Hdone.
    + right. apply (Hthread i). eauto.
    + left. split; [done|].
      pose proof (hs_parked _ Hhs (hs_exited _ Hhs Hw)) as Hnone.
      apply Forall_lookup. intros i t Hi.
      pose proof (Forall_lookup_1 _ _ _ _ Hidle Hi) as Ht.
      pose proof (count_zero parked _ _ _ Hnone Hi) as Hp.
      unfold idle in Ht. by rewrite Hp, orb_false_r in Ht.
Qed.

(** A call of [Close] stays a call of [Close]. *)
Lemma step_close_stays a s s' (i : nat) pc :
  step lw capacity a s = Some s' ->
  threads s !! i = Some (InClose pc) ->
  exists pc', threads s' !! i = Some (InClose pc').
Proof.
  intros Hstep Hi.
  assert (i < length (threads s))%nat as Hlt by (by eapply lookup_lt_Some).
  unfold step in Hstep. destruct (crashed s); [done|].
  destruct a as [msg| |j|wake|].
  - injection Hstep as <-. exists pc. simpl. by apply lookup_app_l_Some.
  - injection Hstep as <-. exists pc. simpl. by apply lookup_app_l_Some.
  - unfold stepThread in Hstep. destruct (decide (j = i)) as [->|Hne].
    + rewrite Hi in Hstep. unfold stepClose in Hstep.
      destruct pc; repeat case_match; simplify_eq; simpl;
        rewrite ?list_lookup_insert_eq by done; eauto.
    + destruct (threads s !! j) as [[msg|msg|message pc'|pc']|] eqn:Hj; try done.
      * destruct (Log lw msg); injection Hstep as <-; simpl;
          rewrite list_lookup_insert_ne by done; eauto.
      * unfold stepQueue in Hstep.
        destruct pc'; repeat case_match; simplify_eq; simpl;
          rewrite ?list_lookup_insert_ne by done; eauto.
      * unfold stepClose in Hstep.
        destruct pc'; repeat case_match; simplify_eq; simpl;
          rewrite ?list_lookup_insert_ne by done; eauto.
  - unfold stepWorker in Hstep.
    destruct (worker s) as [|messages| | | |]; try done.
    + case_bool_decide; injection Hstep as <-; simpl; eauto.
    + destruct (stream s) as [|m q].
      * destruct (streamClosed s); [|done]. injection Hstep as <-.
        destruct (afterFlush_frame (fun _ => WorkerFlushed)
                    (workerLastChance (baseLogger lw) messages (world s)) s) as [-> _].
        eauto.
      * injection Hstep as <-.
        destruct (afterFlush_frame WorkerSelect
                    (workerReceive (baseLogger lw) messages m (world s))
                    (setStream q s)) as [-> _].
        simpl. eauto.
    + destruct (canLock s); [|done]. injection Hstep as <-. simpl. eauto.
    + destruct (closedCond s); [|injection Hstep as <-; simpl; eauto].
      destruct (signal wake (setClosed s)) as [s2|] eqn:Hsig; [|done].
      injection Hstep as <-. simpl. unfold signal in Hsig. simpl in Hsig.
      destruct (decide (wake = i)) as [->|Hne].
      * rewrite Hi in Hsig.
        destruct pc; try (destruct (existsb parked (threads s)); [done|]);
          injection Hsig as <-; simpl; rewrite ?list_lookup_insert_eq by done; eauto.
      * repeat case_match; simplify_eq; simpl;
          rewrite ?list_lookup_insert_ne by done; eauto.
  - unfold stepTick in Hstep. destruct (worker s); try done.
    injection Hstep as <-.
    destruct (afterFlush_frame WorkerSelect
                (workerTick (baseLogger lw) messages (world s)) s) as [-> _].
    eauto.
Qed.

End Progress.

Section Shutdown.
Context `{GoLib}.
Variable lw : loggerWrapper.
Variable capacity : nat.

Local Abbreviation l := (baseLogger lw).

Hypothesis batchSize_int : intRange (postMessagesBatchSize l).
Hypothesis batchSize_pos : 0 < postMessagesBatchSize l.
Hypothesis frequency_pos : 0 < postMessagesFrequency l.
Hypothesis ceiling_fits : bufferCeiling l < 2 ^ 62.

Lemma healthy_step a s s' :
  healthy lw s -> step lw capacity a s = Some s' -> healthy lw s'.
Proof.
  intros (Halive & Hinv & Hhs & Hci & Hb) Hstep.
  assert (crashed s' = None) as Halive' by (by eapply step_survives).
  split; [done|]. split; [by eapply invariant_step|].
  split; [by eapply handshake_step|]. split; [by eapply closeInv_step|].
  by eapply bounded_step.
Qed.

Lemma healthy_run more s s' :
  healthy lw s -> run lw capacity more s = Some s' -> healthy lw s'.
Proof.
  revert s. induction more as [|a more IH]; intros s Hs; simpl.
  - by intros [= <-].
  - destruct (step lw capacity a s) as [s1|] eqn:Hstep; [|done].
    apply IH. by eapply healthy_step.
Qed.

Lemma healthy_initial : healthy lw initial.
Proof.
  split; [done|]. split; [apply invariant_initial|].
  split; [apply handshake_initial|]. split; [apply closeInv_initial|].
  split; [done|]. by apply ceiling_pos.
Qed.


(** A step of a goroutine brings the end of the shutdown nearer. *)
Lemma step_workLeft a s s' :
  healthy lw s -> moves a = true ->
  step lw capacity a s = Some s' ->
  (workLeft s' < workLeft s)%nat.
Proof.
  intros Hs Ha Hstep.
  destruct (healthy_step a s s' Hs Hstep) as (Halive' & _ & _ & _ & Hstuck & _).
  destruct Hs as (Halive & Hinv & Hhs & Hci & Hb).
  unfold step in Hstep. rewrite Halive in Hstep.
  destruct a as [msg| |i|wake|]; try done.
  - by eapply stepThread_workLeft.
  - by eapply stepWorker_workLeft.
Qed.


Lemma healthy_progress s (i : nat) pc :
  healthy lw s -> threads s !! i = Some (InClose pc) ->
  finished s \/
  exists a s', moves a = true /\ step lw capacity a s = Some s'.
Proof.
  intros (Halive & Hinv & Hhs & Hci & Hstuck & _) Hi.
  destruct (progress lw capacity s Hinv Hhs Hci Halive Hstuck) as [?|(a & s' & Ha & Hstep)];
    [by exists i, pc|by left|].
  right. exists a, s'. split; [|done]. by destruct Ha as [[j ->]|[wake ->]].
Qed.

Lemma drain (n : nat) s (i : nat) pc :
  (workLeft s <= n)%nat ->
  healthy lw s -> threads s !! i = Some (InClose pc) ->
  exists more s',
    Forall (fun a => moves a = true) more /\
    run lw capacity more s = Some s' /\ crashed s' = None /\ finished s'.
Proof.
  revert s pc. induction n as [|n IH]; intros s pc Hn Hs Hi;
    (destruct (healthy_progress s i pc Hs Hi) as [Hend|(a & s1 & Ha & Hstep)];
     [exists [], s; by destruct Hs|]);
    pose proof (step_workLeft a s s1 Hs Ha Hstep) as Hless; [lia|].
  destruct (step_close_stays lw capacity a s s1 i pc Hstep Hi) as [pc1 Hi1].
  destruct (IH s1 pc1) as (more & s' & Hmoves & Hrun & Halive & Hend);
    [lia|by eapply healthy_step|done|].
  exists (a :: more), s'. split; [by constructor|]. simpl. by rewrite Hstep.
Qed.

End Shutdown.

(** Once [Close] has been called, the shutdown can always be brought to
    its end, with a positive batch size and a positive period, whatever
    the producers, the remote and the scheduler have done so far: from
    where the pipeline is, steps of its goroutines lead to the worker
    ended and every call of [Log] and of [Close] returned, without a
    panic.  No call of [Close] is left waiting for a wake-up that cannot
    come, no producer for a place in the channel. *)
Theorem close_can_complete `{GoLib} (lw : loggerWrapper) (capacity : nat)
    (acts : list action) (s : pipeline) (i : nat) (pc : closePc) :
  intRange (postMessagesBatchSize (baseLogger lw)) ->
  0 < postMessagesBatchSize (baseLogger lw) ->
  0 < postMessagesFrequency (baseLogger lw) ->
  bufferCeiling (baseLogger lw) < 2 ^ 62 ->
  run lw capacity acts initial = Some s ->
  threads s !! i = Some (InClose pc) ->
  exists more s',
    Forall (fun a => moves a = true) more /\
    run lw capacity more s = Some s' /\
    crashed s' = None /\
    worker s' = WorkerExited /\
    Forall (fun t => returned t = true) (threads s').
Proof.
  intros Hint Hpos Hfreq Hceil Hrun Hi.
  pose proof (healthy_run lw capacity Hint Hpos Hfreq Hceil acts initial s
                (healthy_initial lw Hpos) Hrun) as Hs.
  apply (drain lw capacity Hint Hpos Hfreq Hceil (workLeft s) s i pc); done.
Qed.

Lemma close_can_complete_witness :
  exists s more s',
    run (H := refusing) rawLogger 10 lateProducer initial = Some s /\
    Forall (fun a => moves a = true) more /\
    run (H := refusing) rawLogger 10 more s = Some s' /\
    crashed s' = None /\
    worker s' = WorkerExited /\
    Forall (fun t => returned t = true) (threads s').
Proof.
  destruct (run (H := refusing) rawLogger 10 lateProducer initial) as [s|] eqn:Hrun;
    [|by vm_compute in Hrun].
  destruct (close_can_complete (H := refusing) rawLogger 10 lateProducer s 0 CloseParked)
    as (more & s' & Hend).
  - by vm_compute.
  - done.
  - done.
  - by vm_compute.
  - done.
  - vm_compute in Hrun. by injection Hrun as <-.
  - by exists s, more, s'.
Defined.


